(** * Verification of the segment-trie router ([_route]) of go-laeo/ezy

    The development embeds [src/unnamed/part_000] (package [pi]): the trie
    node [_route], [Insert], [Search], [Invoke], [Name], [From] and the
    method registrations.  Nodes live in an explicit heap (a list indexed by
    pointer), because the Go code aliases one child under two keys of
    [sub], compares pointers ([next != current]) and walks [parent]
    back-references.  The two loops of [Search] are a step function on the
    local state at a loop head; the rounds [Search] runs it for are shown
    to be enough on every heap that the registrations build.

    Beside the router, the development embeds the middleware [Cors] of
    [src/unnamed/part_001] and the registration methods and [Group] of
    the server mux of [src/mux.go], each over the operations of the
    interface it calls. *)

From Stdlib Require Import ZArith Ascii String.
From stdpp Require Import base option list strings gmap.

Open Scope string_scope.
Open Scope list_scope.

(** ** Go's [strings] and [path] helpers used by the router *)

Module GoStrings.

(** [strings.Split(s, "/")]: the pieces between separators; an input
    without separator (also the empty one) gives a single piece. *)
Fixpoint Split (s : string) : list string :=
  match s with
  | EmptyString => [EmptyString]
  | String c r =>
      if Ascii.eqb c "/" then EmptyString :: Split r
      else match Split r with
           | piece :: more => String c piece :: more
           | [] => [String c EmptyString]
           end
  end.

(** [strings.Join(elems, "/")]. *)
Fixpoint Join (elems : list string) : string :=
  match elems with
  | [] => EmptyString
  | [e] => e
  | e :: more => e +:+ "/" +:+ Join more
  end.

End GoStrings.

Module GoPath.

(** The byte at index [i] of the output buffer ([lazybuf.index]). *)
Definition index (buf : list ascii) (i : nat) : ascii :=
  default "000"%char (buf !! i).

(** The inner loop of the [..] case of [path.Clean]:
    [for out.w > dotdot && out.index(out.w) != '/' { out.w-- }]. *)
Fixpoint rewind (buf : list ascii) (dotdot w : nat) : nat :=
  match w with
  | 0 => 0
  | S w' =>
      if (dotdot <? w)%nat && negb (Ascii.eqb (index buf w) "/")
      then rewind buf dotdot w' else w
  end.

(** [true] when the element that started is over: end of input or a
    separator ([r+k == n || path[r+k] == '/']). *)
Definition ends (rest : list ascii) : bool :=
  match rest with
  | [] => true
  | c :: _ => Ascii.eqb c "/"
  end.

(** The element copied by the default case and what follows it. *)
Fixpoint element (rest : list ascii) : list ascii * list ascii :=
  match rest with
  | [] => ([], [])
  | c :: more =>
      if Ascii.eqb c "/" then ([], rest)
      else let '(e, after) := element more in (c :: e, after)
  end.

(** The main loop [for r < n] of [path.Clean]; [rest] is [path[r:]] and
    [out] the written part of the buffer.  Every round consumes at least
    one byte, so [length rest] rounds are enough. *)
Fixpoint loop (fuel : nat) (rooted : bool) (rest out : list ascii)
    (dotdot : nat) : list ascii :=
  match fuel with
  | 0 => out
  | S fuel' =>
      match rest with
      | [] => out
      | c :: r1 =>
          if Ascii.eqb c "/" then loop fuel' rooted r1 out dotdot
          else if Ascii.eqb c "." && ends r1 then
            loop fuel' rooted r1 out dotdot
          else if Ascii.eqb c "." &&
                  match r1 with
                  | d :: r2 => Ascii.eqb d "." && ends r2
                  | [] => false
                  end then
            let r2 := tail r1 in
            if (dotdot <? length out)%nat then
              let w := rewind out dotdot (length out - 1) in
              loop fuel' rooted r2 (take w out) dotdot
            else if negb rooted then
              let out1 := if (0 <? length out)%nat
                          then out ++ ["/"%char] else out in
              let out2 := out1 ++ ["."%char; "."%char] in
              loop fuel' rooted r2 out2 (length out2)
            else loop fuel' rooted r2 out dotdot
          else
            let out1 :=
              if (rooted && negb (length out =? 1)%nat)
                 || (negb rooted && negb (length out =? 0)%nat)
              then out ++ ["/"%char] else out in
            let '(e, after) := element rest in
            loop fuel' rooted after (out1 ++ e) dotdot
      end
  end.

(** [path.Clean]. *)
Definition Clean (path : string) : string :=
  match list_ascii_of_string path with
  | [] => "."
  | (c :: _) as bytes =>
      let rooted := Ascii.eqb c "/" in
      let out :=
        if rooted
        then loop (length bytes) true (tail bytes) ["/"%char] 1
        else loop (length bytes) false bytes [] 0 in
      match out with
      | [] => "."
      | _ => string_of_list_ascii out
      end
  end.

End GoPath.

Import GoStrings GoPath.

(** ** [url.Values]: the capture set, a map from key to the ordered values *)

Module Values.

Abbreviation t := (gmap string (list string)).

(** [v.Add(key, value)] appends to the values already under [key]. *)
Definition Add (key value : string) (v : t) : t :=
  <[key := default [] (v !! key) ++ [value]]> v.

(** [v.Has(key)]. *)
Definition Has (key : string) (v : t) : bool :=
  bool_decide (is_Some (v !! key)).

(** [v.Get(key)]: the first value, or the empty string. *)
Definition Get (key : string) (v : t) : string :=
  match v !! key with
  | Some (first :: _) => first
  | _ => ""
  end.

(** [v.Del(key)]. *)
Definition Del (key : string) (v : t) : t := delete key v.

End Values.

(** ** Handlers, errors and the request context *)

(** Modelled from the spec: the structured application error [*Error] built
    by [NewError] is not in the sources; it carries a numeric status code
    and a message. *)
Record Error := NewError { Code : Z; Message : string }.

(** Modelled from the spec: the dynamic type of a non-nil Go [error]
    returned by a handler, either a structured [*Error] or any other error,
    known by its description ([err.Error()]). *)
Inductive error :=
| Structured (v : Error)
| Other (description : string).

(** Modelled from the spec: the [Context] interface (the request/response
    abstraction handed to handlers) is not in the sources.  The model keeps
    what the dispatcher touches: the request method, the status set by
    [ctx.Code] and the values written, one after the other, by [ctx.Json]. *)
Record Context := mkContext {
  Method : string;
  status : Z;
  body : list Error
}.

Definition ctx_Code (c : Z) (ctx : Context) : Context :=
  mkContext (Method ctx) c (body ctx).

Definition ctx_Json (v : Error) (ctx : Context) : Context :=
  mkContext (Method ctx) (status ctx) (body ctx ++ [v]).

(** [type HandlerFunc func(ctx Context) error]: a handler acts on the
    context and returns an error or [nil] ([None]). *)
Definition HandlerFunc : Type := Context -> Context * option error.

(** A middleware constructor, [func(HandlerFunc) HandlerFunc]. *)
Definition Middleware : Type := HandlerFunc -> HandlerFunc.

(** Modelled from the spec: [HandlerFunc.Connect] is not in the sources.
    It wraps the handler by the whole chain, in registration order: the
    middleware registered first is the outermost one. *)
Definition Connect (h : HandlerFunc) (cc : list Middleware) : HandlerFunc :=
  foldr (fun m next => m next) h cc.

Definition StatusInternalServerError : Z := 500.
Definition MethodGet := "GET".
Definition MethodPost := "POST".
Definition MethodPut := "PUT".
Definition MethodDelete := "DELETE".
Definition MethodPatch := "PATCH".
Definition MethodOptions := "OPTIONS".
Definition MethodHead := "HEAD".

(** ** The trie node and the heap of nodes *)

(** A [*_route]: an index into the heap. *)
Abbreviation ptr := nat (only parsing).

(** The constants of the source: the keys of the dynamic and the wildcard
    child in [sub], and the catch-all method. *)
Definition dynamic : ascii := ":".
Definition wildcard : ascii := "*".
Definition anyone : string := "*".
Definition dynamic_key : string := String dynamic EmptyString.
Definition wildcard_key : string := String wildcard EmptyString.

(** [struct _route].  A nil [sub] map behaves as the empty one (reads miss
    and [Insert] allocates it before writing), so [sub] is a plain map;
    [hmap] and [named] are written without such a guard, so their nil state
    ([None]) is kept. *)
Record _route := mk_route {
  parent : option ptr;
  sub : gmap string ptr;
  hmap : option (gmap string HandlerFunc);
  named : option (gmap string ptr);
  pattern : string;
  placeholder : string;
  name : string;
  cc : list Middleware;
  hasDynamicChild : bool;
  hasWildcardChild : bool
}.

Abbreviation heap := (list _route).

Definition with_sub (f : gmap string ptr -> gmap string ptr) (r : _route) :=
  mk_route (parent r) (f (sub r)) (hmap r) (named r) (pattern r)
    (placeholder r) (name r) (cc r) (hasDynamicChild r) (hasWildcardChild r).

Definition with_hmap (m : option (gmap string HandlerFunc)) (r : _route) :=
  mk_route (parent r) (sub r) m (named r) (pattern r)
    (placeholder r) (name r) (cc r) (hasDynamicChild r) (hasWildcardChild r).

Definition with_named (m : option (gmap string ptr)) (r : _route) :=
  mk_route (parent r) (sub r) (hmap r) m (pattern r)
    (placeholder r) (name r) (cc r) (hasDynamicChild r) (hasWildcardChild r).

Definition with_placeholder (s : string) (r : _route) :=
  mk_route (parent r) (sub r) (hmap r) (named r) (pattern r)
    s (name r) (cc r) (hasDynamicChild r) (hasWildcardChild r).

Definition with_name (s : string) (r : _route) :=
  mk_route (parent r) (sub r) (hmap r) (named r) (pattern r)
    (placeholder r) s (cc r) (hasDynamicChild r) (hasWildcardChild r).

Definition with_cc (l : list Middleware) (r : _route) :=
  mk_route (parent r) (sub r) (hmap r) (named r) (pattern r)
    (placeholder r) (name r) l (hasDynamicChild r) (hasWildcardChild r).

Definition with_hasDynamicChild (b : bool) (r : _route) :=
  mk_route (parent r) (sub r) (hmap r) (named r) (pattern r)
    (placeholder r) (name r) (cc r) b (hasWildcardChild r).

Definition with_hasWildcardChild (b : bool) (r : _route) :=
  mk_route (parent r) (sub r) (hmap r) (named r) (pattern r)
    (placeholder r) (name r) (cc r) (hasDynamicChild r) b.

(** [createRootRoute]: a heap holding the root alone, at pointer 0. *)
Definition createRootRoute : heap :=
  [mk_route None ∅ (Some ∅) (Some ∅) "" "" "" [] false false].

Definition root : ptr := 0.

(** ** Route Builder *)

(** [s[1:]]. *)
Definition drop1 (s : string) : string :=
  match s with
  | String _ r => r
  | EmptyString => EmptyString
  end.

(** One round of the loop of [Insert]: follow the child keyed by [seg], or
    allocate it (at the end of the heap) and index it under [seg] and, for a
    marked segment, under the reserved key as well.  [None] is a nil
    dereference. *)
Definition Insert_seg (h : heap) (current : ptr) (seg : string)
    : option (heap * ptr) :=
  cur ← h !! current;
  match sub cur !! seg with
  | Some next => Some (h, next)
  | None =>
      let next := length h in
      let node := mk_route (Some current) ∅ None None seg seg "" []
                    false false in
      let '(cur1, node1) :=
        match seg with
        | String c _ =>
            if Ascii.eqb c dynamic then
              (with_sub <[dynamic_key := next]>
                 (with_hasDynamicChild true cur),
               with_placeholder (drop1 seg) node)
            else if Ascii.eqb c wildcard then
              (with_sub <[wildcard_key := next]>
                 (with_hasWildcardChild true cur),
               with_placeholder (drop1 seg) node)
            else (cur, node)
        | EmptyString => (cur, node)
        end in
      Some (<[current := with_sub <[seg := next]> cur1]> h ++ [node1], next)
  end.

(** The loop of [Insert] over the segments. *)
Fixpoint Insert_chunks (h : heap) (current : ptr) (chunks : list string)
    : option (heap * ptr) :=
  match chunks with
  | [] => Some (h, current)
  | seg :: rest =>
      '(h1, next) ← Insert_seg h current seg;
      Insert_chunks h1 next rest
  end.

(** The end of [Insert]: allocate [hmap] when nil and append the
    middlewares to the chain of the terminal node. *)
Definition Insert_finish (h : heap) (current : ptr) (mws : list Middleware)
    : option (heap * ptr) :=
  cur ← h !! current;
  let cur1 := with_hmap (Some (default ∅ (hmap cur))) cur in
  Some (<[current := with_cc (cc cur1 ++ mws) cur1]> h, current).

(** [(p *_route) Insert(route, cc...)]. *)
Definition Insert (h : heap) (p : ptr) (route : string)
    (mws : list Middleware) : option (heap * ptr) :=
  '(h1, current) ← Insert_chunks h p (Split (Clean route));
  Insert_finish h1 current mws.

(** [(p *_route) For(method, h)]; [None] is the panic of a write to a nil
    map (or a nil receiver). *)
Definition For (h : heap) (p : ptr) (method : string) (fn : HandlerFunc)
    : option heap :=
  node ← h !! p;
  m ← hmap node;
  Some (<[p := with_hmap (Some (<[method := Connect fn (cc node)]> m)) node]> h).

Definition Get (h : heap) (p : ptr) (fn : HandlerFunc) : option heap :=
  For h p MethodGet fn.

(** The registrations below connect the chain themselves and then call
    [For]; the node (and its chain) is read before [For] runs. *)
Definition connected (h : heap) (p : ptr) (fn : HandlerFunc)
    : option HandlerFunc :=
  node ← h !! p; Some (Connect fn (cc node)).

Definition Post (h : heap) (p : ptr) (fn : HandlerFunc) : option heap :=
  fn1 ← connected h p fn; For h p MethodPost fn1.

Definition Put (h : heap) (p : ptr) (fn : HandlerFunc) : option heap :=
  fn1 ← connected h p fn; For h p MethodPut fn1.

Definition Delete (h : heap) (p : ptr) (fn : HandlerFunc) : option heap :=
  fn1 ← connected h p fn; For h p MethodDelete fn1.

Definition Patch (h : heap) (p : ptr) (fn : HandlerFunc) : option heap :=
  fn1 ← connected h p fn; For h p MethodPatch fn1.

Definition Options (h : heap) (p : ptr) (fn : HandlerFunc) : option heap :=
  fn1 ← connected h p fn; For h p MethodOptions fn1.

Definition Head (h : heap) (p : ptr) (fn : HandlerFunc) : option heap :=
  fn1 ← connected h p fn; For h p MethodHead fn1.

Definition Any (h : heap) (p : ptr) (fn : HandlerFunc) : option heap :=
  fn1 ← connected h p fn; For h p wildcard_key fn1.

(** ** Path Matcher *)

(** What a call of [Search] ends with: a node, [nil], or a run-time panic
    (nil dereference, index out of range). *)
Inductive outcome :=
| Found (n : ptr)
| NoMatch
| Panic.

(** The two loop heads of [Search]: the [SEARCH] loop (line 74) and the
    walk over the ancestors (line 101). *)
Inductive point := AtSearch | AtClimb.

(** The local state of [Search] at a loop head. *)
Record frame := mkFrame {
  at_point : point;
  current : ptr;
  idx : Z;
  captured : Values.t
}.

(** [chunks[i]], which panics out of range. *)
Definition chunk_at (chunks : list string) (i : Z) : option string :=
  if (i <? 0)%Z then None else chunks !! Z.to_nat i.

(** [chunks[i:]], which panics out of range. *)
Definition chunks_from (chunks : list string) (i : Z) : option (list string) :=
  if (i <? 0)%Z || (Z.of_nat (length chunks) <? i)%Z then None
  else Some (drop (Z.to_nat i) chunks).

(** The body of the [SEARCH] loop up to the walk over the ancestors
    (lines 74-99): exact match, dynamic match, wildcard match. *)
Definition search_body (h : heap) (chunks : list string) (f : frame)
    : frame + outcome * Values.t :=
  let v := captured f in
  if (Z.of_nat (length chunks) <=? idx f)%Z then inr (Found (current f), v)
  else
    match chunk_at chunks (idx f), h !! current f with
    | Some seg, Some cur =>
        match sub cur !! seg with
        | Some next => inl (mkFrame AtSearch next (idx f + 1) v)
        | None =>
            let wild :=
              match (if hasWildcardChild cur then sub cur !! wildcard_key
                     else None) with
              | Some next =>
                  match h !! next, chunks_from chunks (idx f) with
                  | Some nx, Some tl =>
                      inr (Found next, Values.Add (placeholder nx) (Join tl) v)
                  | _, _ => inr (Panic, v)
                  end
              | None => inl (mkFrame AtClimb (current f) (idx f) v)
              end in
            match (if hasDynamicChild cur then sub cur !! dynamic_key
                   else None) with
            | Some next =>
                match h !! next with
                | Some nx =>
                    inl (mkFrame AtSearch next (idx f + 1)
                           (Values.Add (placeholder nx) seg v))
                | None => inr (Panic, v)
                end
            | None => wild
            end
        end
    | _, _ => inr (Panic, v)
    end.

(** One round of the walk over the ancestors (lines 101-126). *)
Definition climb_body (h : heap) (chunks : list string) (f : frame)
    : frame + outcome * Values.t :=
  let v := captured f in
  match h !! current f with
  | None => inr (Panic, v)
  | Some cur =>
      match parent cur with
      | None => inr (NoMatch, v)
      | Some p =>
          match h !! p with
          | None => inr (Panic, v)
          | Some par =>
              let up := inl (mkFrame AtClimb p (idx f - 1) v) in
              let wild :=
                if hasWildcardChild par
                   && negb (bool_decide (sub par !! wildcard_key
                                         = Some (current f)))
                then
                  match sub par !! wildcard_key with
                  | Some next =>
                      match h !! next, chunks_from chunks (idx f - 1) with
                      | Some nx, Some tl =>
                          inr (Found next,
                               Values.Add (placeholder nx) (Join tl) v)
                      | _, _ => inr (Panic, v)
                      end
                  | None => inr (Panic, v)
                  end
                else up in
              if hasDynamicChild par
                 && negb (bool_decide (sub par !! dynamic_key
                                       = Some (current f)))
              then
                match sub par !! dynamic_key, chunk_at chunks (idx f - 1) with
                | Some next, Some seg =>
                    match h !! next with
                    | Some nx =>
                        inl (mkFrame AtSearch next (idx f - 1 + 1)
                               (Values.Add (placeholder nx) seg v))
                    | None => inr (Panic, v)
                    end
                | _, _ => inr (Panic, v)
                end
              else wild
          end
      end
  end.

Definition step (h : heap) (chunks : list string) (f : frame)
    : frame + outcome * Values.t :=
  match at_point f with
  | AtSearch => search_body h chunks f
  | AtClimb => climb_body h chunks f
  end.

(** [fuel] rounds of the two loops; [None] when they are not enough. *)
Fixpoint run (fuel : nat) (h : heap) (chunks : list string) (f : frame)
    : option (outcome * Values.t) :=
  match fuel with
  | 0 => None
  | S fuel' =>
      match step h chunks f with
      | inl f' => run fuel' h chunks f'
      | inr r => Some r
      end
  end.

(** The frame reached after [k] rounds, if the search is still going. *)
Fixpoint steps (k : nat) (h : heap) (chunks : list string) (f : frame)
    : option frame :=
  match k with
  | 0 => Some f
  | S k' =>
      match step h chunks f with
      | inl f' => steps k' h chunks f'
      | inr _ => None
      end
  end.

Definition Search_chunks (fuel : nat) (h : heap) (p : ptr)
    (chunks : list string) (v : Values.t) : option (outcome * Values.t) :=
  run fuel h chunks (mkFrame AtSearch p 0 v).

(** Rounds that are enough below a node with [k] segments left, for a
    path of [len] segments. *)
Fixpoint budget (len k : nat) : nat :=
  match k with
  | 0 => len + 2
  | S k' => 2 * budget len k' + 2
  end.

(** The rounds given to a search over [chunks]. *)
Definition search_rounds (chunks : list string) : nat :=
  S (budget (length chunks) (length chunks)).

(** [(p *_route) Search(route, captured)]: the result and the capture set
    as the call leaves it.  The rounds given are enough from a root of a
    heap built by the registrations ([Search_returns] below); [None] is a
    search they do not end. *)
Definition Search (h : heap) (p : ptr) (route : string) (v : Values.t)
    : option (outcome * Values.t) :=
  let chunks := Split (Clean route) in
  Search_chunks (search_rounds chunks) h p chunks v.

(** ** Dispatcher *)

(** [(p *_route) Invoke(ctx)]: the context as the call leaves it and the
    boolean returned; [None] is a nil receiver. *)
Definition Invoke (h : heap) (p : ptr) (ctx : Context)
    : option (Context * bool) :=
  node ← h !! p;
  let m : gmap string HandlerFunc := default ∅ (hmap node) in
  let found : option HandlerFunc :=
    match m !! Method ctx with
    | Some fn => Some fn
    | None => m !! anyone
    end in
  match found with
  | None => Some (ctx, false)
  | Some fn =>
      let '(ctx1, err) := fn ctx in
      match err with
      | None => Some (ctx1, true)
      | Some (Structured v) => Some (ctx_Json v (ctx_Code (Code v) ctx1), true)
      | Some (Other description) =>
          Some (ctx_Json (NewError StatusInternalServerError description)
                  (ctx_Code StatusInternalServerError ctx1), true)
      end
  end.

(** ** Named-Route Registry *)

(** [for root.parent != nil { root = root.parent }]; the walk visits each
    node once unless the parents form a cycle, so [length h] rounds are
    enough whenever the Go loop ends. *)
Fixpoint root_walk (fuel : nat) (h : heap) (p : ptr) : option ptr :=
  match fuel with
  | 0 => None
  | S fuel' =>
      node ← h !! p;
      match parent node with
      | None => Some p
      | Some up => root_walk fuel' h up
      end
  end.

Definition root_of (h : heap) (p : ptr) : option ptr :=
  root_walk (length h) h p.

(** [(p *_route) Name(name)]. *)
Definition Name (h : heap) (p : ptr) (nm : string) : option heap :=
  node ← h !! p;
  let h1 := <[p := with_name nm node]> h in
  r ← root_of h1 p;
  rnode ← h1 !! r;
  m ← named rnode;
  Some (<[r := with_named (Some (<[nm := p]> m)) rnode]> h1).

(** The walk of [From] towards the root (lines 223-232): the segments in
    the order they are appended and the values left. *)
Fixpoint From_walk (fuel : nat) (h : heap) (t : option ptr) (v : Values.t)
    (seg : list string) : option (list string * Values.t) :=
  match t with
  | None => Some (seg, v)
  | Some tp =>
      node ← h !! tp;
      if bool_decide (pattern node = "") then Some (seg, v)
      else
        match fuel with
        | 0 => None
        | S fuel' =>
            if Values.Has (placeholder node) v
            then From_walk fuel' h (parent node)
                   (Values.Del (placeholder node) v)
                   (seg ++ [Values.Get (placeholder node) v])
            else From_walk fuel' h (parent node) v (seg ++ [pattern node])
        end
  end.

(** The buffer written by lines 234-238, from the last appended segment to
    the first. *)
Fixpoint From_bytes (seg_rev : list string) : string :=
  match seg_rev with
  | [] => ""
  | s :: more => "/" +:+ s +:+ From_bytes more
  end.

(** [(p *_route) From(name, v)].  The outer [option] is a panic or a walk
    that does not end; the result is [nil] ([None]) for an unknown name
    and also when nothing was written, since the bytes of an empty
    [bytes.Buffer] are the nil slice. *)
Definition From (h : heap) (p : ptr) (nm : string) (v : Values.t)
    : option (option string * Values.t) :=
  r ← root_of h p;
  rnode ← h !! r;
  match default ∅ (named rnode) !! nm with
  | None => Some (None, v)
  | Some t =>
      '(seg, v1) ← From_walk (length h) h (Some t) v [];
      Some (match seg with
            | [] => None
            | _ => Some (From_bytes (reverse seg))
            end, v1)
  end.

(** ** Auxiliary notions for the properties *)

(** The registration idiom [p.Insert(route, cc...).For(method, fn)]. *)
Definition register (h : heap) (route method : string) (fn : HandlerFunc)
    (mws : list Middleware) : option (heap * ptr) :=
  '(h1, n) ← Insert h root route mws;
  h2 ← For h1 n method fn;
  Some (h2, n).

(** Following the literal keys of [sub] from [current], with no write. *)
Fixpoint walk (h : heap) (current : ptr) (chunks : list string)
    : option ptr :=
  match chunks with
  | [] => Some current
  | seg :: rest =>
      cur ← h !! current;
      next ← sub cur !! seg;
      walk h next rest
  end.

(** The field [f] of the node at [p]. *)
Definition field {A} (f : _route -> A) (h : heap) (p : ptr) : option A :=
  f <$> h !! p.

(** The handler stored at [p] for [method]. *)
Definition handler_at (h : heap) (p : ptr) (method : string)
    : option HandlerFunc :=
  node ← h !! p; m ← hmap node; m !! method.

(** The terminal node after [Insert(route, mws...)] and [For(method, fn)]. *)
Definition registered (node : _route) (method : string) (fn : HandlerFunc)
    (mws : list Middleware) : _route :=
  let chain := cc node ++ mws in
  with_hmap (Some (<[method := Connect fn chain]> (default ∅ (hmap node))))
    (with_cc chain (with_hmap (Some (default ∅ (hmap node))) node)).

(** The walk over the ancestors of [n] finds nothing to retry: every
    ancestor's dynamic and wildcard child, when there is one, is the node
    the walk comes from; and the walk ends at a node without parent. *)
Inductive climbs_out (h : heap) : ptr -> Prop :=
| climbs_root n node :
    h !! n = Some node -> parent node = None -> climbs_out h n
| climbs_up n node p par :
    h !! n = Some node -> parent node = Some p -> h !! p = Some par ->
    (hasDynamicChild par = false \/ sub par !! dynamic_key = Some n) ->
    (hasWildcardChild par = false \/ sub par !! wildcard_key = Some n) ->
    climbs_out h p -> climbs_out h n.

(** Every child points back to the node that holds it: the shape of the
    [parent] fields in the heaps that [createRootRoute] and [Insert]
    build. *)
Definition tree (h : heap) : Prop :=
  forall (p : ptr) (node : _route) (key : string) (c : ptr),
    h !! p = Some node -> sub node !! key = Some c ->
    exists child, h !! c = Some child /\ parent child = Some p.

(** The walk over the ancestors leaves [n] for the dynamic child of its
    parent [p] (the test of lines 102-105). *)
Definition retries (h : heap) (p n : ptr) : bool :=
  match h !! p with
  | Some par =>
      hasDynamicChild par
      && negb (bool_decide (sub par !! dynamic_key = Some n))
  | None => false
  end.

(** The rounds still owed to the ancestors: [up] is the current node
    followed by its ancestors, and a node that the walk can leave for its
    dynamic sibling owes the rounds of that sibling's subtree. *)
Fixpoint owed (h : heap) (len : nat) (up : list ptr) : nat :=
  match up with
  | n :: rest =>
      match rest with
      | p :: _ =>
          (if retries h p n
           then S (budget len (len - length rest)) else 0)
          + owed h len rest
      | [] => 0
      end
  | [] => 0
  end.

(** [up] is a node followed by its ancestors up to a node without
    parent. *)
Fixpoint ancestry (h : heap) (up : list ptr) : Prop :=
  match up with
  | n :: rest =>
      match rest with
      | p :: _ =>
          (exists node, h !! n = Some node /\ parent node = Some p)
          /\ ancestry h rest
      | [] => exists node, h !! n = Some node /\ parent node = None
      end
  | [] => False
  end.

(** The rounds that are enough from a frame whose current node has the
    ancestry [up]. *)
Definition rounds (h : heap) (len : nat) (up : list ptr) (f : frame) : nat :=
  owed h len up
  + match at_point f with
    | AtSearch => budget len (len - length (tail up))
    | AtClimb => S (length (tail up))
    end.

(** The heaps that [createRootRoute], [Insert], [For] and [Name] build:
    the root has no parent, every child was allocated after the node that
    holds it and points back to it, a node flagged as having a dynamic or
    wildcard child holds one under the reserved key, and every node but
    the root has a parent, allocated before it. *)
Record trie (h : heap) : Prop := mkTrie {
  trie_root : exists r, h !! root = Some r /\ parent r = None;
  trie_child :
    forall (p : ptr) (node : _route) (key : string) (c : ptr),
      h !! p = Some node -> sub node !! key = Some c ->
      p < c /\ exists child, h !! c = Some child /\ parent child = Some p;
  trie_dynamic :
    forall (p : ptr) (node : _route),
      h !! p = Some node -> hasDynamicChild node = true ->
      is_Some (sub node !! dynamic_key);
  trie_wildcard :
    forall (p : ptr) (node : _route),
      h !! p = Some node -> hasWildcardChild node = true ->
      is_Some (sub node !! wildcard_key);
  trie_parent :
    forall (n : ptr) (node : _route) (p : ptr),
      h !! n = Some node -> parent node = Some p -> p < n;
  trie_orphan :
    forall (n : ptr) (node : _route),
      h !! n = Some node -> parent node = None -> n = root
}.

(** A frame in step with the ancestry [up] of its current node. *)
Definition in_step (h : heap) (len : nat) (up : list ptr) (f : frame) : Prop :=
  ancestry h up /\ head up = Some (current f)
  /\ idx f = Z.of_nat (length (tail up)) /\ length (tail up) <= len.

(** A handler that does nothing and a middleware that writes a value
    before it calls the next handler, for the examples. *)
Definition noop : HandlerFunc := fun ctx => (ctx, None).

Definition announce (tag : string) : Middleware :=
  fun next ctx => next (ctx_Json (NewError 0 tag) ctx).

(** What the handler stored under [key] by the registration [reg] does on
    [ctx]. *)
Definition stored_by (reg : heap -> ptr -> HandlerFunc -> option heap)
    (key : string) (h : heap) (p : ptr) (fn : HandlerFunc) (ctx : Context)
    : option (Context * option error) :=
  h' ← reg h p fn; g ← handler_at h' p key; Some (g ctx).

(** The heaps of the examples, built by the registrations themselves. *)
Definition heap_of (regs : list (string * list Middleware)) : heap :=
  foldl (fun h r =>
           from_option fst h (register h r.1 MethodGet noop r.2))
    createRootRoute regs.

Definition users_heap : heap := heap_of [("/users/me", []); ("/users/:id", [])].

Definition files_heap : heap := heap_of [("/files/*rest", [])].

Definition profile_heap : heap :=
  default [] (Name (heap_of [("/users/:id", [])]) 3 "profile").

(** ** Further notions: routes that stay, labels, captures *)

(** A segment that is not one of the two reserved keys of [sub]. *)
Definition plain (seg : string) : Prop :=
  seg <> dynamic_key /\ seg <> wildcard_key.

(** The first byte of a pattern is the marker [c]. *)
Definition marked (c : ascii) (pat : string) : Prop :=
  exists rest, pat = String c rest.

(** The placeholder that [Insert] gives a node of pattern [pat] (lines
    149-162). *)
Definition placeholder_of (pat : string) : string :=
  match pat with
  | String c rest =>
      if Ascii.eqb c dynamic || Ascii.eqb c wildcard then rest else pat
  | EmptyString => pat
  end.

(** How the nodes are labelled in the heaps that the registrations build:
    a child sits under its own pattern, or under the reserved key of its
    marker, and its placeholder is the one [Insert] computes from the
    pattern. *)
Record labelled (h : heap) : Prop := mkLabelled {
  labelled_key :
    forall (p : ptr) (node : _route) (key : string) (c : ptr) (child : _route),
      h !! p = Some node -> sub node !! key = Some c -> h !! c = Some child ->
      pattern child = key
      \/ (key = dynamic_key /\ marked dynamic (pattern child))
      \/ (key = wildcard_key /\ marked wildcard (pattern child));
  labelled_placeholder :
    forall (p : ptr) (node : _route),
      h !! p = Some node -> placeholder node = placeholder_of (pattern node)
}.

(** The root holds a registry of names. *)
Definition named_root (h : heap) : Prop :=
  exists r m, h !! root = Some r /\ named r = Some m.

(** A run of registrations [p.Insert(route, cc...).For(method, fn)]. *)
Fixpoint register_all (h : heap)
    (regs : list (string * string * HandlerFunc * list Middleware))
    : option heap :=
  match regs with
  | [] => Some h
  | (route, method, fn, mws) :: more =>
      '(h1, _) ← register h route method fn mws;
      register_all h1 more
  end.

(** Nothing under a plain key of [h] is lost or replaced in [h']. *)
Definition keeps (h h' : heap) : Prop :=
  forall (q : ptr) (node : _route) (key : string) (c : ptr),
    h !! q = Some node -> sub node !! key = Some c -> plain key ->
    exists node', h' !! q = Some node' /\ sub node' !! key = Some c.

(** The fields of a node that [Insert] leaves alone on the way. *)
Definition same_fields (a b : _route) : Prop :=
  parent b = parent a /\ pattern b = pattern a
  /\ placeholder b = placeholder a /\ name b = name a /\ named b = named a
  /\ hmap b = hmap a /\ cc b = cc a.

(** The heaps that the registrations build from [createRootRoute]. *)
Definition built (h : heap) : Prop :=
  trie h /\ labelled h /\ named_root h.

(** The pattern [pat] of a node that the search passed on the segment
    [seg]: the segment itself, a dynamic pattern, or a wildcard pattern
    passed on the segment ["*"]. *)
Definition seg_ok (pat seg : string) : Prop :=
  pat = seg \/ marked dynamic pat
  \/ (marked wildcard pat /\ seg = wildcard_key).

(** The patterns from below the root down to the first node of [up] (a
    node followed by its ancestors). *)
Fixpoint path_patterns (h : heap) (up : list ptr) : list string :=
  match up with
  | n :: rest =>
      match rest with
      | _ :: _ => path_patterns h rest ++ [from_option pattern "" (h !! n)]
      | [] => []
      end
  | [] => []
  end.

(** The segments [chunks] match the patterns [pats] of a route: segment
    by segment, or up to a last wildcard pattern that takes the remaining
    segments, at least one. *)
Definition matched_by (pats chunks : list string) : Prop :=
  Forall2 seg_ok pats chunks
  \/ exists pre pw,
       pats = pre ++ [pw] /\ marked wildcard pw
       /\ length pre < length chunks
       /\ Forall2 seg_ok pre (take (length pre) chunks).

(** The segments consumed so far fit the patterns down to the current
    node. *)
Definition fits (h : heap) (chunks : list string) (up : list ptr) : Prop :=
  Forall2 seg_ok (path_patterns h up) (take (length (tail up)) chunks).

(** A value that the search can record for the path [chunks]: one of its
    segments, or its segments from some index on, joined. *)
Definition of_path (chunks : list string) (x : string) : Prop :=
  exists i : nat, chunks !! i = Some x \/ x = Join (drop i chunks).

(** The capture set [v'] is [v] with values of the path appended: no key
    is lost, and under each key the earlier values come first, in their
    order. *)
Definition grown (chunks : list string) (v v' : Values.t) : Prop :=
  forall key,
    (is_Some (v !! key) -> is_Some (v' !! key))
    /\ exists more,
         default [] (v' !! key) = default [] (v !! key) ++ more
         /\ Forall (of_path chunks) more.

(** What [Invoke] does with the handler it found (lines 187-198). *)
Definition answer (fn : HandlerFunc) (ctx : Context) : Context * bool :=
  let '(ctx1, err) := fn ctx in
  match err with
  | None => (ctx1, true)
  | Some (Structured v) => (ctx_Json v (ctx_Code (Code v) ctx1), true)
  | Some (Other description) =>
      (ctx_Json (NewError StatusInternalServerError description)
         (ctx_Code StatusInternalServerError ctx1), true)
  end.

(** The node that the root's registry holds for a name. *)
Definition lookup_name (h : heap) (nm : string) : option ptr :=
  r ← h !! root; m ← named r; m !! nm.

(** ** The CORS middleware *)

(** The operations of the [Context] interface that [Cors] calls.  The
    interface is not in the sources, so the operations are kept abstract:
    [Header_Set k v] is [ctx.Header().Set(k, v)], [Is m] is [ctx.Is(m)]
    and [WriteHeader c] is [ctx.WriteHeader(c)], each acting on the state
    [C] behind the context. *)
Class Responder (C : Type) := {
  Header_Set : string -> string -> C -> C;
  Is : string -> C -> bool;
  WriteHeader : Z -> C -> C
}.

(** [func(ctx Context) error] over such a state. *)
Definition Handler (C : Type) : Type := C -> C * option error.

Definition StatusNoContent : Z := 204.

(** [Cors(next HandlerFunc) HandlerFunc]. *)
Definition Cors {C : Type} `{Responder C} (next : Handler C) : Handler C :=
  fun ctx =>
    let ctx := Header_Set "Access-Control-Allow-Origin" "*" ctx in
    let ctx := Header_Set "Access-Control-Allow-Credentials" "true" ctx in
    if Is MethodOptions ctx then
      let ctx :=
        Header_Set "Access-Control-Methods" "POST, PUT, PATCH, DELETE" ctx in
      let ctx := Header_Set "Access-Control-Allow-Headers" "*" ctx in
      let ctx := Header_Set "Access-Control-Max-Age" "86400" ctx in
      (WriteHeader StatusNoContent ctx, None)
    else next ctx.

(** An implementation of the operations for the examples: the method of
    the request, a header map written as [http.Header.Set] writes it (the
    key is replaced by the one value), and the status codes written so
    far. *)
Record exchange := mkExchange {
  ex_method : string;
  ex_header : gmap string (list string);
  ex_codes : list Z
}.

#[export] Instance exchange_Responder : Responder exchange := {
  Header_Set k v e :=
    mkExchange (ex_method e) (<[k := [v]]> (ex_header e)) (ex_codes e);
  Is m e := bool_decide (ex_method e = m);
  WriteHeader c e :=
    mkExchange (ex_method e) (ex_header e) (ex_codes e ++ [c])
}.

(** ** The server mux *)

Module Ezy.

(** The [Route] type of package [ezy] is not in the sources; the mux
    reaches it through [sm.root.Insert(path, method, h)] only, kept
    abstract here.  [None] is a panic of the call. *)
Class Router (R H : Type) := {
  Route_Insert : string -> string -> H -> R -> option R
}.

Definition customANY : string := "ANY".

(** [struct ServerMux], without the [context.Context] that only
    [ServeHTTP] reads.  [root] is the state of the tree behind the
    pointer. *)
Record ServerMux (R H : Type) := mkServerMux {
  notfound : H;
  root : R;
  prefix : string
}.

Arguments mkServerMux {R H} _ _ _.
Arguments notfound {R H} _.
Arguments root {R H} _.
Arguments prefix {R H} _.

Definition with_root {R H : Type} (r : R) (sm : ServerMux R H)
    : ServerMux R H :=
  mkServerMux (notfound sm) r (prefix sm).

Definition with_prefix {R H : Type} (p : string) (sm : ServerMux R H)
    : ServerMux R H :=
  mkServerMux (notfound sm) (root sm) p.

(** The body shared by the eight registration methods (lines 59-89):
    [sm.root.Insert(sm.prefix+path, method, h)]. *)
Definition insert_as {R H : Type} `{Router R H} (method path : string)
    (h : H) (sm : ServerMux R H) : option (ServerMux R H) :=
  r ← Route_Insert (prefix sm +:+ path) method h (root sm);
  Some (with_root r sm).

Definition Get {R H : Type} `{Router R H} := insert_as (R:=R) (H:=H) MethodGet.
Definition Post {R H : Type} `{Router R H} := insert_as (R:=R) (H:=H) MethodPost.
Definition Put {R H : Type} `{Router R H} := insert_as (R:=R) (H:=H) MethodPut.
Definition Delete {R H : Type} `{Router R H} :=
  insert_as (R:=R) (H:=H) MethodDelete.
Definition Patch {R H : Type} `{Router R H} :=
  insert_as (R:=R) (H:=H) MethodPatch.
Definition Options {R H : Type} `{Router R H} :=
  insert_as (R:=R) (H:=H) MethodOptions.
Definition Head {R H : Type} `{Router R H} := insert_as (R:=R) (H:=H) MethodHead.
Definition Any {R H : Type} `{Router R H} := insert_as (R:=R) (H:=H) customANY.

(** [(sm *ServerMux) Group(prefix, fn)]: [fn] acts on the mux behind the
    pointer; the prefix is put back after it returns. *)
Definition Group {R H : Type} (p : string)
    (fn : ServerMux R H -> option (ServerMux R H)) (sm : ServerMux R H)
    : option (ServerMux R H) :=
  let prev := prefix sm in
  sm1 ← fn (with_prefix (prefix sm +:+ p) sm);
  Some (with_prefix prev sm1).

(** A tree that only records the calls of [Insert], the last one first,
    for the examples. *)
#[global] Instance log_Router : Router (list (string * string)) nat := {
  Route_Insert path method _ log := Some ((path, method) :: log)
}.

End Ezy.

Example Clean_examples :
  Clean "/a/b/d" = "/a/b/d" /\ Clean "a//b/./c/.." = "a/b" /\
  Clean "/../a/" = "/a" /\ Clean "" = "." /\ Clean "../../x" = "../../x" /\
  Clean "/" = "/" /\ Clean "a/../.." = ".." /\ Clean "/a/b/../../.." = "/".
Proof. vm_compute. repeat split. Qed.

Example Split_examples :
  Split "/a/b" = [""; "a"; "b"] /\ Split "" = [""] /\ Split "/" = [""; ""].
Proof. vm_compute. repeat split. Qed.

(** ** The rounds of [path.Clean] *)

Lemma element_length rest :
  length (element rest).2 <= length rest.
Proof.
  induction rest as [|c more IH]; simpl; [lia|].
  destruct (Ascii.eqb c "/"); simpl; [lia|].
  destruct (element more) as [e after]. simpl in *. lia.
Qed.

(** The main loop of [Clean] does not depend on the rounds it is given
    beyond the bytes left to read. *)
Lemma loop_rounds fuel1 :
  forall fuel2 rooted rest out dotdot,
    length rest <= fuel1 -> length rest <= fuel2 ->
    loop fuel1 rooted rest out dotdot = loop fuel2 rooted rest out dotdot.
Proof.
  induction fuel1 as [|fuel1 IH]; intros fuel2 rooted rest out dotdot H1 H2.
  - destruct rest; [|simpl in H1; lia]. destruct fuel2; reflexivity.
  - destruct fuel2 as [|fuel2].
    { destruct rest; [reflexivity|simpl in H2; lia]. }
    destruct rest as [|c r1]; [reflexivity|]. simpl in H1, H2.
    cbn [loop].
    destruct (Ascii.eqb c "/") eqn:Hslash; [apply IH; lia|].
    destruct (Ascii.eqb c "." && ends r1); [apply IH; lia|].
    destruct (Ascii.eqb c "." &&
              match r1 with
              | d :: r2 => Ascii.eqb d "." && ends r2
              | [] => false
              end).
    + assert (length (tail r1) <= length r1) by (destruct r1; simpl; lia).
      destruct (dotdot <? length out)%nat; [apply IH; lia|].
      destruct (negb rooted); apply IH; lia.
    + pose proof (element_length r1) as He.
      cbn [element]. rewrite Hslash.
      destruct (element r1) as [e after]. simpl in He.
      apply IH; lia.
Qed.

(** ** Running the search loops *)

Lemma run_extra fuel extra h chunks f r :
  run fuel h chunks f = Some r -> run (fuel + extra) h chunks f = Some r.
Proof.
  revert f. induction fuel as [|fuel IH]; intros f; simpl; [discriminate|].
  destruct (step h chunks f); auto.
Qed.

Lemma run_steps k fuel h chunks f f' :
  steps k h chunks f = Some f' ->
  run (k + fuel) h chunks f = run fuel h chunks f'.
Proof.
  revert f. induction k as [|k IH]; intros f; simpl.
  - intros [= ->]. reflexivity.
  - destruct (step h chunks f); [apply IH | discriminate].
Qed.

Lemma steps_add k j h chunks f f' f'' :
  steps k h chunks f = Some f' -> steps j h chunks f' = Some f'' ->
  steps (k + j) h chunks f = Some f''.
Proof.
  revert f. induction k as [|k IH]; intros f; simpl.
  - intros [= ->]. auto.
  - destruct (step h chunks f); [apply IH | discriminate].
Qed.

Lemma Search_chunks_extra fuel extra h p chunks v r :
  Search_chunks fuel h p chunks v = Some r ->
  Search_chunks (fuel + extra) h p chunks v = Some r.
Proof. apply run_extra. Qed.


(** ** The heaps built by the registrations *)

Lemma trie_tree h : trie h -> tree h.
Proof.
  intros Ht p node key c Hp Hk. exact (proj2 (trie_child _ Ht _ _ _ _ Hp Hk)).
Qed.

Lemma trie_createRootRoute : trie createRootRoute.
Proof.
  split.
  - eexists. split; reflexivity.
  - intros [|p] node key c Hn Hs; simpl in Hn.
    + injection Hn as <-. simpl in Hs. rewrite lookup_empty in Hs. discriminate.
    + rewrite lookup_nil in Hn. discriminate.
  - intros [|p] node Hn Hf; simpl in Hn.
    + injection Hn as <-. discriminate.
    + rewrite lookup_nil in Hn. discriminate.
  - intros [|p] node Hn Hf; simpl in Hn.
    + injection Hn as <-. discriminate.
    + rewrite lookup_nil in Hn. discriminate.
  - intros [|n] node p Hn Hp; simpl in Hn.
    + injection Hn as <-. discriminate.
    + rewrite lookup_nil in Hn. discriminate.
  - intros [|n] node Hn Hp; simpl in Hn; [reflexivity|].
    rewrite lookup_nil in Hn. discriminate.
Qed.

(** Replacing a node by one with the same children, parent and flags
    (what [For], [Name] and the end of [Insert] do). *)
Lemma trie_insert h n node node' :
  trie h -> h !! n = Some node ->
  sub node' = sub node -> parent node' = parent node ->
  hasDynamicChild node' = hasDynamicChild node ->
  hasWildcardChild node' = hasWildcardChild node ->
  trie (<[n := node']> h).
Proof.
  intros [(r & Hr & Hrp) Hchild Hdyn Hwild Hpar Horph] Hn Hs Hp Hd Hw.
  pose proof (lookup_lt_Some _ _ _ Hn) as Hlt.
  assert (forall q x, <[n := node']> h !! q = Some x ->
            exists y, h !! q = Some y /\ sub x = sub y /\ parent x = parent y
                      /\ hasDynamicChild x = hasDynamicChild y
                      /\ hasWildcardChild x = hasWildcardChild y) as Hold.
  { intros q x Hq. destruct (decide (q = n)) as [->|Hne].
    - rewrite list_lookup_insert_eq in Hq by exact Hlt. injection Hq as <-.
      eauto 10.
    - rewrite list_lookup_insert_ne in Hq by congruence. eauto 10. }
  assert (forall q y, h !! q = Some y ->
            exists x, <[n := node']> h !! q = Some x
                      /\ parent x = parent y) as Hnew.
  { intros q y Hq. destruct (decide (q = n)) as [->|Hne].
    - rewrite list_lookup_insert_eq by exact Hlt. eexists. split; [reflexivity|].
      congruence.
    - rewrite list_lookup_insert_ne by congruence. eauto. }
  split.
  - destruct (Hnew _ _ Hr) as (x & Hx & Hxp). exists x. split; congruence.
  - intros p x key c Hx Hk.
    destruct (Hold _ _ Hx) as (y & Hy & Hsy & _). rewrite Hsy in Hk.
    destruct (Hchild _ _ _ _ Hy Hk) as (Hpc & child & Hc & Hcp).
    split; [exact Hpc|].
    destruct (Hnew _ _ Hc) as (x' & Hx' & Hxp'). exists x'. split; congruence.
  - intros p x Hx Hf. destruct (Hold _ _ Hx) as (y & Hy & Hsy & _ & Hdy & _).
    rewrite Hsy. apply (Hdyn _ _ Hy). congruence.
  - intros p x Hx Hf. destruct (Hold _ _ Hx) as (y & Hy & Hsy & _ & _ & Hwy).
    rewrite Hsy. apply (Hwild _ _ Hy). congruence.
  - intros q x p Hx Hxp. destruct (Hold _ _ Hx) as (y & Hy & _ & Hpy & _).
    apply (Hpar _ _ _ Hy). congruence.
  - intros q x Hx Hxp. destruct (Hold _ _ Hx) as (y & Hy & _ & Hpy & _).
    apply (Horph _ _ Hy). congruence.
Qed.

(** What [Insert_seg] writes when it allocates. *)
Lemma Insert_seg_alloc h current seg cur :
  h !! current = Some cur ->
  sub cur !! seg = None ->
  exists cur' node',
    Insert_seg h current seg = Some (<[current := cur']> h ++ [node'], length h)
    /\ (sub node' = ∅ /\ parent node' = Some current
        /\ hasDynamicChild node' = false /\ hasWildcardChild node' = false)
    /\ parent cur' = parent cur
    /\ sub cur' !! seg = Some (length h)
    /\ (forall key c, sub cur' !! key = Some c ->
                      c = length h \/ sub cur !! key = Some c)
    /\ (hasDynamicChild cur' = true ->
        hasDynamicChild cur = true \/ is_Some (sub cur' !! dynamic_key))
    /\ (hasWildcardChild cur' = true ->
        hasWildcardChild cur = true \/ is_Some (sub cur' !! wildcard_key))
    /\ (forall key, is_Some (sub cur !! key) -> is_Some (sub cur' !! key)).
Proof.
  intros Hn Hs. unfold Insert_seg. rewrite Hn. cbn [mbind option_bind].
  rewrite Hs.
  assert (forall (m : gmap string nat) k key c,
             <[k := length h]> m !! key = Some c ->
             c = length h \/ m !! key = Some c) as Hins.
  { intros m k key c. rewrite lookup_insert.
    case_decide; [left|right]; congruence. }
  assert (forall (m : gmap string nat) k (x : nat) key,
             is_Some (m !! key) -> is_Some (<[k := x]> m !! key)) as Hmono.
  { intros m k x key Hk. rewrite lookup_insert. case_decide; eauto. }
  destruct seg as [|ch rest].
  - eexists _, _. split; [reflexivity|]. split; [auto|].
    split; [reflexivity|]. split; [apply lookup_insert_eq|].
    split; [intros key c; apply Hins|]. split; [auto|]. split; [auto|].
    intros key. apply Hmono.
  - destruct (Ascii.eqb ch dynamic); [|destruct (Ascii.eqb ch wildcard)].
    all: eexists _, _; (split; [reflexivity|]); (split; [auto|]);
      (split; [reflexivity|]); (split; [apply lookup_insert_eq|]).
    all: split;
      [intros key c Hk; cbn [sub with_sub] in Hk;
       repeat (apply Hins in Hk; destruct Hk as [Hk|Hk]; [left; exact Hk|]);
       right; exact Hk|].
    all: cbn [sub with_sub hasDynamicChild hasWildcardChild
              with_hasDynamicChild with_hasWildcardChild].
    all: split; [intros Hf; first [left; exact Hf | right; apply Hmono;
                   rewrite lookup_insert_eq; eauto]|].
    all: split; [intros Hf; first [left; exact Hf | right; apply Hmono;
                   rewrite lookup_insert_eq; eauto]|].
    all: intros key Hk; repeat apply Hmono; exact Hk.
Qed.

Lemma Insert_seg_spec h current seg h' next :
  trie h ->
  Insert_seg h current seg = Some (h', next) ->
  trie h' /\ current < next /\ length h <= length h' /\
  (forall p, p < current -> h' !! p = h !! p) /\
  exists node', h' !! current = Some node' /\ sub node' !! seg = Some next.
Proof.
  intros Ht Hins.
  pose proof Ht as [(r & Hr & Hrp) Hchild Hdyn Hwild Hpar Horph].
  destruct (h !! current) as [cur|] eqn:Hn;
    [|unfold Insert_seg in Hins; rewrite Hn in Hins; discriminate].
  pose proof (lookup_lt_Some _ _ _ Hn) as Hlt.
  destruct (sub cur !! seg) as [c|] eqn:Hs.
  { unfold Insert_seg in Hins. rewrite Hn in Hins. simpl in Hins.
    rewrite Hs in Hins. injection Hins as <- <-.
    destruct (Hchild _ _ _ _ Hn Hs) as [Hc _].
    split; [exact Ht|]. repeat split; try lia; eauto. }
  destruct (Insert_seg_alloc _ _ _ _ Hn Hs)
    as (cur' & node' & Heq & (Hempty & Hnp & Hnd & Hnw) & Hcp & Hseg & Hsub
        & Hfd & Hfw & Hmono).
  rewrite Heq in Hins. injection Hins as <- <-.
  set (h' := <[current := cur']> h ++ [node']).
  assert (h' !! current = Some cur') as Hcur'.
  { unfold h'. rewrite lookup_app_l by (rewrite length_insert; lia).
    apply list_lookup_insert_eq. exact Hlt. }
  assert (h' !! length h = Some node') as Hnew.
  { unfold h'. rewrite lookup_app_r by (rewrite length_insert; lia).
    rewrite length_insert, Nat.sub_diag. reflexivity. }
  assert (forall q, q < length h -> q <> current -> h' !! q = h !! q) as Hsame.
  { intros q Hq Hne. unfold h'.
    rewrite lookup_app_l by (rewrite length_insert; lia).
    apply list_lookup_insert_ne. congruence. }
  assert (forall q x, h' !! q = Some x ->
            (q = current /\ x = cur') \/ (q = length h /\ x = node')
            \/ (q <> current /\ h !! q = Some x)) as Hlook.
  { intros q x Hq. destruct (decide (q = current)) as [->|Hne].
    - left. split; [reflexivity|]. congruence.
    - destruct (decide (q < length h)) as [Hq1|Hq1].
      + right. right. rewrite Hsame in Hq by assumption. auto.
      + right. left. unfold h' in Hq.
        rewrite lookup_app_r in Hq by (rewrite length_insert; lia).
        rewrite length_insert in Hq.
        destruct (q - length h) as [|d] eqn:Hd; simpl in Hq.
        * split; [lia|congruence].
        * rewrite lookup_nil in Hq. discriminate. }
  assert (forall q y, h !! q = Some y ->
            exists x, h' !! q = Some x /\ parent x = parent y) as Hkeep.
  { intros q y Hq. destruct (decide (q = current)) as [->|Hne].
    - exists cur'. split; [exact Hcur'|]. congruence.
    - exists y. split; [|reflexivity]. rewrite Hsame; [exact Hq| |exact Hne].
      eapply lookup_lt_Some; eauto. }
  split; [|split; [lia|split; [|split]]].
  - split.
    + destruct (Hkeep _ _ Hr) as (x & Hx & Hxp). exists x. split; congruence.
    + intros p x key c Hx Hk.
      destruct (Hlook _ _ Hx) as [[-> ->] | [[-> ->] | [Hne Hold]]].
      * destruct (Hsub _ _ Hk) as [-> | Hk'].
        -- split; [lia|]. exists node'. auto.
        -- destruct (Hchild _ _ _ _ Hn Hk') as (Hpc & child & Hc & Hcpar).
           split; [exact Hpc|].
           destruct (Hkeep _ _ Hc) as (x' & Hx' & Hxp'). exists x'.
           split; congruence.
      * rewrite Hempty, lookup_empty in Hk. discriminate.
      * destruct (Hchild _ _ _ _ Hold Hk) as (Hpc & child & Hc & Hcpar).
        split; [exact Hpc|].
        destruct (Hkeep _ _ Hc) as (x' & Hx' & Hxp'). exists x'.
        split; congruence.
    + intros p x Hx Hf.
      destruct (Hlook _ _ Hx) as [[-> ->] | [[-> ->] | [Hne Hold]]].
      * destruct (Hfd Hf) as [Hf'|Hf']; [|exact Hf'].
        apply Hmono. exact (Hdyn _ _ Hn Hf').
      * congruence.
      * exact (Hdyn _ _ Hold Hf).
    + intros p x Hx Hf.
      destruct (Hlook _ _ Hx) as [[-> ->] | [[-> ->] | [Hne Hold]]].
      * destruct (Hfw Hf) as [Hf'|Hf']; [|exact Hf'].
        apply Hmono. exact (Hwild _ _ Hn Hf').
      * congruence.
      * exact (Hwild _ _ Hold Hf).
    + intros q x p Hx Hxp.
      destruct (Hlook _ _ Hx) as [[-> ->] | [[-> ->] | [Hne Hold]]].
      * apply (Hpar _ _ _ Hn). congruence.
      * rewrite Hnp in Hxp. injection Hxp as <-. exact Hlt.
      * exact (Hpar _ _ _ Hold Hxp).
    + intros q x Hx Hxp.
      destruct (Hlook _ _ Hx) as [[-> ->] | [[-> ->] | [Hne Hold]]].
      * apply (Horph _ _ Hn). congruence.
      * congruence.
      * exact (Horph _ _ Hold Hxp).
  - unfold h'. rewrite length_app, length_insert. lia.
  - intros p Hp. apply Hsame; lia.
  - exists cur'. split; [exact Hcur'|exact Hseg].
Qed.

Lemma Insert_seg_total h current seg :
  is_Some (h !! current) -> is_Some (Insert_seg h current seg).
Proof.
  intros [cur Hn]. destruct (sub cur !! seg) as [c|] eqn:Hs.
  - unfold Insert_seg. rewrite Hn. simpl. rewrite Hs. eauto.
  - destruct (Insert_seg_alloc _ _ _ _ Hn Hs) as (? & ? & -> & _). eauto.
Qed.

Lemma Insert_chunks_spec chunks :
  forall h current h1 n,
    trie h ->
    Insert_chunks h current chunks = Some (h1, n) ->
    trie h1 /\ current <= n /\ length h <= length h1 /\
    (forall p, p < current -> h1 !! p = h !! p) /\
    walk h1 current chunks = Some n.
Proof.
  induction chunks as [|seg rest IH]; intros h current h1 n Ht Hins.
  - injection Hins as <- <-. split; [exact Ht|]. simpl. repeat split; auto.
  - simpl in Hins.
    destruct (Insert_seg h current seg) as [[h' next]|] eqn:Hseg;
      [|discriminate].
    simpl in Hins.
    destruct (Insert_seg_spec _ _ _ _ _ Ht Hseg)
      as (Ht' & Hlt & Hlen & Hbelow & node' & Hn' & Hs').
    destruct (IH _ _ _ _ Ht' Hins) as (Ht1 & Hle & Hlen1 & Hbelow1 & Hwalk).
    split; [exact Ht1|]. split; [lia|]. split; [lia|]. split.
    + intros p Hp. rewrite Hbelow1 by lia. apply Hbelow. exact Hp.
    + simpl. rewrite Hbelow1 by lia. rewrite Hn'. simpl. rewrite Hs'. simpl.
      exact Hwalk.
Qed.

Lemma Insert_chunks_total chunks :
  forall h current,
    trie h -> is_Some (h !! current) ->
    exists h1 n, Insert_chunks h current chunks = Some (h1, n)
                 /\ is_Some (h1 !! n).
Proof.
  induction chunks as [|seg rest IH]; intros h current Ht Hn.
  - exists h, current. split; [reflexivity|exact Hn].
  - destruct (Insert_seg_total h current seg Hn) as [[h' next] Hseg].
    destruct (Insert_seg_spec _ _ _ _ _ Ht Hseg)
      as (Ht' & _ & _ & _ & node' & Hn' & Hs').
    destruct (IH h' next Ht') as (h1 & n & Hins & Hn1).
    { destruct (trie_child _ Ht' _ _ _ _ Hn' Hs') as (_ & child & Hc & _).
      eauto. }
    exists h1, n. split; [|exact Hn1]. simpl. rewrite Hseg. exact Hins.
Qed.

Lemma walk_Insert_chunks chunks :
  forall h current n,
    walk h current chunks = Some n ->
    Insert_chunks h current chunks = Some (h, n).
Proof.
  induction chunks as [|seg rest IH]; intros h current n Hw; simpl in *.
  - congruence.
  - destruct (h !! current) as [cur|] eqn:Hn; [|discriminate]. simpl in Hw.
    destruct (sub cur !! seg) as [next|] eqn:Hs; [|discriminate]. simpl in Hw.
    unfold Insert_seg. rewrite Hn. simpl. rewrite Hs. simpl. apply IH, Hw.
Qed.

Lemma walk_same_sub chunks :
  forall h h' current,
    (forall p, field sub h' p = field sub h p) ->
    walk h' current chunks = walk h current chunks.
Proof.
  induction chunks as [|seg rest IH]; intros h h' current Hsub; simpl.
  - reflexivity.
  - pose proof (Hsub current) as Hc. unfold field in Hc.
    destruct (h' !! current) as [c'|], (h !! current) as [c|];
      simpl in *; try discriminate; [|reflexivity].
    injection Hc as ->. destruct (sub c !! seg); simpl; [|reflexivity].
    apply IH, Hsub.
Qed.

Lemma field_sub_insert h n node node' :
  h !! n = Some node -> sub node' = sub node ->
  forall p, field sub (<[n := node']> h) p = field sub h p.
Proof.
  intros Hn Hs p. unfold field. destruct (decide (p = n)) as [->|Hne].
  - rewrite list_lookup_insert_eq by (eapply lookup_lt_Some; eauto).
    rewrite Hn. simpl. congruence.
  - rewrite list_lookup_insert_ne by congruence. reflexivity.
Qed.


Lemma For_trie h p method fn h' :
  trie h -> For h p method fn = Some h' -> trie h'.
Proof.
  intros Ht. unfold For.
  destruct (h !! p) as [node|] eqn:Hn; [|discriminate]. simpl.
  destruct (hmap node); [|discriminate]. simpl. intros [= <-].
  apply (trie_insert _ _ node); auto.
Qed.

Lemma Insert_trie h route mws h' n :
  trie h -> Insert h root route mws = Some (h', n) -> trie h'.
Proof.
  intros Ht. unfold Insert.
  destruct (Insert_chunks h root (Split (Clean route))) as [[h1 t]|] eqn:Hins;
    [|discriminate].
  simpl. destruct (Insert_chunks_spec _ _ _ _ _ Ht Hins) as (Ht1 & _).
  unfold Insert_finish.
  destruct (h1 !! t) as [node|] eqn:Hn; [|discriminate]. simpl.
  intros [= <- <-]. apply (trie_insert _ _ node); auto.
Qed.

Lemma register_trie h route method fn mws h' n :
  trie h -> register h route method fn mws = Some (h', n) -> trie h'.
Proof.
  intros Ht. unfold register.
  destruct (Insert h root route mws) as [[h1 t]|] eqn:Hins; [|discriminate].
  simpl. destruct (For h1 t method fn) as [h2|] eqn:Hfor; [|discriminate].
  simpl. intros [= <- <-].
  eapply For_trie; [|exact Hfor]. eapply Insert_trie; eauto.
Qed.

Lemma Name_trie h p nm h' :
  trie h -> Name h p nm = Some h' -> trie h'.
Proof.
  intros Ht. unfold Name.
  destruct (h !! p) as [node|] eqn:Hn; [|discriminate]. simpl.
  set (h1 := <[p := with_name nm node]> h).
  assert (trie h1) as Ht1 by (apply (trie_insert _ _ node); auto).
  destruct (root_of h1 p) as [r|]; [|discriminate]. simpl.
  destruct (h1 !! r) as [rnode|] eqn:Hr; [|discriminate]. simpl.
  destruct (named rnode); [|discriminate]. simpl. intros [= <-].
  apply (trie_insert _ _ rnode); auto.
Qed.

Lemma root_walk_trie h :
  trie h ->
  forall fuel n, n < fuel -> is_Some (h !! n) -> root_walk fuel h n = Some root.
Proof.
  intros Ht. induction fuel as [|fuel IH]; intros n Hlt [node Hn]; [lia|].
  simpl. rewrite Hn. simpl. destruct (parent node) as [p|] eqn:Hp.
  - pose proof (trie_parent _ Ht _ _ _ Hn Hp).
    apply IH; [lia|]. apply lookup_lt_is_Some.
    apply lookup_lt_Some in Hn. lia.
  - f_equal. exact (trie_orphan _ Ht _ _ Hn Hp).
Qed.

(** In a heap built by the registrations the walk of [Name] and [From]
    towards the root ends, at the root. *)
Lemma root_of_trie h p :
  trie h -> is_Some (h !! p) -> root_of h p = Some root.
Proof.
  intros Ht Hp. apply (root_walk_trie h Ht); [|exact Hp].
  apply lookup_lt_is_Some. exact Hp.
Qed.

(** ** The search returns *)

Lemma budget_ge len k : len + 2 <= budget len k.
Proof. induction k; simpl; lia. Qed.

Lemma budget_step len i :
  i < len -> budget len (len - i) = 2 * budget len (len - S i) + 2.
Proof.
  intros Hi. replace (len - i) with (S (len - S i)) by lia. reflexivity.
Qed.

Lemma ancestry_head h n rest :
  ancestry h (n :: rest) -> exists node, h !! n = Some node.
Proof.
  simpl. destruct rest; [intros (node & Hn & _) | intros [(node & Hn & _) _]];
    eauto.
Qed.

Lemma step_in_step h chunks up f f' :
  tree h ->
  in_step h (length chunks) up f ->
  step h chunks f = inl f' ->
  exists up',
    in_step h (length chunks) up' f'
    /\ rounds h (length chunks) up' f' < rounds h (length chunks) up f.
Proof.
  intros Htree (Hanc & Hhd & Hidx & Hlen) Hstep.
  destruct up as [|n rest]; [contradiction|].
  simpl in Hhd. injection Hhd as ->.
  cbn [tail] in Hidx, Hlen.
  unfold step in Hstep. destruct (at_point f) eqn:Hpt.
  - (* the SEARCH loop *)
    unfold search_body in Hstep.
    destruct (Z.leb_spec (Z.of_nat (length chunks)) (idx f)); [discriminate|].
    destruct (chunk_at chunks (idx f)) as [seg|]; [|discriminate].
    destruct (h !! current f) as [cur|] eqn:Hcur; [|discriminate].
    assert (length rest < length chunks) as Hlt by lia.
    assert (forall c v, (exists key, sub cur !! key = Some c) ->
              in_step h (length chunks) (c :: current f :: rest)
                (mkFrame AtSearch c (idx f + 1) v)
              /\ rounds h (length chunks) (c :: current f :: rest)
                   (mkFrame AtSearch c (idx f + 1) v)
                 < rounds h (length chunks) (current f :: rest) f) as Hdown.
    { intros c v [key Hkey].
      destruct (Htree _ _ _ _ Hcur Hkey) as (child & Hc & Hpar).
      split.
      - split; [|split; [reflexivity|split]].
        + simpl. split; [eauto|exact Hanc].
        + simpl. lia.
        + simpl. lia.
      - unfold rounds. rewrite Hpt. cbn [at_point owed length tail].
        rewrite (budget_step _ (length rest)) by exact Hlt.
        destruct (retries h (current f) c); lia. }
    destruct (sub cur !! seg) as [next|] eqn:Hseg.
    { injection Hstep as <-. eexists. apply Hdown. eauto. }
    destruct (if hasDynamicChild cur then sub cur !! dynamic_key else None)
      as [next|] eqn:Hdyn.
    { destruct (h !! next) as [nx|]; [|discriminate].
      injection Hstep as <-. eexists. apply Hdown.
      destruct (hasDynamicChild cur); [eauto|discriminate]. }
    destruct (if hasWildcardChild cur then sub cur !! wildcard_key else None)
      as [next|].
    { destruct (h !! next), (chunks_from chunks (idx f)); discriminate. }
    injection Hstep as <-. exists (current f :: rest). split.
    + split; [exact Hanc|]. split; [reflexivity|].
      cbn [tail captured idx]. split; [exact Hidx|lia].
    + unfold rounds. rewrite Hpt. cbn [at_point length tail].
      pose proof (budget_ge (length chunks) (length chunks - length rest)).
      lia.
  - (* the walk over the ancestors *)
    unfold climb_body in Hstep.
    destruct rest as [|p rest'].
    { simpl in Hanc. destruct Hanc as (node & Hn & Hpar).
      rewrite Hn, Hpar in Hstep. discriminate. }
    simpl in Hanc. destruct Hanc as [(node & Hn & Hpar) Hanc].
    rewrite Hn, Hpar in Hstep.
    destruct (ancestry_head _ _ _ Hanc) as [par Hp]. rewrite Hp in Hstep.
    assert (retries h p (current f)
            = hasDynamicChild par
              && negb (bool_decide (sub par !! dynamic_key = Some (current f))))
      as Hret by (unfold retries; rewrite Hp; reflexivity).
    destruct (hasDynamicChild par
              && negb (bool_decide (sub par !! dynamic_key = Some (current f))))
      eqn:Hsw.
    + destruct (sub par !! dynamic_key) as [next|] eqn:Hkey; [|discriminate].
      destruct (chunk_at chunks (idx f - 1)); [|discriminate].
      destruct (h !! next) as [nx|] eqn:Hnx; [|discriminate].
      injection Hstep as <-.
      destruct (Htree _ _ _ _ Hp Hkey) as (child & Hc & Hcp).
      exists (next :: p :: rest'). split.
      * split; [|split; [reflexivity|split]].
        -- simpl. split; [eauto|exact Hanc].
        -- simpl in *. lia.
        -- simpl in *. lia.
      * unfold rounds. rewrite Hpt. cbn [at_point owed length].
        rewrite Hret.
        assert (retries h p next = false) as ->.
        { unfold retries. rewrite Hp, Hkey.
          rewrite bool_decide_eq_true_2 by reflexivity.
          apply andb_false_r. }
        cbn [tail length]. lia.
    + destruct (hasWildcardChild par
                && negb (bool_decide (sub par !! wildcard_key
                                      = Some (current f)))).
      { destruct (sub par !! wildcard_key) as [next|]; [|discriminate].
        destruct (h !! next), (chunks_from chunks (idx f - 1)); discriminate. }
      injection Hstep as <-. exists (p :: rest'). split.
      * split; [exact Hanc|]. split; [reflexivity|]. simpl in *. lia.
      * unfold rounds. rewrite Hpt. cbn [at_point owed length tail].
        rewrite Hret. lia.
Qed.

Lemma step_no_panic h chunks up f v :
  trie h ->
  in_step h (length chunks) up f ->
  step h chunks f <> inr (Panic, v).
Proof.
  intros Ht (Hanc & Hhd & Hidx & Hlen) Hstep.
  destruct up as [|n rest]; [contradiction|].
  simpl in Hhd. injection Hhd as ->. cbn [tail] in Hidx, Hlen.
  destruct (ancestry_head _ _ _ Hanc) as [cur Hcur].
  unfold step in Hstep. destruct (at_point f).
  - unfold search_body in Hstep.
    destruct (Z.leb_spec (Z.of_nat (length chunks)) (idx f)); [discriminate|].
    assert (length rest < length chunks) as Hlt by lia.
    destruct (lookup_lt_is_Some_2 chunks (length rest) Hlt) as [seg Hseg].
    assert (chunk_at chunks (idx f) = Some seg) as Hch.
    { unfold chunk_at. destruct (Z.ltb_spec (idx f) 0); [lia|].
      rewrite Hidx, Nat2Z.id. exact Hseg. }
    assert (chunks_from chunks (idx f)
            = Some (drop (Z.to_nat (idx f)) chunks)) as Hfrom.
    { unfold chunks_from. destruct (Z.ltb_spec (idx f) 0); [lia|].
      destruct (Z.ltb_spec (Z.of_nat (length chunks)) (idx f)); [lia|].
      reflexivity. }
    rewrite Hch, Hcur, Hfrom in Hstep.
    destruct (sub cur !! seg); [discriminate|].
    destruct (hasDynamicChild cur) eqn:Hd.
    { destruct (trie_dynamic _ Ht _ _ Hcur Hd) as [next Hk].
      rewrite Hk in Hstep.
      destruct (trie_child _ Ht _ _ _ _ Hcur Hk) as (_ & child & Hc & _).
      rewrite Hc in Hstep. discriminate. }
    destruct (hasWildcardChild cur) eqn:Hw; [|discriminate].
    destruct (trie_wildcard _ Ht _ _ Hcur Hw) as [next Hk].
    rewrite Hk in Hstep.
    destruct (trie_child _ Ht _ _ _ _ Hcur Hk) as (_ & child & Hc & _).
    rewrite Hc in Hstep. discriminate.
  - unfold climb_body in Hstep. rewrite Hcur in Hstep.
    destruct rest as [|p rest'].
    { simpl in Hanc. destruct Hanc as (node & Hn & Hpar).
      assert (node = cur) as -> by congruence.
      rewrite Hpar in Hstep. discriminate. }
    simpl in Hanc. destruct Hanc as [(node & Hn & Hpar) Hanc].
    assert (node = cur) as -> by congruence. rewrite Hpar in Hstep.
    destruct (ancestry_head _ _ _ Hanc) as [par Hp]. rewrite Hp in Hstep.
    simpl in Hidx, Hlen.
    assert (length rest' < length chunks) as Hlt by lia.
    destruct (lookup_lt_is_Some_2 chunks (length rest') Hlt) as [seg Hseg].
    assert (chunk_at chunks (idx f - 1) = Some seg) as Hch.
    { unfold chunk_at. destruct (Z.ltb_spec (idx f - 1) 0); [lia|].
      replace (Z.to_nat (idx f - 1)) with (length rest') by lia. exact Hseg. }
    assert (chunks_from chunks (idx f - 1)
            = Some (drop (Z.to_nat (idx f - 1)) chunks)) as Hfrom.
    { unfold chunks_from. destruct (Z.ltb_spec (idx f - 1) 0); [lia|].
      destruct (Z.ltb_spec (Z.of_nat (length chunks)) (idx f - 1)); [lia|].
      reflexivity. }
    rewrite Hch, Hfrom in Hstep.
    destruct (hasDynamicChild par) eqn:Hd.
    + destruct (trie_dynamic _ Ht _ _ Hp Hd) as [next Hk].
      rewrite Hk in Hstep.
      destruct (trie_child _ Ht _ _ _ _ Hp Hk) as (_ & child & Hc & _).
      rewrite Hc in Hstep.
      destruct (bool_decide (Some next = Some (current f))); simpl in Hstep;
        [|discriminate].
      destruct (hasWildcardChild par) eqn:Hw; [|discriminate].
      destruct (trie_wildcard _ Ht _ _ Hp Hw) as [next' Hk'].
      rewrite Hk' in Hstep.
      destruct (trie_child _ Ht _ _ _ _ Hp Hk') as (_ & child' & Hc' & _).
      rewrite Hc' in Hstep.
      destruct (bool_decide (Some next' = Some (current f))); discriminate.
    + simpl in Hstep.
      destruct (hasWildcardChild par) eqn:Hw; [|discriminate].
      destruct (trie_wildcard _ Ht _ _ Hp Hw) as [next' Hk'].
      rewrite Hk' in Hstep.
      destruct (trie_child _ Ht _ _ _ _ Hp Hk') as (_ & child' & Hc' & _).
      rewrite Hc' in Hstep.
      destruct (bool_decide (Some next' = Some (current f))); discriminate.
Qed.

Lemma rounds_positive h len up f : 0 < rounds h len up f.
Proof.
  unfold rounds. destruct (at_point f); [|lia].
  pose proof (budget_ge len (len - length (tail up))). lia.
Qed.

Lemma run_returns h chunks :
  trie h ->
  forall m up f,
    in_step h (length chunks) up f ->
    rounds h (length chunks) up f <= m ->
    exists o v, run m h chunks f = Some (o, v) /\ o <> Panic.
Proof.
  intros Ht. induction m as [|m IH]; intros up f Hin Hm.
  - pose proof (rounds_positive h (length chunks) up f). lia.
  - simpl. destruct (step h chunks f) as [f'|[o v]] eqn:Hstep.
    + destruct (step_in_step _ _ _ _ _ (trie_tree _ Ht) Hin Hstep)
        as (up' & Hin' & Hlt).
      apply (IH up' f' Hin'). lia.
    + exists o, v. split; [reflexivity|]. intros ->.
      exact (step_no_panic _ _ _ _ _ Ht Hin Hstep).
Qed.

Lemma Search_chunks_returns h chunks v :
  trie h ->
  exists o v',
    Search_chunks (search_rounds chunks) h root chunks v = Some (o, v')
    /\ o <> Panic.
Proof.
  intros Ht. apply (run_returns h chunks Ht _ [root]).
  - destruct (trie_root _ Ht) as (r & Hr & Hp).
    split; [simpl; eauto|]. split; [reflexivity|]. simpl. split; [reflexivity|lia].
  - unfold rounds, search_rounds. simpl. rewrite Nat.sub_0_r. lia.
Qed.

(** On a heap built by the registrations, [Search] from the root ends
    within the rounds it is given, with a node or with [nil]. *)
Lemma Search_returns h route v :
  trie h ->
  exists o v', Search h root route v = Some (o, v') /\ o <> Panic.
Proof. intros Ht. apply Search_chunks_returns. exact Ht. Qed.

(** ** Matching against registered patterns *)

(** C1. With [/a/:x/c] and [/a/b/d] registered, the search of [/a/b/d]
    follows the literal children [a], [b], [d] and returns the node of
    [/a/b/d] with nothing captured; the search of [/a/q/c] finds no literal
    child for [q] under [a], takes the dynamic child of [a] in that same
    round, and returns the node of [/a/:x/c] with [x] bound to [q].  (The
    walk back over the ancestors is what the search of [/a/b/c] needs: it
    enters [b], finds nothing for [c], and comes back to the dynamic child
    of [a].) *)
Theorem search_literal_and_dynamic_branch (fn1 fn2 : HandlerFunc) :
  exists h1 n1 h2 n2 nb nx,
    register createRootRoute "/a/:x/c" MethodGet fn1 [] = Some (h1, n1) /\
    register h1 "/a/b/d" MethodGet fn2 [] = Some (h2, n2) /\
    n1 <> n2 /\
    walk h2 root [""; "a"; "b"] = Some nb /\
    walk h2 root [""; "a"; ":x"] = Some nx /\
    walk h2 root [""; "a"; "q"] = None /\
    steps 3 h2 (Split (Clean "/a/b/d")) (mkFrame AtSearch root 0 ∅)
      = Some (mkFrame AtSearch nb 3 ∅) /\
    Search h2 root "/a/b/d" ∅ = Some (Found n2, ∅) /\
    steps 3 h2 (Split (Clean "/a/q/c")) (mkFrame AtSearch root 0 ∅)
      = Some (mkFrame AtSearch nx 3 {["x" := ["q"]]}) /\
    Search h2 root "/a/q/c" ∅ = Some (Found n1, {["x" := ["q"]]}) /\
    steps 4 h2 (Split (Clean "/a/b/c")) (mkFrame AtSearch root 0 ∅)
      = Some (mkFrame AtClimb nb 3 ∅) /\
    Search h2 root "/a/b/c" ∅ = Some (Found n1, {["x" := ["b"]]}).
Proof.
  eexists _, _, _, _, _, _.
  do 2 (split; [vm_compute; reflexivity|]).
  split; [discriminate|].
  do 8 (split; [vm_compute; reflexivity|]).
  vm_compute; reflexivity.
Qed.

(** The three matching rules of the [SEARCH] loop, in the order the code
    tries them. *)

Lemma chunk_at_Some chunks i seg :
  chunk_at chunks i = Some seg ->
  (0 <= i < Z.of_nat (length chunks))%Z /\ chunks !! Z.to_nat i = Some seg.
Proof.
  unfold chunk_at. destruct (Z.ltb_spec i 0); [discriminate|].
  intros Hl. split; [|exact Hl]. apply lookup_lt_Some in Hl. lia.
Qed.

Lemma step_exact h chunks f seg cur next :
  at_point f = AtSearch ->
  chunk_at chunks (idx f) = Some seg ->
  h !! current f = Some cur ->
  sub cur !! seg = Some next ->
  step h chunks f = inl (mkFrame AtSearch next (idx f + 1) (captured f)).
Proof.
  intros Hp Hc Hh Hs. unfold step, search_body. rewrite Hp.
  destruct (chunk_at_Some _ _ _ Hc) as [Hr _].
  destruct (Z.leb_spec (Z.of_nat (length chunks)) (idx f)); [lia|].
  rewrite Hc, Hh, Hs. reflexivity.
Qed.

Lemma step_dynamic h chunks f seg cur next nx :
  at_point f = AtSearch ->
  chunk_at chunks (idx f) = Some seg ->
  h !! current f = Some cur ->
  sub cur !! seg = None ->
  hasDynamicChild cur = true ->
  sub cur !! dynamic_key = Some next ->
  h !! next = Some nx ->
  step h chunks f
  = inl (mkFrame AtSearch next (idx f + 1)
           (Values.Add (placeholder nx) seg (captured f))).
Proof.
  intros Hp Hc Hh Hs Hd Hk Hn. unfold step, search_body. rewrite Hp.
  destruct (chunk_at_Some _ _ _ Hc) as [Hr _].
  destruct (Z.leb_spec (Z.of_nat (length chunks)) (idx f)); [lia|].
  rewrite Hc, Hh, Hs, Hd, Hk, Hn. reflexivity.
Qed.

Lemma step_wildcard h chunks f seg cur next nx :
  at_point f = AtSearch ->
  chunk_at chunks (idx f) = Some seg ->
  h !! current f = Some cur ->
  sub cur !! seg = None ->
  hasDynamicChild cur = false \/ sub cur !! dynamic_key = None ->
  hasWildcardChild cur = true ->
  sub cur !! wildcard_key = Some next ->
  h !! next = Some nx ->
  step h chunks f
  = inr (Found next,
         Values.Add (placeholder nx)
           (Join (drop (Z.to_nat (idx f)) chunks)) (captured f)).
Proof.
  intros Hp Hc Hh Hs Hd Hw Hk Hn. unfold step, search_body. rewrite Hp.
  destruct (chunk_at_Some _ _ _ Hc) as [Hr _].
  destruct (Z.leb_spec (Z.of_nat (length chunks)) (idx f)); [lia|].
  rewrite Hc, Hh, Hs, Hw, Hk, Hn.
  assert ((if hasDynamicChild cur then sub cur !! dynamic_key else None)
          = None) as -> by (destruct Hd as [-> | ->]; [|destruct hasDynamicChild]; reflexivity).
  unfold chunks_from.
  destruct (Z.ltb_spec (idx f) 0); [lia|].
  destruct (Z.ltb_spec (Z.of_nat (length chunks)) (idx f)); [lia|].
  reflexivity.
Qed.

(** C3. Where the current node has a literal child keyed by the segment,
    the search descends into it and captures nothing, whatever dynamic
    child the node has; so with [/users/me] and [/users/:id] registered, in
    either order, the search of [/users/me] returns the node of
    [/users/me] and the capture set stays empty. *)
Theorem literal_child_has_priority :
  (forall h chunks f seg cur next,
      at_point f = AtSearch ->
      chunk_at chunks (idx f) = Some seg ->
      h !! current f = Some cur ->
      sub cur !! seg = Some next ->
      step h chunks f = inl (mkFrame AtSearch next (idx f + 1) (captured f)))
  /\
  (forall fn1 fn2 : HandlerFunc,
      exists h1 me h2 id users,
        register createRootRoute "/users/me" MethodGet fn1 [] = Some (h1, me) /\
        register h1 "/users/:id" MethodGet fn2 [] = Some (h2, id) /\
        me <> id /\
        walk h2 root [""; "users"] = Some users /\
        field hasDynamicChild h2 users = Some true /\
        field sub h2 users ≫= (.!! dynamic_key) = Some id /\
        field sub h2 users ≫= (.!! "me") = Some me /\
        Search h2 root "/users/me" ∅ = Some (Found me, ∅))
  /\
  (forall fn1 fn2 : HandlerFunc,
      exists h1 id h2 me users,
        register createRootRoute "/users/:id" MethodGet fn1 [] = Some (h1, id) /\
        register h1 "/users/me" MethodGet fn2 [] = Some (h2, me) /\
        me <> id /\
        walk h2 root [""; "users"] = Some users /\
        field hasDynamicChild h2 users = Some true /\
        field sub h2 users ≫= (.!! dynamic_key) = Some id /\
        field sub h2 users ≫= (.!! "me") = Some me /\
        Search h2 root "/users/me" ∅ = Some (Found me, ∅)).
Proof.
  split; [exact step_exact|].
  split; intros fn1 fn2; eexists _, _, _, _, _;
    (split; [vm_compute; reflexivity|]);
    (split; [vm_compute; reflexivity|]);
    (split; [discriminate|]);
    (split; [vm_compute; reflexivity|]);
    (split; [vm_compute; reflexivity|]);
    (split; [vm_compute; reflexivity|]);
    (split; [vm_compute; reflexivity|]);
    vm_compute; reflexivity.
Qed.

Lemma literal_child_has_priority_witness :
  step users_heap [""; "users"; "me"] (mkFrame AtSearch 1 1 ∅)
  = inl (mkFrame AtSearch 2 (1 + 1) ∅).
Proof.
  eapply (proj1 literal_child_has_priority);
    [reflexivity | vm_compute; reflexivity ..].
Defined.

(** C4. Where the current node has no literal child for the segment and no
    dynamic child but a wildcard child, the search stops in that very
    round: it returns the wildcard child and records, under its
    placeholder, the remaining segments joined by [/].  With [/files/*rest]
    registered, the search of [/files/a/b/c] returns the wildcard node after
    three rounds (the segments [b] and [c] are never looked up) with
    [rest] bound to [a/b/c]; and a node registered below a wildcard
    ([/files/*rest/x]) is not reached by [/files/a/x]. *)
Theorem wildcard_match_is_terminal :
  (forall h chunks f seg cur next nx,
      at_point f = AtSearch ->
      chunk_at chunks (idx f) = Some seg ->
      h !! current f = Some cur ->
      sub cur !! seg = None ->
      hasDynamicChild cur = false \/ sub cur !! dynamic_key = None ->
      hasWildcardChild cur = true ->
      sub cur !! wildcard_key = Some next ->
      h !! next = Some nx ->
      step h chunks f
      = inr (Found next,
             Values.Add (placeholder nx)
               (Join (drop (Z.to_nat (idx f)) chunks)) (captured f)))
  /\
  (forall fn : HandlerFunc,
      exists h n,
        register createRootRoute "/files/*rest" MethodGet fn [] = Some (h, n) /\
        field pattern h n = Some "*rest" /\
        field placeholder h n = Some "rest" /\
        Split (Clean "/files/a/b/c") = [""; "files"; "a"; "b"; "c"] /\
        Search h root "/files/a/b/c" ∅
        = Some (Found n, {["rest" := ["a/b/c"]]}))
  /\
  (forall fn : HandlerFunc,
      exists h x w,
        register createRootRoute "/files/*rest/x" MethodGet fn [] = Some (h, x) /\
        field parent h x = Some (Some w) /\
        field pattern h w = Some "*rest" /\
        w <> x /\
        Search h root "/files/a/x" ∅
        = Some (Found w, {["rest" := ["a/x"]]})).
Proof.
  split; [exact step_wildcard|].
  split; intros fn.
  - eexists _, _.
    do 4 (split; [vm_compute; reflexivity|]).
    vm_compute; reflexivity.
  - eexists _, _, _.
    do 3 (split; [vm_compute; reflexivity|]).
    split; [discriminate|].
    vm_compute; reflexivity.
Qed.

Lemma wildcard_match_is_terminal_witness :
  exists nx,
    files_heap !! 3 = Some nx /\
    step files_heap [""; "files"; "a"; "b"; "c"] (mkFrame AtSearch 2 2 ∅)
    = inr (Found 3,
           Values.Add (placeholder nx) (Join ["a"; "b"; "c"]) ∅).
Proof.
  eexists. split; [vm_compute; reflexivity|].
  eapply (proj1 wildcard_match_is_terminal
            files_heap [""; "files"; "a"; "b"; "c"] (mkFrame AtSearch 2 2 ∅));
    [reflexivity | vm_compute; reflexivity | vm_compute; reflexivity
    | vm_compute; reflexivity | left; vm_compute; reflexivity
    | vm_compute; reflexivity ..].
Defined.

(** C5. With [/users/:id] registered, the node of the pattern keeps the
    segment as [pattern] and the name without its marker as [placeholder];
    the search of [/users/42] returns that node with [id] bound to [42],
    and so does the search of any other segment in place of [42] that is
    not itself a key of the literal lookup ([":id"] and [":"], the two keys
    under which the node is stored). *)
Theorem dynamic_segment_captures (fn : HandlerFunc) :
  exists h n,
    register createRootRoute "/users/:id" MethodGet fn [] = Some (h, n) /\
    field pattern h n = Some ":id" /\
    field placeholder h n = Some "id" /\
    Search h root "/users/42" ∅ = Some (Found n, {["id" := ["42"]]}) /\
    forall route s : string,
      Split (Clean route) = [""; "users"; s] ->
      s <> ":id" -> s <> ":" ->
      Search h root route ∅ = Some (Found n, {["id" := [s]]}).
Proof.
  eexists _, _.
  do 4 (split; [vm_compute; reflexivity|]).
  intros route s Hsplit Hs1 Hs2. unfold Search. rewrite Hsplit. cbv zeta.
  change (search_rounds [""; "users"; s]) with (4 + 51).
  apply Search_chunks_extra. unfold Search_chunks.
  match goal with
  | |- run 4 ?h ?c ?f = _ =>
      transitivity (run 2 h c (mkFrame AtSearch 2 2 ∅));
        [apply (run_steps 2 2); vm_compute; reflexivity|]
  end.
  cbn [run].
  erewrite step_dynamic;
    [ | reflexivity | reflexivity | vm_compute; reflexivity | | reflexivity
      | vm_compute; reflexivity | vm_compute; reflexivity ].
  - cbn [step at_point search_body idx length captured current].
    reflexivity.
  - cbn [sub].
    match goal with
    | |- ?m !! s = None =>
        replace m with (<[":id" := 3]> (<[":" := 3]> (∅ : gmap string nat)))
          by (vm_compute; reflexivity)
    end.
    rewrite !lookup_insert_ne by congruence. apply lookup_empty.
Qed.

Lemma dynamic_segment_captures_witness :
  exists h n,
    register createRootRoute "/users/:id" MethodGet noop [] = Some (h, n) /\
    Search h root "/users//alice/" ∅ = Some (Found n, {["id" := ["alice"]]}).
Proof.
  destruct (dynamic_segment_captures noop) as (h & n & Hr & _ & _ & _ & Hs).
  exists h, n. split; [exact Hr|].
  apply Hs; [vm_compute; reflexivity | discriminate | discriminate].
Defined.

(** C5, the counterexample.  A dynamic segment does not match "any single
    concrete segment" by the dynamic rule: with [/users/:id] registered,
    the paths [/users/:id] and [/users/:] reach the node by the
    exact-match rule, under the literal keys [":id"] and [":"] that
    [Insert] stored it at, and nothing is recorded under [id].  So the
    capture of the segment does not hold for every segment. *)
Lemma dynamic_segment_captures_counterexample :
  exists h n,
    register createRootRoute "/users/:id" MethodGet noop [] = Some (h, n) /\
    Search h root "/users/:id" ∅ = Some (Found n, ∅) /\
    Search h root "/users/:" ∅ = Some (Found n, ∅) /\
    ~ (forall route s : string,
         Split (Clean route) = [""; "users"; s] ->
         Search h root route ∅ = Some (Found n, {["id" := [s]]})).
Proof.
  eexists _, _.
  do 3 (split; [vm_compute; reflexivity|]).
  intros Hall.
  specialize (Hall "/users/:id" ":id" ltac:(vm_compute; reflexivity)).
  vm_compute in Hall. discriminate Hall.
Qed.

(** C10. With [/a/:x/c] and [/a/*w] registered, the search of [/a/q/z]
    descends into the dynamic child of [a] and records [x -> q]; the child
    has nothing for [z], the walk over the ancestors finds the wildcard
    child of [a], and the search returns the node of [/a/*w].  The capture
    set then holds [w -> q/z] and still holds [x -> q], though [x] is the
    placeholder of no node between the root and the returned node. *)
Theorem abandoned_capture_persists (fn1 fn2 : HandlerFunc) :
  exists h1 n1 h2 w a e nx,
    register createRootRoute "/a/:x/c" MethodGet fn1 [] = Some (h1, n1) /\
    register h1 "/a/*w" MethodGet fn2 [] = Some (h2, w) /\
    walk h2 root [""; "a"; ":x"] = Some nx /\
    steps 3 h2 (Split (Clean "/a/q/z")) (mkFrame AtSearch root 0 ∅)
      = Some (mkFrame AtSearch nx 3 {["x" := ["q"]]}) /\
    steps 4 h2 (Split (Clean "/a/q/z")) (mkFrame AtSearch root 0 ∅)
      = Some (mkFrame AtClimb nx 3 {["x" := ["q"]]}) /\
    Search h2 root "/a/q/z" ∅
      = Some (Found w, <["w" := ["q/z"]]> {["x" := ["q"]]}) /\
    w <> nx /\ w <> n1 /\
    field placeholder h2 w = Some "w" /\
    field parent h2 w = Some (Some a) /\
    field placeholder h2 a = Some "a" /\
    field parent h2 a = Some (Some e) /\
    field placeholder h2 e = Some "" /\
    field parent h2 e = Some (Some root) /\
    field parent h2 root = Some None.
Proof.
  eexists _, _, _, _, _, _, _.
  do 5 (split; [vm_compute; reflexivity|]).
  split; [vm_compute; reflexivity|].
  do 2 (split; [discriminate|]).
  do 6 (split; [vm_compute; reflexivity|]).
  vm_compute; reflexivity.
Qed.

(** ** How the search ends *)

Lemma search_body_to_climb h chunks f f' :
  search_body h chunks f = inl f' -> at_point f' = AtClimb ->
  f' = mkFrame AtClimb (current f) (idx f) (captured f).
Proof.
  unfold search_body. intros H Hp.
  repeat case_match; simplify_eq; try discriminate; reflexivity.
Qed.

Lemma search_body_not_NoMatch h chunks f v :
  search_body h chunks f <> inr (NoMatch, v).
Proof.
  unfold search_body. intros H.
  repeat case_match; simplify_eq.
Qed.

Lemma climb_body_NoMatch h chunks f v :
  climb_body h chunks f = inr (NoMatch, v) ->
  exists node,
    h !! current f = Some node /\ parent node = None /\ v = captured f.
Proof.
  unfold climb_body. intros H.
  repeat case_match; simplify_eq; eauto.
Qed.

Lemma climb_body_to_climb h chunks f f' :
  climb_body h chunks f = inl f' -> at_point f' = AtClimb ->
  exists node p par,
    h !! current f = Some node /\ parent node = Some p /\
    h !! p = Some par /\
    (hasDynamicChild par = false
     \/ sub par !! dynamic_key = Some (current f)) /\
    (hasWildcardChild par = false
     \/ sub par !! wildcard_key = Some (current f)) /\
    f' = mkFrame AtClimb p (idx f - 1) (captured f).
Proof.
  unfold climb_body. intros H Hp.
  destruct (h !! current f) as [node|] eqn:Hn; [|discriminate].
  destruct (parent node) as [p|] eqn:Hpar; [|discriminate].
  destruct (h !! p) as [par|] eqn:Hp'; [|discriminate].
  exists node, p, par. do 3 (split; [first [assumption | reflexivity]|]).
  destruct (hasDynamicChild par) eqn:Hd; simpl in H.
  - destruct (bool_decide_reflect (sub par !! dynamic_key = Some (current f)))
      as [Hk|Hk]; simpl in H.
    + split; [right; exact Hk|].
      destruct (hasWildcardChild par) eqn:Hw; simpl in H.
      * destruct (bool_decide_reflect
                    (sub par !! wildcard_key = Some (current f)))
          as [Hk'|Hk']; simpl in H.
        -- split; [right; exact Hk'|]. congruence.
        -- repeat case_match; simplify_eq.
      * split; [left; reflexivity|]. congruence.
    + repeat case_match; simplify_eq.
  - split; [left; reflexivity|].
    destruct (hasWildcardChild par) eqn:Hw; simpl in H.
    + destruct (bool_decide_reflect
                  (sub par !! wildcard_key = Some (current f)))
        as [Hk'|Hk']; simpl in H.
      * split; [right; exact Hk'|]. congruence.
      * repeat case_match; simplify_eq.
    + split; [left; reflexivity|]. congruence.
Qed.

Lemma run_NoMatch h chunks fuel :
  forall f0 v,
    run fuel h chunks f0 = Some (NoMatch, v) ->
    (at_point f0 = AtClimb /\ climbs_out h (current f0) /\ captured f0 = v)
    \/ exists k f,
        steps k h chunks f0 = Some f /\ at_point f = AtSearch /\
        step h chunks f = inl (mkFrame AtClimb (current f) (idx f) v) /\
        climbs_out h (current f).
Proof.
  induction fuel as [|fuel IH]; intros f0 v; simpl; [discriminate|].
  destruct (step h chunks f0) as [f'|r] eqn:Hstep.
  - intros Hrun. destruct (IH _ _ Hrun) as [(Hp & Hc & Hv) | (k & f & Hk & Hf)].
    + unfold step in Hstep. destruct (at_point f0) eqn:Hp0.
      * right. exists 0, f0. simpl.
        pose proof (search_body_to_climb _ _ _ _ Hstep Hp) as ->.
        simpl in *. subst v.
        repeat split; try assumption.
        unfold step. rewrite Hp0. exact Hstep.
      * left. split; [reflexivity|].
        destruct (climb_body_to_climb _ _ _ _ Hstep Hp)
          as (node & p & par & Hn & Hpar & Hp' & Hd & Hw & ->).
        simpl in *. split; [|exact Hv].
        eapply climbs_up; eassumption.
    + right. exists (S k), f. simpl. rewrite Hstep. auto.
  - intros [= ->]. unfold step in Hstep. destruct (at_point f0) eqn:Hp0.
    + exfalso. exact (search_body_not_NoMatch _ _ _ _ Hstep).
    + left. split; [reflexivity|].
      destruct (climb_body_NoMatch _ _ _ _ Hstep) as (node & Hn & Hpar & ->).
      split; [|reflexivity]. eapply climbs_root; eassumption.
Qed.

(** C6. Once the index has passed the last segment at the head of the
    [SEARCH] loop, the search returns the current node, whatever its
    handler map holds (the search of [/a] with only [/a/b] registered
    returns the node of [a], which has no handler map at all).  And a
    search that returns [nil] went through a round where no child
    matched, after which the walk over the ancestors met, at every
    ancestor, no dynamic or wildcard child other than the node it came
    from, up to the node without parent (the search of [/zzz]).  On the
    heaps that the registrations build, the search from the root always
    ends in one of these two ways or at a wildcard child. *)
Theorem search_ends_at_current_or_root :
  (forall h chunks k f0 f extra,
      steps k h chunks f0 = Some f ->
      at_point f = AtSearch ->
      (Z.of_nat (length chunks) <= idx f)%Z ->
      run (k + 1 + extra) h chunks f0 = Some (Found (current f), captured f))
  /\
  (forall fuel h chunks f0 v,
      at_point f0 = AtSearch ->
      run fuel h chunks f0 = Some (NoMatch, v) ->
      exists k f,
        steps k h chunks f0 = Some f /\ at_point f = AtSearch /\
        step h chunks f = inl (mkFrame AtClimb (current f) (idx f) v) /\
        climbs_out h (current f))
  /\
  (forall h route v,
      trie h ->
      exists o v', Search h root route v = Some (o, v') /\ o <> Panic)
  /\
  (forall fn : HandlerFunc,
      exists h n a,
        register createRootRoute "/a/b" MethodGet fn [] = Some (h, n) /\
        field parent h n = Some (Some a) /\
        field hmap h a = Some None /\
        (forall method, handler_at h a method = None) /\
        Search h root "/a" ∅ = Some (Found a, ∅) /\
        Search h root "/zzz" ∅ = Some (NoMatch, ∅)).
Proof.
  split; [|split; [|split]].
  - intros h chunks k f0 f extra Hk Hp Hi.
    rewrite <- Nat.add_assoc, (run_steps _ _ _ _ _ _ Hk). simpl.
    unfold step, search_body. rewrite Hp.
    destruct (Z.leb_spec (Z.of_nat (length chunks)) (idx f)); [reflexivity|lia].
  - intros fuel h chunks f0 v Hp Hrun.
    destruct (run_NoMatch _ _ _ _ _ Hrun) as [(Hp' & _) | H]; [congruence|exact H].
  - exact Search_returns.
  - intros fn. eexists _, _, _.
    do 3 (split; [vm_compute; reflexivity|]).
    split; [intros method; reflexivity|].
    split; vm_compute; reflexivity.
Qed.

Lemma search_ends_at_current_or_root_witness :
  run (3 + 1 + 0) users_heap [""; "users"; "me"] (mkFrame AtSearch root 0 ∅)
  = Some (Found 3, ∅)
  /\ (exists k f,
      steps k users_heap [""; "nobody"] (mkFrame AtSearch root 0 ∅) = Some f /\
      at_point f = AtSearch /\
      step users_heap [""; "nobody"] f
      = inl (mkFrame AtClimb (current f) (idx f) ∅) /\
      climbs_out users_heap (current f))
  /\ exists o v',
      Search createRootRoute root "/users/me" ∅ = Some (o, v') /\ o <> Panic.
Proof.
  split; [|split].
  - apply (proj1 search_ends_at_current_or_root users_heap
             [""; "users"; "me"] 3 (mkFrame AtSearch root 0 ∅)
             (mkFrame AtSearch 3 3 ∅) 0);
      [vm_compute; reflexivity | reflexivity | simpl; lia].
  - apply (proj1 (proj2 search_ends_at_current_or_root) 4 users_heap
             [""; "nobody"] (mkFrame AtSearch root 0 ∅) ∅);
      [reflexivity | vm_compute; reflexivity].
  - apply (proj1 (proj2 (proj2 search_ends_at_current_or_root))).
    exact trie_createRootRoute.
Defined.

(** ** Dispatch *)

Lemma handler_at_hmap h p node method :
  h !! p = Some node ->
  handler_at h p method = default ∅ (hmap node) !! method.
Proof.
  intros Hn. unfold handler_at. rewrite Hn. simpl.
  destruct (hmap node); simpl; [reflexivity|].
  symmetry. apply lookup_empty.
Qed.

Lemma Any_registers_anyone h p fn h' :
  Any h p fn = Some h' -> is_Some (handler_at h' p anyone).
Proof.
  unfold Any, connected, For, handler_at.
  destruct (h !! p) as [node|] eqn:Hn; simpl; [|discriminate].
  destruct (hmap node) as [m|]; simpl; [|discriminate].
  intros [= <-]. rewrite list_lookup_insert_eq by (eapply lookup_lt_Some; eauto).
  simpl. unfold anyone, wildcard_key, wildcard.
  rewrite lookup_insert_eq. eauto.
Qed.

(** C7. [Invoke] takes the handler stored for the method of the request
    and, if there is none, the one stored under the catch-all key (where
    [Any] stores); with neither it returns [false] and leaves the context
    alone.  With a handler it runs it and returns [true] whatever the
    handler returned: after a structured error the status is the error's
    code and the error itself is written, after any other error the status
    is 500 and a structured error of code 500 with the error's description
    is written. *)
Theorem Invoke_dispatch :
  (forall h p ctx,
      is_Some (h !! p) ->
      handler_at h p (Method ctx) = None ->
      handler_at h p anyone = None ->
      Invoke h p ctx = Some (ctx, false))
  /\
  (forall h p ctx fn,
      handler_at h p (Method ctx) = Some fn
      \/ (is_Some (h !! p) /\ handler_at h p (Method ctx) = None
          /\ handler_at h p anyone = Some fn) ->
      exists ctx',
        Invoke h p ctx = Some (ctx', true) /\
        match fn ctx with
        | (ctx1, None) => ctx' = ctx1
        | (ctx1, Some (Structured v)) =>
            Method ctx' = Method ctx1 /\ status ctx' = Code v /\
            body ctx' = body ctx1 ++ [v]
        | (ctx1, Some (Other description)) =>
            Method ctx' = Method ctx1 /\
            status ctx' = StatusInternalServerError /\
            body ctx' = body ctx1
                        ++ [NewError StatusInternalServerError description]
        end)
  /\
  (forall h p fn h', Any h p fn = Some h' -> is_Some (handler_at h' p anyone))
  /\
  (exists h n h1 h2,
      Insert createRootRoute root "/teapot" [] = Some (h, n) /\
      Invoke h n (mkContext "TRACE" 200 []) = Some (mkContext "TRACE" 200 [], false) /\
      Any h n (fun ctx => (ctx, Some (Structured (NewError 418 "teapot"))))
      = Some h1 /\
      Invoke h1 n (mkContext "TRACE" 200 [])
      = Some (mkContext "TRACE" 418 [NewError 418 "teapot"], true) /\
      Get h1 n (fun ctx => (ctx, Some (Other "boom"))) = Some h2 /\
      Invoke h2 n (mkContext "GET" 200 [])
      = Some (mkContext "GET" 500 [NewError 500 "boom"], true) /\
      Invoke h2 n (mkContext "TRACE" 200 [])
      = Some (mkContext "TRACE" 418 [NewError 418 "teapot"], true)).
Proof.
  split; [|split; [|split]].
  - intros h p ctx [node Hn] Hm Ha.
    rewrite (handler_at_hmap _ _ _ _ Hn) in Hm.
    rewrite (handler_at_hmap _ _ _ _ Hn) in Ha.
    unfold Invoke. rewrite Hn. cbn [mbind option_bind]. cbv zeta.
    rewrite Hm, Ha. reflexivity.
  - intros h p ctx fn H.
    assert (exists node, h !! p = Some node) as [node Hn].
    { destruct H as [H | [[node Hn] _]]; [|eauto].
      unfold handler_at in H. destruct (h !! p); [eauto | discriminate]. }
    rewrite !(handler_at_hmap _ _ _ _ Hn) in H.
    unfold Invoke. rewrite Hn. cbn [mbind option_bind].
    cbv zeta.
    assert (match default ∅ (hmap node) !! Method ctx with
            | Some fn0 => Some fn0
            | None => default ∅ (hmap node) !! anyone
            end = Some fn) as ->.
    { destruct H as [-> | (_ & -> & ->)]; reflexivity. }
    destruct (fn ctx) as [ctx1 [[v|description]|]]; eexists; split;
      try reflexivity; simpl; auto.
  - exact Any_registers_anyone.
  - eexists _, _, _, _.
    do 6 (split; [vm_compute; reflexivity|]). vm_compute; reflexivity.
Qed.

Lemma Invoke_dispatch_witness :
  Invoke users_heap 2 (mkContext "GET" 200 [])
  = Some (mkContext "GET" 200 [], false)
  /\ (exists ctx',
        Invoke users_heap 3 (mkContext "GET" 200 []) = Some (ctx', true) /\
        ctx' = mkContext "GET" 200 [])
  /\ is_Some (handler_at
                (default [] (Any users_heap 3 noop)) 3 anyone).
Proof.
  split; [|split].
  - apply (proj1 Invoke_dispatch); [vm_compute; eauto | reflexivity ..].
  - apply (proj1 (proj2 Invoke_dispatch) users_heap 3
             (mkContext "GET" 200 []) noop).
    left. vm_compute. reflexivity.
  - apply (proj1 (proj2 (proj2 Invoke_dispatch)) users_heap 3 noop).
    vm_compute. reflexivity.
Defined.

(** ** Named routes *)

Lemma From_unregistered h p rnode nm v :
  trie h -> is_Some (h !! p) ->
  h !! root = Some rnode ->
  default ∅ (named rnode) !! nm = None ->
  From h p nm v = Some (None, v).
Proof.
  intros Ht Hp Hn Hm. unfold From. rewrite (root_of_trie _ _ Ht Hp).
  cbn [mbind option_bind].
  rewrite Hn. cbn [mbind option_bind]. rewrite Hm. reflexivity.
Qed.

Lemma From_walk_consumes fuel h t node v seg :
  h !! t = Some node ->
  pattern node <> "" ->
  Values.Has (placeholder node) v = true ->
  From_walk (S fuel) h (Some t) v seg
  = From_walk fuel h (parent node) (Values.Del (placeholder node) v)
      (seg ++ [Values.Get (placeholder node) v])
  /\ Values.Has (placeholder node) (Values.Del (placeholder node) v) = false.
Proof.
  intros Hn Hp Hv. split.
  - cbn [From_walk]. rewrite Hn. cbn [mbind option_bind].
    rewrite bool_decide_eq_false_2 by exact Hp. rewrite Hv. reflexivity.
  - unfold Values.Has, Values.Del. apply bool_decide_eq_false_2.
    rewrite lookup_delete_eq. intros [x Hx]. discriminate.
Qed.

Lemma From_walk_literal fuel h t node v seg :
  h !! t = Some node ->
  pattern node <> "" ->
  Values.Has (placeholder node) v = false ->
  From_walk (S fuel) h (Some t) v seg
  = From_walk fuel h (parent node) v (seg ++ [pattern node]).
Proof.
  intros Hn Hp Hv. cbn [From_walk]. rewrite Hn. cbn [mbind option_bind].
  rewrite bool_decide_eq_false_2 by exact Hp. rewrite Hv. reflexivity.
Qed.

(** C8. With [/users/:id] registered and its node named [profile], [From]
    of [profile] with [id -> 7] gives [/users/7] and leaves no value under
    [id]; with no value supplied the pattern text of each segment is used.
    A value serves one node only: at a node whose placeholder has a value
    the walk takes the value and deletes the key, so for [/:id/:id] the
    inner node gets [7] and its ancestor, with the same placeholder, keeps
    its pattern text.  For a name that the root's registry does not hold,
    [From], called on any node of a heap built by the registrations,
    returns [nil] and leaves the values alone. *)
Theorem Name_From_roundtrip :
  (forall fn : HandlerFunc,
      exists h n h',
        register createRootRoute "/users/:id" MethodGet fn [] = Some (h, n) /\
        Name h n "profile" = Some h' /\
        field name h' n = Some "profile" /\
        From h' root "profile" {["id" := ["7"]]} = Some (Some "/users/7", ∅) /\
        From h' n "profile" {["id" := ["7"]]} = Some (Some "/users/7", ∅) /\
        From h' root "profile" ∅ = Some (Some "/users/:id", ∅) /\
        From h' root "profil" {["id" := ["7"]]}
        = Some (None, {["id" := ["7"]]}))
  /\
  (forall fn : HandlerFunc,
      exists h n h',
        register createRootRoute "/:id/:id" MethodGet fn [] = Some (h, n) /\
        Name h n "twice" = Some h' /\
        From h' root "twice" {["id" := ["7"]]} = Some (Some "/:id/7", ∅))
  /\
  (forall fuel h t node v seg,
      h !! t = Some node ->
      pattern node <> "" ->
      Values.Has (placeholder node) v = true ->
      From_walk (S fuel) h (Some t) v seg
      = From_walk fuel h (parent node) (Values.Del (placeholder node) v)
          (seg ++ [Values.Get (placeholder node) v])
      /\ Values.Has (placeholder node) (Values.Del (placeholder node) v)
         = false)
  /\
  (forall fuel h t node v seg,
      h !! t = Some node ->
      pattern node <> "" ->
      Values.Has (placeholder node) v = false ->
      From_walk (S fuel) h (Some t) v seg
      = From_walk fuel h (parent node) v (seg ++ [pattern node]))
  /\
  (forall h p rnode nm v,
      trie h -> is_Some (h !! p) ->
      h !! root = Some rnode ->
      default ∅ (named rnode) !! nm = None ->
      From h p nm v = Some (None, v)).
Proof.
  split; [|split; [|split; [|split]]].
  - intros fn. eexists _, _, _.
    do 6 (split; [vm_compute; reflexivity|]). vm_compute; reflexivity.
  - intros fn. eexists _, _, _.
    do 2 (split; [vm_compute; reflexivity|]). vm_compute; reflexivity.
  - exact From_walk_consumes.
  - exact From_walk_literal.
  - exact From_unregistered.
Qed.

Lemma Name_From_roundtrip_witness :
  (exists node,
      profile_heap !! 3 = Some node /\
      From_walk 1 profile_heap (Some 3) {["id" := ["7"]]} []
      = From_walk 0 profile_heap (parent node)
          (Values.Del (placeholder node) {["id" := ["7"]]})
          ([] ++ [Values.Get (placeholder node) {["id" := ["7"]]}]))
  /\ (exists node,
      profile_heap !! 2 = Some node /\
      From_walk 1 profile_heap (Some 2) ∅ ["7"]
      = From_walk 0 profile_heap (parent node) ∅ (["7"] ++ [pattern node]))
  /\ From profile_heap 3 "nobody" ∅ = Some (None, ∅).
Proof.
  split; [|split].
  - eexists. split; [vm_compute; reflexivity|].
    eapply (proj1 (proj1 (proj2 (proj2 Name_From_roundtrip)) 0 profile_heap 3
                     _ {["id" := ["7"]]} [] _ _ _)).
    Unshelve. all: try (vm_compute; reflexivity). all: discriminate.
  - eexists. split; [vm_compute; reflexivity|].
    eapply (proj1 (proj2 (proj2 (proj2 Name_From_roundtrip))) 0 profile_heap 2
              _ ∅ ["7"]).
    all: try (vm_compute; reflexivity). discriminate.
  - eapply (proj2 (proj2 (proj2 (proj2 Name_From_roundtrip)))
              profile_heap 3 _ "nobody" ∅).
    + apply (Name_trie (heap_of [("/users/:id", [])]) 3 "profile");
        [|vm_compute; reflexivity].
      apply (register_trie createRootRoute "/users/:id" MethodGet noop [] _ 3);
        [exact trie_createRootRoute | vm_compute; reflexivity].
    + vm_compute. eauto.
    + vm_compute. reflexivity.
    + vm_compute. reflexivity.
Defined.

(** ** Registering twice *)

Lemma register_unfold h route method fn mws ha n node :
  Insert_chunks h root (Split (Clean route)) = Some (ha, n) ->
  ha !! n = Some node ->
  register h route method fn mws
  = Some (<[n := registered node method fn mws]> ha, n).
Proof.
  intros Hins Hn. pose proof (lookup_lt_Some _ _ _ Hn) as Hlt.
  unfold register, Insert. rewrite Hins. cbn [mbind option_bind].
  unfold Insert_finish. rewrite Hn. cbn [mbind option_bind].
  unfold For. rewrite list_lookup_insert_eq by exact Hlt.
  cbn [mbind option_bind hmap with_cc with_hmap cc].
  rewrite list_insert_insert_eq. reflexivity.
Qed.

Lemma handler_at_registered h n node method fn mws :
  h !! n = Some node ->
  handler_at (<[n := registered node method fn mws]> h) n method
  = Some (Connect fn (cc node ++ mws))
  /\ forall other, other <> method ->
       handler_at (<[n := registered node method fn mws]> h) n other
       = handler_at h n other.
Proof.
  intros Hn. pose proof (lookup_lt_Some _ _ _ Hn) as Hlt.
  unfold handler_at. rewrite list_lookup_insert_eq by exact Hlt.
  rewrite Hn. cbn [mbind option_bind registered hmap with_hmap].
  split; [apply lookup_insert_eq|].
  intros other Hne. rewrite lookup_insert_ne by congruence.
  destruct (hmap node); simpl; [reflexivity|apply lookup_empty].
Qed.

(** C9. In a heap built by the registrations, registering a
    pattern and a method a second time succeeds on the same node and
    allocates nothing: the heap has as many nodes as before, no other node
    changes, and no node's children or parent change.  The handler stored
    for that node and method is then the second one, connected to the
    node's chain (the first registration's chain followed by the
    middlewares of the second call); the handlers of other methods stay. *)
Theorem reregistration_is_idempotent
    (h : heap) (route method : string) (fn1 fn2 : HandlerFunc)
    (mws1 mws2 : list Middleware) :
  trie h ->
  exists h1 h2 n node1 node2,
    register h route method fn1 mws1 = Some (h1, n) /\
    register h1 route method fn2 mws2 = Some (h2, n) /\
    length h2 = length h1 /\
    h1 !! n = Some node1 /\ h2 !! n = Some node2 /\
    handler_at h1 n method = Some (Connect fn1 (cc node1)) /\
    cc node2 = cc node1 ++ mws2 /\
    handler_at h2 n method = Some (Connect fn2 (cc node2)) /\
    (forall other, other <> method ->
       handler_at h2 n other = handler_at h1 n other) /\
    (forall p, p <> n -> h2 !! p = h1 !! p) /\
    (forall p, field sub h2 p = field sub h1 p) /\
    (forall p, field parent h2 p = field parent h1 p) /\
    trie h1 /\ trie h2.
Proof.
  intros Ht.
  destruct (Insert_chunks_total (Split (Clean route)) h root Ht)
    as (ha & n & Hins & [node Hn]).
  { destruct (trie_root _ Ht) as (r & Hr & _). eauto. }
  destruct (Insert_chunks_spec _ _ _ _ _ Ht Hins)
    as (Hta & _ & _ & _ & Hwalk).
  pose proof (lookup_lt_Some _ _ _ Hn) as Hlt.
  set (node1 := registered node method fn1 mws1).
  set (h1 := <[n := node1]> ha).
  assert (h1 !! n = Some node1) as Hn1
    by (apply list_lookup_insert_eq; exact Hlt).
  assert (forall p, field sub h1 p = field sub ha p) as Hsub1
    by (apply (field_sub_insert _ _ node); [exact Hn | reflexivity]).
  assert (trie h1) as Ht1
    by (apply (trie_insert _ _ node); auto).
  assert (Insert_chunks h1 root (Split (Clean route)) = Some (h1, n)) as Hins1.
  { apply walk_Insert_chunks. rewrite (walk_same_sub _ ha h1 root Hsub1).
    exact Hwalk. }
  set (node2 := registered node1 method fn2 mws2).
  exists h1, (<[n := node2]> h1), n, node1, node2.
  pose proof (lookup_lt_Some _ _ _ Hn1) as Hlt1.
  split; [exact (register_unfold _ _ _ _ _ _ _ _ Hins Hn)|].
  split; [exact (register_unfold _ _ _ _ _ _ _ _ Hins1 Hn1)|].
  split; [apply length_insert|].
  split; [exact Hn1|].
  split; [apply list_lookup_insert_eq; exact Hlt1|].
  split; [exact (proj1 (handler_at_registered _ _ _ _ _ _ Hn))|].
  split; [reflexivity|].
  split; [exact (proj1 (handler_at_registered _ _ _ _ _ _ Hn1))|].
  split; [exact (proj2 (handler_at_registered _ _ _ _ _ _ Hn1))|].
  split; [intros p Hp; apply list_lookup_insert_ne; congruence|].
  split; [apply (field_sub_insert _ _ node1); [exact Hn1 | reflexivity]|].
  split.
  - intros p. unfold field. destruct (decide (p = n)) as [->|Hne].
    + rewrite list_lookup_insert_eq by exact Hlt1. rewrite Hn1. reflexivity.
    + rewrite list_lookup_insert_ne by congruence. reflexivity.
  - split; [exact Ht1|].
    apply (trie_insert _ _ node1); auto.
Qed.

Lemma reregistration_is_idempotent_witness :
  exists h1 h2 n node1 node2,
    register createRootRoute "/users/:id" MethodGet noop [announce "a"]
    = Some (h1, n) /\
    register h1 "/users/:id" MethodGet (announce "second" noop) [] = Some (h2, n) /\
    length h2 = length h1 /\
    h1 !! n = Some node1 /\ h2 !! n = Some node2 /\
    handler_at h2 n MethodGet
    = Some (Connect (announce "second" noop) (cc node2)).
Proof.
  destruct (reregistration_is_idempotent createRootRoute "/users/:id"
              MethodGet noop (announce "second" noop) [announce "a"] []
              trie_createRootRoute)
    as (h1 & h2 & n & node1 & node2 & H1 & H2 & H3 & H4 & H5 & _ & _ & H8 & _).
  exists h1, h2, n, node1, node2. auto 10.
Defined.

(** ** Registration and the middleware chain *)

Lemma For_stores h p node m method fn :
  h !! p = Some node -> hmap node = Some m ->
  exists h', For h p method fn = Some h'
             /\ handler_at h' p method = Some (Connect fn (cc node)).
Proof.
  intros Hn Hm. pose proof (lookup_lt_Some _ _ _ Hn) as Hlt.
  unfold For. rewrite Hn. cbn [mbind option_bind]. rewrite Hm.
  cbn [mbind option_bind]. eexists. split; [reflexivity|].
  unfold handler_at. rewrite list_lookup_insert_eq by exact Hlt.
  cbn [mbind option_bind hmap with_hmap]. apply lookup_insert_eq.
Qed.

Lemma Get_stores h p node m fn :
  h !! p = Some node -> hmap node = Some m ->
  exists h', Get h p fn = Some h'
             /\ handler_at h' p MethodGet = Some (Connect fn (cc node)).
Proof. apply For_stores. Qed.

Lemma connected_For_stores h p node m key fn :
  h !! p = Some node -> hmap node = Some m ->
  exists h', (fn1 ← connected h p fn; For h p key fn1) = Some h'
             /\ handler_at h' p key
                = Some (Connect (Connect fn (cc node)) (cc node)).
Proof.
  intros Hn Hm. unfold connected. rewrite Hn. cbn [mbind option_bind].
  apply (For_stores _ _ _ m); assumption.
Qed.

(** What [Post], [Put], [Delete], [Patch], [Options], [Head] and [Any]
    store: the handler connected to the chain, connected to the chain
    again. *)
Lemma Post_stores h p node m fn :
  h !! p = Some node -> hmap node = Some m ->
  (exists h', Post h p fn = Some h' /\
     handler_at h' p MethodPost = Some (Connect (Connect fn (cc node)) (cc node)))
  /\ (exists h', Put h p fn = Some h' /\
     handler_at h' p MethodPut = Some (Connect (Connect fn (cc node)) (cc node)))
  /\ (exists h', Delete h p fn = Some h' /\
     handler_at h' p MethodDelete = Some (Connect (Connect fn (cc node)) (cc node)))
  /\ (exists h', Patch h p fn = Some h' /\
     handler_at h' p MethodPatch = Some (Connect (Connect fn (cc node)) (cc node)))
  /\ (exists h', Options h p fn = Some h' /\
     handler_at h' p MethodOptions = Some (Connect (Connect fn (cc node)) (cc node)))
  /\ (exists h', Head h p fn = Some h' /\
     handler_at h' p MethodHead = Some (Connect (Connect fn (cc node)) (cc node)))
  /\ (exists h', Any h p fn = Some h' /\
     handler_at h' p anyone = Some (Connect (Connect fn (cc node)) (cc node))).
Proof.
  intros Hn Hm. repeat split; apply (connected_For_stores _ _ _ m); assumption.
Qed.

(** C2 (the code departs from it).  On a node whose chain is the single
    middleware [announce "mw"], the handler stored by [For] and by [Get]
    is the supplied one wrapped once: run on a request it writes [mw] once.
    The handler stored by [Post], [Put], [Delete], [Patch], [Options],
    [Head] and [Any] is wrapped twice: it writes [mw] twice. *)
Theorem registration_wraps_chain_example :
  exists h n,
    Insert createRootRoute root "/x" [announce "mw"] = Some (h, n) /\
    field (fun node => length (cc node)) h n = Some 1 /\
    let ctx := mkContext "GET" 200 [] in
    let once := Some (mkContext "GET" 200 [NewError 0 "mw"], None) in
    let twice :=
      Some (mkContext "GET" 200 [NewError 0 "mw"; NewError 0 "mw"], None) in
    Some (Connect noop [announce "mw"] ctx) = once /\
    stored_by (fun h p => For h p "TRACE") "TRACE" h n noop ctx = once /\
    stored_by Get MethodGet h n noop ctx = once /\
    stored_by Post MethodPost h n noop ctx = twice /\
    stored_by Put MethodPut h n noop ctx = twice /\
    stored_by Delete MethodDelete h n noop ctx = twice /\
    stored_by Patch MethodPatch h n noop ctx = twice /\
    stored_by Options MethodOptions h n noop ctx = twice /\
    stored_by Head MethodHead h n noop ctx = twice /\
    stored_by Any anyone h n noop ctx = twice.
Proof.
  eexists _, _.
  split; [vm_compute; reflexivity|].
  split; [vm_compute; reflexivity|].
  cbv zeta. repeat split; vm_compute; reflexivity.
Qed.

(** ** Insert and Search of the same pattern *)

Lemma walk_app h a :
  forall cur b,
    walk h cur (a ++ b) = walk h cur a ≫= fun m => walk h m b.
Proof.
  induction a as [|s a IH]; intros cur b; simpl; [reflexivity|].
  destruct (h !! cur) as [c|]; simpl; [|reflexivity].
  destruct (sub c !! s) as [next|]; simpl; [apply IH|reflexivity].
Qed.

(** A search whose segments all have literal children follows them and
    captures nothing. *)
Lemma run_walk h rest :
  forall pre cur n v,
    walk h cur rest = Some n ->
    run (S (length rest)) h (pre ++ rest)
      (mkFrame AtSearch cur (Z.of_nat (length pre)) v)
    = Some (Found n, v).
Proof.
  induction rest as [|seg rest IH]; intros pre cur n v Hw.
  - simpl in Hw. injection Hw as ->. rewrite app_nil_r. simpl.
    unfold step, search_body. simpl.
    destruct (Z.leb_spec (Z.of_nat (length pre)) (Z.of_nat (length pre)));
      [reflexivity|lia].
  - simpl in Hw. destruct (h !! cur) as [c|] eqn:Hc; [|discriminate].
    simpl in Hw. destruct (sub c !! seg) as [next|] eqn:Hs; [|discriminate].
    simpl in Hw. cbn [run length].
    rewrite (step_exact h (pre ++ seg :: rest) _ seg c next);
      [|reflexivity| |exact Hc|exact Hs].
    + cbn [idx captured].
      replace (pre ++ seg :: rest) with ((pre ++ [seg]) ++ rest)
        by (rewrite <- app_assoc; reflexivity).
      replace (Z.of_nat (length pre) + 1)%Z
        with (Z.of_nat (length (pre ++ [seg])))
        by (rewrite length_app; simpl; lia).
      apply IH. exact Hw.
    + unfold chunk_at. cbn [idx].
      destruct (Z.ltb_spec (Z.of_nat (length pre)) 0); [lia|].
      rewrite Nat2Z.id. rewrite lookup_app_r by lia.
      rewrite Nat.sub_diag. reflexivity.
Qed.

Lemma Search_walk h p route n v :
  walk h p (Split (Clean route)) = Some n ->
  Search h p route v = Some (Found n, v).
Proof.
  intros Hw. unfold Search, Search_chunks, search_rounds. cbv zeta.
  set (chunks := Split (Clean route)) in *.
  pose proof (budget_ge (length chunks) (length chunks)) as Hb.
  replace (S (budget (length chunks) (length chunks)))
    with (S (length chunks) + (budget (length chunks) (length chunks)
                               - length chunks)) by lia.
  apply run_extra. exact (run_walk h chunks [] p n v Hw).
Qed.

Lemma Insert_walk h route mws h' n :
  trie h ->
  Insert h root route mws = Some (h', n) ->
  walk h' root (Split (Clean route)) = Some n.
Proof.
  intros Ht. unfold Insert.
  destruct (Insert_chunks h root (Split (Clean route))) as [[h1 t]|] eqn:Hins;
    [|discriminate].
  simpl. destruct (Insert_chunks_spec _ _ _ _ _ Ht Hins) as (_ & _ & _ & _ & Hw).
  unfold Insert_finish.
  destruct (h1 !! t) as [node|] eqn:Hn; [|discriminate]. simpl.
  intros [= <- <-].
  rewrite (walk_same_sub _ h1 _ root); [exact Hw|].
  apply (field_sub_insert _ _ node); [exact Hn|reflexivity].
Qed.

Lemma For_walk h p method fn h' cur chunks :
  For h p method fn = Some h' -> walk h' cur chunks = walk h cur chunks.
Proof.
  unfold For. destruct (h !! p) as [node|] eqn:Hn; [|discriminate]. simpl.
  destruct (hmap node); [|discriminate]. simpl. intros [= <-].
  apply walk_same_sub. apply (field_sub_insert _ _ node); [exact Hn|reflexivity].
Qed.

(** X1. On a heap built by the registrations, the search of a pattern's
    own text, right after [Insert] of that pattern (and also after a
    handler was registered on the node), returns the node that [Insert]
    returned and leaves the capture set as it was: every node, dynamic and
    wildcard ones too, is stored under its literal key, and the
    exact-match rule runs first. *)
Theorem Insert_then_Search (h h' : heap) (route : string)
    (mws : list Middleware) (n : ptr) :
  trie h ->
  Insert h root route mws = Some (h', n) ->
  (forall v, Search h' root route v = Some (Found n, v))
  /\ forall method fn h'' v,
       For h' n method fn = Some h'' ->
       Search h'' root route v = Some (Found n, v).
Proof.
  intros Ht Hins. pose proof (Insert_walk _ _ _ _ _ Ht Hins) as Hw. split.
  - intros v. apply Search_walk. exact Hw.
  - intros method fn h'' v Hfor. apply Search_walk.
    rewrite (For_walk _ _ _ _ _ _ _ Hfor). exact Hw.
Qed.

Lemma Insert_then_Search_witness :
  exists h' n,
    Insert createRootRoute root "/files/*rest" [] = Some (h', n)
    /\ Search h' root "/files/*rest" ∅ = Some (Found n, ∅).
Proof.
  eexists _, _. split; [vm_compute; reflexivity|].
  apply (proj1 (Insert_then_Search createRootRoute _ "/files/*rest" [] _
                  trie_createRootRoute ltac:(vm_compute; reflexivity))).
Defined.

(** ** What later registrations leave in place *)

Lemma Insert_seg_cases h current seg h' next :
  Insert_seg h current seg = Some (h', next) ->
  exists cur,
    h !! current = Some cur
    /\ ((sub cur !! seg = Some next /\ h' = h)
        \/ (sub cur !! seg = None /\ next = length h
            /\ exists cur' node',
                h' = <[current := cur']> h ++ [node']
                /\ same_fields cur cur'
                /\ same_fields
                     (mk_route (Some current) ∅ None None seg
                        (placeholder_of seg) "" [] false false) node'
                /\ sub node' = ∅
                /\ sub cur' !! seg = Some next
                /\ (forall key, plain key -> key <> seg ->
                                sub cur' !! key = sub cur !! key)
                /\ (forall key c, sub cur' !! key = Some c ->
                      (c = next
                       /\ (key = seg
                           \/ (key = dynamic_key /\ marked dynamic seg)
                           \/ (key = wildcard_key /\ marked wildcard seg)))
                      \/ sub cur !! key = Some c)
                /\ (marked dynamic seg ->
                    hasDynamicChild cur' = true
                    /\ sub cur' !! dynamic_key = Some next)
                /\ (marked wildcard seg ->
                    hasWildcardChild cur' = true
                    /\ sub cur' !! wildcard_key = Some next))).
Proof.
  unfold Insert_seg. destruct (h !! current) as [cur|] eqn:Hn; [|discriminate].
  cbn [mbind option_bind]. intros Hins. exists cur. split; [reflexivity|].
  destruct (sub cur !! seg) as [c|] eqn:Hs.
  { left. injection Hins as <- <-. auto. }
  right. split; [reflexivity|].
  assert (forall (m : gmap string nat) k key c,
             <[k := length h]> m !! key = Some c ->
             (c = length h /\ key = k) \/ m !! key = Some c) as Hcase.
  { intros m k key c. rewrite lookup_insert.
    case_decide; [left; split|right]; congruence. }
  destruct seg as [|ch rest].
  - injection Hins as <- <-. split; [reflexivity|].
    eexists _, _. split; [reflexivity|].
    split; [repeat split|]. split; [repeat split|]. split; [reflexivity|].
    split; [apply lookup_insert_eq|].
    split; [intros key _ Hne; apply lookup_insert_ne; congruence|].
    split; [intros key c Hk; apply Hcase in Hk;
            destruct Hk as [[-> ->]|Hk]; auto|].
    split; intros [r Hr]; discriminate.
  - unfold placeholder_of, marked.
    destruct (Ascii.eqb_spec ch dynamic) as [->|Hd];
      [|destruct (Ascii.eqb_spec ch wildcard) as [->|Hw]];
      injection Hins as <- <-; (split; [reflexivity|]);
      eexists _, _; (split; [reflexivity|]);
      (split; [repeat split|]); (split; [repeat split|]);
      (split; [reflexivity|]); (split; [apply lookup_insert_eq|]).
    + split; [intros key [Hk1 Hk2] Hne; cbn [sub with_sub];
              rewrite !lookup_insert_ne by congruence; reflexivity|].
      split; [intros key c Hk; cbn [sub with_sub] in Hk;
              apply Hcase in Hk; destruct Hk as [[-> ->]|Hk]; [auto|];
              apply Hcase in Hk; destruct Hk as [[-> ->]|Hk]; [|auto];
              left; split; [reflexivity|]; right; left; split;
              [reflexivity|eexists; reflexivity]|].
      split.
      * intros _. split; [reflexivity|]. cbn [sub with_sub].
        rewrite lookup_insert. case_decide; [reflexivity|].
        apply lookup_insert_eq.
      * intros [r Hr]. discriminate.
    + split; [intros key [Hk1 Hk2] Hne; cbn [sub with_sub];
              rewrite !lookup_insert_ne by congruence; reflexivity|].
      split; [intros key c Hk; cbn [sub with_sub] in Hk;
              apply Hcase in Hk; destruct Hk as [[-> ->]|Hk]; [auto|];
              apply Hcase in Hk; destruct Hk as [[-> ->]|Hk]; [|auto];
              left; split; [reflexivity|]; right; right; split;
              [reflexivity|eexists; reflexivity]|].
      split.
      * intros [r Hr]. discriminate.
      * intros _. split; [reflexivity|]. cbn [sub with_sub].
        rewrite lookup_insert. case_decide; [reflexivity|].
        apply lookup_insert_eq.
    + split; [intros key _ Hne; cbn [sub with_sub];
              rewrite lookup_insert_ne by congruence; reflexivity|].
      split; [intros key c Hk; apply Hcase in Hk;
              destruct Hk as [[-> ->]|Hk]; auto|].
      split; intros [r Hr]; congruence.
Qed.

Lemma same_fields_refl a : same_fields a a.
Proof. repeat split. Qed.

Lemma same_fields_trans a b c :
  same_fields a b -> same_fields b c -> same_fields a c.
Proof.
  unfold same_fields. intros (?&?&?&?&?&?&?) (?&?&?&?&?&?&?).
  repeat split; congruence.
Qed.

Lemma keeps_refl h : keeps h h.
Proof. intros q node key c Hq Hk _. eauto. Qed.

Lemma keeps_trans h1 h2 h3 : keeps h1 h2 -> keeps h2 h3 -> keeps h1 h3.
Proof.
  intros H12 H23 q node key c Hq Hk Hp.
  destruct (H12 _ _ _ _ Hq Hk Hp) as (node' & Hq' & Hk'). eauto.
Qed.

(** Replacing a node by one with the same children keeps everything. *)
Lemma keeps_insert h n node node' :
  h !! n = Some node -> sub node' = sub node -> keeps h (<[n := node']> h).
Proof.
  intros Hn Hs q x key c Hq Hk _. destruct (decide (q = n)) as [->|Hne].
  - exists node'. split.
    + apply list_lookup_insert_eq. eapply lookup_lt_Some; eauto.
    + rewrite Hs. congruence.
  - exists x. split; [|exact Hk]. rewrite list_lookup_insert_ne by congruence.
    exact Hq.
Qed.

Lemma Insert_seg_old h current seg h' next :
  Insert_seg h current seg = Some (h', next) ->
  length h <= length h' <= S (length h)
  /\ keeps h h'
  /\ (forall q node, h !! q = Some node ->
        exists node', h' !! q = Some node' /\ same_fields node node')
  /\ (forall q, length h <= q < length h' ->
        q = next /\ exists node, h' !! q = Some node /\ hmap node = None).
Proof.
  intros Hins.
  destruct (Insert_seg_cases _ _ _ _ _ Hins)
    as (cur & Hn & [[Hs ->] | (Hs & -> & cur' & node' & -> & Hcur & Hnode
                               & Hempty & Hseg & Hplain & _)]).
  { split; [lia|]. split; [apply keeps_refl|]. split.
    - intros q node Hq. exists node. split; [exact Hq|apply same_fields_refl].
    - intros q Hq. lia. }
  pose proof (lookup_lt_Some _ _ _ Hn) as Hlt.
  assert (length (<[current := cur']> h ++ [node']) = S (length h)) as Hlen
    by (rewrite length_app, length_insert; simpl; lia).
  rewrite Hlen. split; [lia|]. split; [|split].
  - intros q node key c Hq Hk Hp.
    pose proof (lookup_lt_Some _ _ _ Hq) as Hq1.
    rewrite lookup_app_l by (rewrite length_insert; exact Hq1).
    destruct (decide (q = current)) as [->|Hne].
    + exists cur'. split; [apply list_lookup_insert_eq; exact Hlt|].
      assert (node = cur) as -> by congruence.
      rewrite Hplain; [exact Hk|exact Hp|]. intros ->. congruence.
    + exists node. split; [|exact Hk].
      rewrite list_lookup_insert_ne by congruence. exact Hq.
  - intros q node Hq. pose proof (lookup_lt_Some _ _ _ Hq) as Hq1.
    rewrite lookup_app_l by (rewrite length_insert; exact Hq1).
    destruct (decide (q = current)) as [->|Hne].
    + exists cur'. split; [apply list_lookup_insert_eq; exact Hlt|].
      assert (node = cur) as -> by congruence. exact Hcur.
    + exists node. split; [|apply same_fields_refl].
      rewrite list_lookup_insert_ne by congruence. exact Hq.
  - intros q Hq. assert (q = length h) as -> by lia. split; [reflexivity|].
    exists node'. split.
    + rewrite lookup_app_r by (rewrite length_insert; lia).
      rewrite length_insert, Nat.sub_diag. reflexivity.
    + destruct Hnode as (_ & _ & _ & _ & _ & Hh & _). exact Hh.
Qed.

Lemma Insert_chunks_old chunks :
  forall h current h1 n,
    Insert_chunks h current chunks = Some (h1, n) ->
    length h <= length h1 <= length h + length chunks
    /\ keeps h h1
    /\ (forall q node, h !! q = Some node ->
          exists node', h1 !! q = Some node' /\ same_fields node node')
    /\ (forall q, length h <= q < length h1 ->
          exists node, h1 !! q = Some node /\ hmap node = None).
Proof.
  induction chunks as [|seg rest IH]; intros h current h1 n Hins.
  - injection Hins as <- <-. simpl. split; [lia|]. split; [apply keeps_refl|].
    split.
    + intros q node Hq. exists node. split; [exact Hq|apply same_fields_refl].
    + intros q Hq. lia.
  - simpl in Hins.
    destruct (Insert_seg h current seg) as [[h' next]|] eqn:Hseg;
      [|discriminate].
    simpl in Hins.
    destruct (Insert_seg_old _ _ _ _ _ Hseg) as (Hlen & Hkeep & Hframe & Hfresh).
    destruct (IH _ _ _ _ Hins) as (Hlen1 & Hkeep1 & Hframe1 & Hfresh1).
    simpl. split; [lia|]. split; [eapply keeps_trans; eauto|]. split.
    + intros q node Hq. destruct (Hframe _ _ Hq) as (node' & Hq' & Hs').
      destruct (Hframe1 _ _ Hq') as (node'' & Hq'' & Hs'').
      exists node''. split; [exact Hq''|]. eapply same_fields_trans; eauto.
    + intros q Hq. destruct (decide (q < length h')) as [Hlt|Hge].
      * destruct (Hfresh q) as (_ & node & Hn & Hh); [lia|].
        destruct (Hframe1 _ _ Hn) as (node' & Hn' & Hs').
        exists node'. split; [exact Hn'|].
        destruct Hs' as (_ & _ & _ & _ & _ & Hh' & _). congruence.
      * apply Hfresh1. lia.
Qed.

Lemma walk_keeps h h' chunks :
  keeps h h' -> Forall plain chunks ->
  forall cur m, walk h cur chunks = Some m -> walk h' cur chunks = Some m.
Proof.
  intros Hk Hall. induction Hall as [|seg rest Hp Hall IH]; intros cur m Hw.
  - exact Hw.
  - simpl in *. destruct (h !! cur) as [c|] eqn:Hc; [|discriminate].
    simpl in Hw. destruct (sub c !! seg) as [next|] eqn:Hs; [|discriminate].
    simpl in Hw. destruct (Hk _ _ _ _ Hc Hs Hp) as (c' & Hc' & Hs').
    rewrite Hc'. simpl. rewrite Hs'. simpl. apply IH. exact Hw.
Qed.

Lemma Insert_finish_inv h current mws h' n :
  Insert_finish h current mws = Some (h', n) ->
  exists node,
    n = current /\ h !! current = Some node
    /\ h' = <[current :=
               with_cc (cc node ++ mws)
                 (with_hmap (Some (default ∅ (hmap node))) node)]> h.
Proof.
  unfold Insert_finish. destruct (h !! current) as [node|]; [|discriminate].
  simpl. intros [= <- <-]. exists node. repeat split.
Qed.

Lemma For_inv h p method fn h' :
  For h p method fn = Some h' ->
  exists node m,
    h !! p = Some node /\ hmap node = Some m
    /\ h' = <[p := with_hmap (Some (<[method := Connect fn (cc node)]> m))
                     node]> h.
Proof.
  unfold For. destruct (h !! p) as [node|]; [|discriminate]. simpl.
  destruct (hmap node) as [m|] eqn:Hm; [|discriminate]. simpl. intros [= <-].
  exists node, m. repeat split. exact Hm.
Qed.

Lemma Insert_keeps h p route mws h' n :
  Insert h p route mws = Some (h', n) -> keeps h h'.
Proof.
  unfold Insert.
  destruct (Insert_chunks h p (Split (Clean route))) as [[h1 t]|] eqn:Hins;
    [|discriminate].
  simpl. intros Hfin.
  destruct (Insert_finish_inv _ _ _ _ _ Hfin) as (node & -> & Hn & ->).
  destruct (Insert_chunks_old _ _ _ _ _ Hins) as (_ & Hk & _).
  eapply keeps_trans; [exact Hk|].
  apply (keeps_insert _ _ node); [exact Hn|reflexivity].
Qed.

Lemma register_keeps h route method fn mws h' n :
  register h route method fn mws = Some (h', n) -> keeps h h'.
Proof.
  unfold register.
  destruct (Insert h root route mws) as [[h1 t]|] eqn:Hins; [|discriminate].
  simpl. destruct (For h1 t method fn) as [h2|] eqn:Hfor; [|discriminate].
  simpl. intros [= <- <-].
  destruct (For_inv _ _ _ _ _ Hfor) as (node & m & Hn & _ & ->).
  eapply keeps_trans; [exact (Insert_keeps _ _ _ _ _ _ Hins)|].
  apply (keeps_insert _ _ node); [exact Hn|reflexivity].
Qed.

Lemma register_all_keeps regs :
  forall h h', register_all h regs = Some h' -> keeps h h'.
Proof.
  induction regs as [|[[[route method] fn] mws] more IH]; intros h h' Hr.
  - injection Hr as <-. apply keeps_refl.
  - simpl in Hr.
    destruct (register h route method fn mws) as [[h1 t]|] eqn:Hreg;
      [|discriminate].
    simpl in Hr. eapply keeps_trans; [exact (register_keeps _ _ _ _ _ _ _ Hreg)|].
    apply IH. exact Hr.
Qed.

Lemma register_walk h route method fn mws h' n :
  trie h ->
  register h route method fn mws = Some (h', n) ->
  walk h' root (Split (Clean route)) = Some n.
Proof.
  intros Ht. unfold register.
  destruct (Insert h root route mws) as [[h1 t]|] eqn:Hins; [|discriminate].
  simpl. destruct (For h1 t method fn) as [h2|] eqn:Hfor; [|discriminate].
  simpl. intros [= <- <-]. rewrite (For_walk _ _ _ _ _ _ _ Hfor).
  exact (Insert_walk _ _ _ _ _ Ht Hins).
Qed.

(** X2. A registered pattern none of whose segments is exactly [":"] or
    ["*"] keeps resolving to its node whatever is registered later: after
    any run of further registrations the search of the pattern's text
    still returns the node of the first registration, with nothing
    captured.  ([Insert] never deletes a key of [sub] and overwrites only
    the two reserved keys.) *)
Theorem registered_route_stays (h h1 h2 : heap) (route method : string)
    (fn : HandlerFunc) (mws : list Middleware) (n : ptr)
    (later : list (string * string * HandlerFunc * list Middleware)) :
  trie h ->
  register h route method fn mws = Some (h1, n) ->
  Forall plain (Split (Clean route)) ->
  register_all h1 later = Some h2 ->
  forall v, Search h2 root route v = Some (Found n, v).
Proof.
  intros Ht Hreg Hplain Hlater v. apply Search_walk.
  apply (walk_keeps h1 h2); [|exact Hplain|].
  - exact (register_all_keeps _ _ _ Hlater).
  - exact (register_walk _ _ _ _ _ _ _ Ht Hreg).
Qed.

Lemma registered_route_stays_witness :
  exists h1 n h2,
    register createRootRoute "/users/:id" MethodGet noop [] = Some (h1, n)
    /\ register_all h1 [("/users/me", MethodGet, noop, []);
                        ("/users/:name/posts", MethodPost, noop, []);
                        ("/*all", anyone, noop, [])] = Some h2
    /\ Search h2 root "/users/:id" ∅ = Some (Found n, ∅).
Proof.
  eexists _, _, _. split; [vm_compute; reflexivity|].
  split; [vm_compute; reflexivity|].
  eapply (registered_route_stays createRootRoute _ _ "/users/:id" MethodGet
            noop [] _
            [("/users/me", MethodGet, noop, []);
             ("/users/:name/posts", MethodPost, noop, []);
             ("/*all", anyone, noop, [])] trie_createRootRoute).
  - vm_compute; reflexivity.
  - vm_compute. repeat constructor; discriminate.
  - vm_compute; reflexivity.
Defined.

(** X4. [Insert] changes no existing node beyond its children: every node
    of the heap keeps its parent, pattern, placeholder, name and registry,
    and the handler stored for each method; only the returned node's chain
    grows, by the middlewares of the call.  The heap grows by at most one
    node per segment of the cleaned route. *)
Theorem Insert_leaves_nodes (h h' : heap) (p : ptr) (route : string)
    (mws : list Middleware) (n : ptr) :
  Insert h p route mws = Some (h', n) ->
  length h <= length h' <= length h + length (Split (Clean route))
  /\ forall q node,
       h !! q = Some node ->
       exists node',
         h' !! q = Some node'
         /\ parent node' = parent node /\ pattern node' = pattern node
         /\ placeholder node' = placeholder node /\ name node' = name node
         /\ named node' = named node
         /\ (forall method, handler_at h' q method = handler_at h q method)
         /\ (q <> n -> hmap node' = hmap node /\ cc node' = cc node)
         /\ (q = n -> cc node' = cc node ++ mws).
Proof.
  unfold Insert.
  destruct (Insert_chunks h p (Split (Clean route))) as [[h1 t]|] eqn:Hins;
    [|discriminate].
  simpl. intros Hfin.
  destruct (Insert_finish_inv _ _ _ _ _ Hfin) as (tn & -> & Ht & ->).
  destruct (Insert_chunks_old _ _ _ _ _ Hins) as (Hlen & _ & Hframe & _).
  rewrite length_insert. split; [exact Hlen|].
  intros q node Hq. destruct (Hframe _ _ Hq) as (node1 & Hq1 & Hs).
  destruct Hs as (Hpa & Hpt & Hpl & Hna & Hnd & Hh & Hcc).
  pose proof (lookup_lt_Some _ _ _ Ht) as Hlt.
  destruct (decide (q = t)) as [->|Hne].
  - assert (node1 = tn) as -> by congruence.
    eexists. split; [apply list_lookup_insert_eq; exact Hlt|].
    cbn [parent pattern placeholder name named with_cc with_hmap cc hmap].
    do 5 (split; [assumption|]). split; [|split; [congruence|]].
    + intros method. unfold handler_at.
      rewrite list_lookup_insert_eq by exact Hlt. rewrite Hq.
      cbn [mbind option_bind hmap with_cc with_hmap]. rewrite Hh.
      destruct (hmap node); simpl; [reflexivity|apply lookup_empty].
    + intros _. congruence.
  - exists node1. split; [rewrite list_lookup_insert_ne by congruence; exact Hq1|].
    do 5 (split; [assumption|]). split; [|split; [auto|congruence]].
    intros method. unfold handler_at.
    rewrite list_lookup_insert_ne by congruence. rewrite Hq1, Hq.
    simpl. rewrite Hh. reflexivity.
Qed.

Lemma Insert_leaves_nodes_witness :
  exists h' n,
    Insert users_heap root "/users/:id/posts" [announce "a"] = Some (h', n)
    /\ length users_heap <= length h' <= length users_heap + 4
    /\ forall method, handler_at h' 4 method = handler_at users_heap 4 method.
Proof.
  eexists _, _. split; [vm_compute; reflexivity|].
  destruct (Insert_leaves_nodes users_heap _ root "/users/:id/posts"
              [announce "a"] _ ltac:(vm_compute; reflexivity)) as [Hlen Hq].
  split; [exact Hlen|].
  destruct (Hq 4 _ ltac:(vm_compute; reflexivity))
    as (node' & _ & _ & _ & _ & _ & _ & Hh & _).
  exact Hh.
Defined.

(** X5. Of the nodes that one [Insert] allocates, only the returned one
    gets a handler map.  On the returned node [For] succeeds; on any
    other node the call allocated (what [Search] returns for a prefix of
    the route) the handler map is nil, so [For], [Get], [Post] and [Any]
    panic on the write, while [Invoke] reports [false]. *)
Theorem Insert_allocates_one_handler_map (h h' : heap) (p : ptr)
    (route : string) (mws : list Middleware) (n : ptr) :
  Insert h p route mws = Some (h', n) ->
  (forall method fn, is_Some (For h' n method fn))
  /\ forall q,
       length h <= q < length h' -> q <> n ->
       field hmap h' q = Some None
       /\ (forall method fn, For h' q method fn = None)
       /\ (forall fn, Get h' q fn = None /\ Post h' q fn = None
                      /\ Any h' q fn = None)
       /\ forall ctx, Invoke h' q ctx = Some (ctx, false).
Proof.
  unfold Insert.
  destruct (Insert_chunks h p (Split (Clean route))) as [[h1 t]|] eqn:Hins;
    [|discriminate].
  simpl. intros Hfin.
  destruct (Insert_finish_inv _ _ _ _ _ Hfin) as (tn & -> & Ht & ->).
  destruct (Insert_chunks_old _ _ _ _ _ Hins) as (_ & _ & _ & Hfresh).
  pose proof (lookup_lt_Some _ _ _ Ht) as Hlt. split.
  - intros method fn. unfold For.
    rewrite list_lookup_insert_eq by exact Hlt. simpl. eauto.
  - intros q Hq Hne. rewrite length_insert in Hq.
    destruct (Hfresh q Hq) as (node & Hn & Hh).
    assert (<[t := with_cc (cc tn ++ mws)
                     (with_hmap (Some (default ∅ (hmap tn))) tn)]> h1 !! q
            = Some node) as Hq'
      by (rewrite list_lookup_insert_ne by congruence; exact Hn).
    assert (forall method fn,
              For (<[t := with_cc (cc tn ++ mws)
                            (with_hmap (Some (default ∅ (hmap tn))) tn)]> h1)
                q method fn = None) as Hfor.
    { intros method fn. unfold For. rewrite Hq'. simpl. rewrite Hh.
      reflexivity. }
    split; [unfold field; rewrite Hq'; simpl; congruence|].
    split; [exact Hfor|]. split.
    + intros fn. split; [apply Hfor|].
      unfold Post, Any, connected. rewrite Hq'. simpl. split; apply Hfor.
    + intros ctx. unfold Invoke. rewrite Hq'. simpl. rewrite Hh. simpl.
      rewrite !lookup_empty. reflexivity.
Qed.

Lemma Insert_allocates_one_handler_map_witness :
  exists h' n,
    Insert createRootRoute root "/a/b" [] = Some (h', n)
    /\ Search h' root "/a" ∅ = Some (Found 2, ∅)
    /\ Get h' 2 noop = None
    /\ Invoke h' 2 (mkContext "GET" 200 []) = Some (mkContext "GET" 200 [], false).
Proof.
  eexists _, _. split; [vm_compute; reflexivity|].
  split; [vm_compute; reflexivity|].
  destruct (Insert_allocates_one_handler_map createRootRoute _ root "/a/b" []
              _ ltac:(vm_compute; reflexivity)) as [_ Hq].
  destruct (Hq 2 ltac:(vm_compute; lia) ltac:(discriminate))
    as (_ & _ & Hreg & Hinv).
  split; [exact (proj1 (Hreg noop))|apply Hinv].
Defined.

(** ** The labels of the nodes *)

Lemma labelled_createRootRoute : labelled createRootRoute.
Proof.
  split.
  - intros [|p] node key c child Hn Hs; simpl in Hn.
    + injection Hn as <-. simpl in Hs. rewrite lookup_empty in Hs. discriminate.
    + rewrite lookup_nil in Hn. discriminate.
  - intros [|p] node Hn; simpl in Hn.
    + injection Hn as <-. reflexivity.
    + rewrite lookup_nil in Hn. discriminate.
Qed.

Lemma labelled_insert h n node node' :
  labelled h -> h !! n = Some node ->
  sub node' = sub node -> pattern node' = pattern node ->
  placeholder node' = placeholder node ->
  labelled (<[n := node']> h).
Proof.
  intros [Hkey Hpl] Hn Hs Hp Hph.
  pose proof (lookup_lt_Some _ _ _ Hn) as Hlt.
  assert (forall q x, <[n := node']> h !! q = Some x ->
            exists y, h !! q = Some y /\ sub x = sub y
                      /\ pattern x = pattern y
                      /\ placeholder x = placeholder y) as Hold.
  { intros q x Hq. destruct (decide (q = n)) as [->|Hne].
    - rewrite list_lookup_insert_eq in Hq by exact Hlt. injection Hq as <-.
      eauto 10.
    - rewrite list_lookup_insert_ne in Hq by congruence. eauto 10. }
  split.
  - intros p x key c child Hx Hk Hc.
    destruct (Hold _ _ Hx) as (y & Hy & Hsy & _).
    destruct (Hold _ _ Hc) as (child0 & Hc0 & _ & Hpc & _).
    rewrite Hsy in Hk. rewrite Hpc. exact (Hkey _ _ _ _ _ Hy Hk Hc0).
  - intros p x Hx. destruct (Hold _ _ Hx) as (y & Hy & _ & Hpy & Hphy).
    rewrite Hpy, Hphy. exact (Hpl _ _ Hy).
Qed.

Lemma Insert_seg_labelled h current seg h' next :
  trie h -> labelled h ->
  Insert_seg h current seg = Some (h', next) -> labelled h'.
Proof.
  intros Ht [Hkey Hpl] Hins.
  destruct (Insert_seg_old _ _ _ _ _ Hins) as (Hlen & _ & Hframe & Hfresh).
  destruct (Insert_seg_cases _ _ _ _ _ Hins)
    as (cur & Hn & [[Hs ->] | (Hs & -> & cur' & node' & -> & Hcur & Hnode
                               & Hempty & Hseg & Hplain & Hfrom & _)]).
  { split; assumption. }
  set (h' := <[current := cur']> h ++ [node']) in *.
  pose proof (lookup_lt_Some _ _ _ Hn) as Hlt.
  assert (h' !! current = Some cur') as Hcur'.
  { unfold h'. rewrite lookup_app_l by (rewrite length_insert; lia).
    apply list_lookup_insert_eq. exact Hlt. }
  assert (h' !! length h = Some node') as Hnew.
  { unfold h'. rewrite lookup_app_r by (rewrite length_insert; lia).
    rewrite length_insert, Nat.sub_diag. reflexivity. }
  assert (forall q x, h' !! q = Some x ->
            (q = length h /\ x = node')
            \/ (q < length h /\ exists y, h !! q = Some y /\ same_fields y x
                /\ (q <> current -> x = y))) as Hlook.
  { intros q x Hq. destruct (decide (q < length h)) as [Hq1|Hq1].
    - right. split; [exact Hq1|].
      destruct (lookup_lt_is_Some_2 h q Hq1) as [y Hy]. exists y.
      split; [exact Hy|]. destruct (Hframe _ _ Hy) as (x' & Hx' & Hsf).
      assert (x' = x) as -> by congruence. split; [exact Hsf|].
      intros Hne. unfold h' in Hq.
      rewrite lookup_app_l in Hq by (rewrite length_insert; lia).
      rewrite list_lookup_insert_ne in Hq by congruence. congruence.
    - left. pose proof (lookup_lt_Some _ _ _ Hq) as Hq2.
      assert (q = length h) as -> by lia. split; [reflexivity|]. congruence. }
  assert (pattern node' = seg /\ placeholder node' = placeholder_of seg)
    as [Hnp Hnph].
  { destruct Hnode as (_ & Hp & Hph & _). auto. }
  split.
  - intros p x key c child Hx Hk Hc.
    assert (forall y, h !! p = Some y -> sub y !! key = Some c ->
              pattern child = key
              \/ (key = dynamic_key /\ marked dynamic (pattern child))
              \/ (key = wildcard_key /\ marked wildcard (pattern child)))
      as Hold.
    { intros y Hy Hky.
      destruct (trie_child _ Ht _ _ _ _ Hy Hky) as (_ & child0 & Hc0 & _).
      destruct (Hframe _ _ Hc0) as (child' & Hc' & Hsf).
      assert (child' = child) as -> by congruence.
      destruct Hsf as (_ & Hpc & _). rewrite Hpc.
      exact (Hkey _ _ _ _ _ Hy Hky Hc0). }
    destruct (Hlook _ _ Hx) as [[-> ->] | (Hp1 & y & Hy & Hsf & Heq)].
    { rewrite Hempty, lookup_empty in Hk. discriminate. }
    destruct (decide (p = current)) as [->|Hne].
    + assert (x = cur') as -> by congruence.
      assert (y = cur) as -> by congruence.
      destruct (Hfrom _ _ Hk) as [[-> Hwhich] | Hk'].
      * assert (child = node') as -> by congruence. rewrite Hnp.
        destruct Hwhich as [-> | [[-> Hm] | [-> Hm]]]; auto.
      * exact (Hold _ Hy Hk').
    + rewrite (Heq Hne) in Hk. exact (Hold _ Hy Hk).
  - intros p x Hx.
    destruct (Hlook _ _ Hx) as [[-> ->] | (Hp1 & y & Hy & Hsf & _)].
    + congruence.
    + destruct Hsf as (_ & Hp & Hph & _). rewrite Hp, Hph.
      exact (Hpl _ _ Hy).
Qed.

Lemma Insert_chunks_labelled chunks :
  forall h current h1 n,
    trie h -> labelled h ->
    Insert_chunks h current chunks = Some (h1, n) -> labelled h1.
Proof.
  induction chunks as [|seg rest IH]; intros h current h1 n Ht Hl Hins.
  - injection Hins as <- <-. exact Hl.
  - simpl in Hins.
    destruct (Insert_seg h current seg) as [[h' next]|] eqn:Hseg;
      [|discriminate].
    simpl in Hins.
    destruct (Insert_seg_spec _ _ _ _ _ Ht Hseg) as (Ht' & _).
    exact (IH _ _ _ _ Ht' (Insert_seg_labelled _ _ _ _ _ Ht Hl Hseg) Hins).
Qed.

Lemma Insert_labelled h p route mws h' n :
  trie h -> labelled h -> Insert h p route mws = Some (h', n) -> labelled h'.
Proof.
  intros Ht Hl. unfold Insert.
  destruct (Insert_chunks h p (Split (Clean route))) as [[h1 t]|] eqn:Hins;
    [|discriminate].
  simpl. intros Hfin.
  destruct (Insert_finish_inv _ _ _ _ _ Hfin) as (node & -> & Hn & ->).
  apply (labelled_insert _ _ node); auto.
  exact (Insert_chunks_labelled _ _ _ _ _ Ht Hl Hins).
Qed.

Lemma For_labelled h p method fn h' :
  labelled h -> For h p method fn = Some h' -> labelled h'.
Proof.
  intros Hl Hfor. destruct (For_inv _ _ _ _ _ Hfor) as (node & m & Hn & _ & ->).
  apply (labelled_insert _ _ node); auto.
Qed.

Lemma Name_inv h p nm h' :
  Name h p nm = Some h' ->
  exists node r rnode m,
    h !! p = Some node
    /\ root_of (<[p := with_name nm node]> h) p = Some r
    /\ <[p := with_name nm node]> h !! r = Some rnode
    /\ named rnode = Some m
    /\ h' = <[r := with_named (Some (<[nm := p]> m)) rnode]>
              (<[p := with_name nm node]> h).
Proof.
  unfold Name. destruct (h !! p) as [node|] eqn:Hn; [|discriminate]. simpl.
  destruct (root_of (<[p := with_name nm node]> h) p) as [r|] eqn:Hr;
    [|discriminate].
  simpl.
  destruct (<[p := with_name nm node]> h !! r) as [rnode|] eqn:Hrn;
    [|discriminate].
  simpl. destruct (named rnode) as [m|] eqn:Hm; [|discriminate]. simpl.
  intros [= <-]. exists node, r, rnode, m. auto.
Qed.

Lemma Name_labelled h p nm h' :
  labelled h -> Name h p nm = Some h' -> labelled h'.
Proof.
  intros Hl Hname.
  destruct (Name_inv _ _ _ _ Hname) as (node & r & rnode & m & Hn & _ & Hr & _ & ->).
  apply (labelled_insert _ _ rnode); auto.
  apply (labelled_insert _ _ node); auto.
Qed.

(** ** What the matched node says about the path *)

(** The rounds of the search, seen from the ancestry [up] of the current
    node. *)
Lemma step_cases h chunks up f :
  trie h ->
  in_step h (length chunks) up f ->
  match step h chunks f with
  | inl f' =>
      (exists seg key cur,
          at_point f = AtSearch /\ chunks !! length (tail up) = Some seg
          /\ h !! current f = Some cur /\ sub cur !! key = Some (current f')
          /\ (key = seg \/ key = dynamic_key)
          /\ in_step h (length chunks) (current f' :: up) f')
      \/ (at_point f' = AtClimb /\ current f' = current f
          /\ in_step h (length chunks) up f')
      \/ (exists n p rest par,
             up = n :: p :: rest /\ h !! p = Some par
             /\ sub par !! dynamic_key = Some (current f')
             /\ in_step h (length chunks) (current f' :: p :: rest) f')
      \/ (exists n p rest,
             up = n :: p :: rest /\ in_step h (length chunks) (p :: rest) f')
  | inr (Found n, _) =>
      (n = current f /\ length (tail up) = length chunks)
      \/ (exists cur,
             length (tail up) < length chunks
             /\ h !! current f = Some cur
             /\ sub cur !! wildcard_key = Some n
             /\ ancestry h (n :: up))
      \/ (exists c p rest par,
             up = c :: p :: rest /\ h !! p = Some par
             /\ sub par !! wildcard_key = Some n
             /\ ancestry h (n :: p :: rest))
  | inr _ => True
  end.
Proof.
  intros Ht (Hanc & Hhd & Hidx & Hlen).
  destruct up as [|n0 rest]; [contradiction|].
  simpl in Hhd. injection Hhd as ->. cbn [tail] in *.
  destruct (ancestry_head _ _ _ Hanc) as [cur Hcur].
  assert (forall key c, sub cur !! key = Some c ->
            ancestry h (c :: current f :: rest)) as Hdown.
  { intros key c Hk.
    destruct (trie_child _ Ht _ _ _ _ Hcur Hk) as (_ & child & Hc & Hp).
    simpl. split; [eauto|exact Hanc]. }
  unfold step. destruct (at_point f) eqn:Hpt.
  - unfold search_body.
    destruct (Z.leb_spec (Z.of_nat (length chunks)) (idx f)).
    { left. split; [reflexivity|lia]. }
    assert (length rest < length chunks) as Hlt by lia.
    destruct (lookup_lt_is_Some_2 chunks (length rest) Hlt) as [seg Hseg].
    assert (chunk_at chunks (idx f) = Some seg) as Hch.
    { unfold chunk_at. destruct (Z.ltb_spec (idx f) 0); [lia|].
      rewrite Hidx, Nat2Z.id. exact Hseg. }
    rewrite Hch, Hcur.
    assert (forall key c v,
              sub cur !! key = Some c -> key = seg \/ key = dynamic_key ->
              exists seg0 key0 cur0,
                AtSearch = AtSearch /\ chunks !! length rest = Some seg0
                /\ Some cur = Some cur0 /\ sub cur0 !! key0 = Some c
                /\ (key0 = seg0 \/ key0 = dynamic_key)
                /\ in_step h (length chunks) (c :: current f :: rest)
                     (mkFrame AtSearch c (idx f + 1) v)) as Hgo.
    { intros key c v Hk Hor. exists seg, key, cur.
      do 5 (split; [auto|]). split; [exact (Hdown _ _ Hk)|].
      split; [reflexivity|]. simpl. split; lia. }
    destruct (sub cur !! seg) as [next|] eqn:Hs.
    { left. apply (Hgo seg); auto. }
    destruct (hasDynamicChild cur) eqn:Hd.
    { destruct (sub cur !! dynamic_key) as [next|] eqn:Hk.
      - destruct (h !! next) as [nx|]; [|exact I].
        left. apply (Hgo dynamic_key); auto.
      - destruct (trie_dynamic _ Ht _ _ Hcur Hd) as [x Hx]. congruence. }
    destruct (hasWildcardChild cur) eqn:Hw.
    { destruct (sub cur !! wildcard_key) as [next|] eqn:Hk.
      - destruct (h !! next) as [nx|]; [|exact I].
        destruct (chunks_from chunks (idx f)); [|exact I].
        right. left. exists cur. split; [exact Hlt|].
        split; [reflexivity|]. split; [exact Hk|exact (Hdown _ _ Hk)].
      - destruct (trie_wildcard _ Ht _ _ Hcur Hw) as [x Hx]. congruence. }
    right. left. split; [reflexivity|]. split; [reflexivity|].
    split; [exact Hanc|]. split; [reflexivity|]. simpl. split; assumption.
  - unfold climb_body. rewrite Hcur.
    destruct rest as [|p rest'].
    { simpl in Hanc. destruct Hanc as (node & Hn & Hpar).
      assert (node = cur) as -> by congruence. rewrite Hpar. exact I. }
    pose proof Hanc as Hanc0.
    simpl in Hanc. destruct Hanc as [(node & Hn & Hpar) Hanc].
    assert (node = cur) as -> by congruence. rewrite Hpar.
    destruct (ancestry_head _ _ _ Hanc) as [par Hp]. rewrite Hp.
    assert (forall key c, sub par !! key = Some c ->
              ancestry h (c :: p :: rest')) as Hside.
    { intros key c Hk.
      destruct (trie_child _ Ht _ _ _ _ Hp Hk) as (_ & child & Hc & Hcp).
      simpl. split; [eauto|exact Hanc]. }
    simpl in Hidx, Hlen.
    destruct (hasDynamicChild par
              && negb (bool_decide (sub par !! dynamic_key = Some (current f)))).
    + destruct (sub par !! dynamic_key) as [next|] eqn:Hk; [|exact I].
      destruct (chunk_at chunks (idx f - 1)); [|exact I].
      destruct (h !! next) as [nx|]; [|exact I].
      right. right. left. exists (current f), p, rest', par.
      do 3 (split; [auto|]). split; [exact (Hside _ _ Hk)|].
      split; [reflexivity|]. simpl. split; lia.
    + destruct (hasWildcardChild par
                && negb (bool_decide (sub par !! wildcard_key
                                      = Some (current f)))).
      * destruct (sub par !! wildcard_key) as [next|] eqn:Hk; [|exact I].
        destruct (h !! next) as [nx|]; [|exact I].
        destruct (chunks_from chunks (idx f - 1)); [|exact I].
        right. right. exists (current f), p, rest', par.
        do 3 (split; [auto|]). exact (Hside _ _ Hk).
      * right. right. right. exists (current f), p, rest'.
        split; [reflexivity|]. split; [exact Hanc|].
        split; [reflexivity|]. simpl. split; lia.
Qed.

(** ** The heaps that the registrations build *)

Lemma named_root_insert h n node node' :
  named_root h -> h !! n = Some node ->
  (is_Some (named node) -> is_Some (named node')) ->
  named_root (<[n := node']> h).
Proof.
  intros (r & m & Hr & Hm) Hn Hnamed. unfold named_root.
  destruct (decide (root = n)) as [<-|Hne].
  - rewrite list_lookup_insert_eq by (eapply lookup_lt_Some; eauto).
    assert (node = r) as -> by congruence.
    destruct Hnamed as [m' Hm']; [eauto|]. eauto.
  - rewrite list_lookup_insert_ne by congruence. eauto.
Qed.

Lemma Insert_chunks_trie chunks h current h1 n :
  trie h -> Insert_chunks h current chunks = Some (h1, n) -> trie h1.
Proof. intros Ht Hins. exact (proj1 (Insert_chunks_spec _ _ _ _ _ Ht Hins)). Qed.

Lemma Insert_built h p route mws h' n :
  built h -> Insert h p route mws = Some (h', n) -> built h'.
Proof.
  intros (Ht & Hl & Hnr) Hins. split; [|split].
  - unfold Insert in Hins.
    destruct (Insert_chunks h p (Split (Clean route))) as [[h1 t]|] eqn:Hc;
      [|discriminate].
    simpl in Hins.
    destruct (Insert_finish_inv _ _ _ _ _ Hins) as (node & -> & Hn & ->).
    apply (trie_insert _ _ node); auto.
    exact (Insert_chunks_trie _ _ _ _ _ Ht Hc).
  - exact (Insert_labelled _ _ _ _ _ _ Ht Hl Hins).
  - unfold Insert in Hins.
    destruct (Insert_chunks h p (Split (Clean route))) as [[h1 t]|] eqn:Hc;
      [|discriminate].
    simpl in Hins.
    destruct (Insert_finish_inv _ _ _ _ _ Hins) as (node & -> & Hn & ->).
    apply (named_root_insert _ _ node); [|exact Hn|auto].
    destruct Hnr as (r & m & Hr & Hm).
    destruct (Insert_chunks_old _ _ _ _ _ Hc) as (_ & _ & Hframe & _).
    destruct (Hframe _ _ Hr) as (r' & Hr' & Hsf).
    destruct Hsf as (_ & _ & _ & _ & Hnd & _).
    exists r', m. split; [exact Hr'|congruence].
Qed.

Lemma For_built h p method fn h' :
  built h -> For h p method fn = Some h' -> built h'.
Proof.
  intros (Ht & Hl & Hnr) Hfor. split; [|split].
  - exact (For_trie _ _ _ _ _ Ht Hfor).
  - exact (For_labelled _ _ _ _ _ Hl Hfor).
  - destruct (For_inv _ _ _ _ _ Hfor) as (node & m & Hn & _ & ->).
    apply (named_root_insert _ _ node); auto.
Qed.

Lemma connected_For_built h p key fn h' :
  built h -> (fn1 ← connected h p fn; For h p key fn1) = Some h' -> built h'.
Proof.
  intros Hb. unfold connected. destruct (h !! p); [|discriminate]. simpl.
  apply For_built. exact Hb.
Qed.

Lemma Name_built h p nm h' :
  built h -> Name h p nm = Some h' -> built h'.
Proof.
  intros (Ht & Hl & Hnr) Hname. split; [|split].
  - exact (Name_trie _ _ _ _ Ht Hname).
  - exact (Name_labelled _ _ _ _ Hl Hname).
  - destruct (Name_inv _ _ _ _ Hname)
      as (node & r & rnode & m & Hn & _ & Hr & _ & ->).
    apply (named_root_insert _ _ rnode); [|exact Hr|simpl; eauto].
    apply (named_root_insert _ _ node); auto.
Qed.

Lemma built_createRootRoute : built createRootRoute.
Proof.
  split; [exact trie_createRootRoute|]. split; [exact labelled_createRootRoute|].
  eexists _, _. split; reflexivity.
Qed.

Lemma register_built h route method fn mws h' n :
  built h -> register h route method fn mws = Some (h', n) -> built h'.
Proof.
  intros Hb. unfold register.
  destruct (Insert h root route mws) as [[h1 t]|] eqn:Hins; [|discriminate].
  simpl. destruct (For h1 t method fn) as [h2|] eqn:Hfor; [|discriminate].
  simpl. intros [= <- <-].
  eapply For_built; [|exact Hfor]. eapply Insert_built; eauto.
Qed.

Lemma register_all_built regs :
  forall h h', built h -> register_all h regs = Some h' -> built h'.
Proof.
  induction regs as [|[[[route method] fn] mws] more IH]; intros h h' Hb Hr.
  - injection Hr as <-. exact Hb.
  - simpl in Hr.
    destruct (register h route method fn mws) as [[h1 t]|] eqn:Hreg;
      [|discriminate].
    simpl in Hr. apply (IH h1); [|exact Hr].
    exact (register_built _ _ _ _ _ _ _ Hb Hreg).
Qed.

Lemma heap_of_built regs : built (heap_of regs).
Proof.
  unfold heap_of. generalize built_createRootRoute.
  generalize createRootRoute. induction regs as [|[route mws] more IH];
    intros h Hb; [exact Hb|].
  simpl. apply IH.
  destruct (register h route MethodGet noop mws) as [[h1 t]|] eqn:Hreg;
    simpl; [|exact Hb].
  exact (register_built _ _ _ _ _ _ _ Hb Hreg).
Qed.

(** X6. The shape of the heap is an invariant of the whole registration
    interface: [createRootRoute] has it, and [Insert] (on any node),
    [For], [Get], [Post], [Put], [Delete], [Patch], [Options], [Head],
    [Any] and [Name] keep it.  The shape: the root alone has no parent;
    every child was allocated after the node that holds it and points
    back to it; a flagged node holds a child under the reserved key; a
    child sits under its pattern or under the reserved key of its marker;
    placeholders are patterns without their marker; the root holds the
    registry of names. *)
Theorem registrations_keep_shape :
  built createRootRoute
  /\ (forall h p route mws h' n,
        built h -> Insert h p route mws = Some (h', n) -> built h')
  /\ (forall h p method fn h',
        built h -> For h p method fn = Some h' -> built h')
  /\ (forall h p fn h',
        built h ->
        Get h p fn = Some h' \/ Post h p fn = Some h' \/ Put h p fn = Some h'
        \/ Delete h p fn = Some h' \/ Patch h p fn = Some h'
        \/ Options h p fn = Some h' \/ Head h p fn = Some h'
        \/ Any h p fn = Some h' ->
        built h')
  /\ (forall h p nm h', built h -> Name h p nm = Some h' -> built h').
Proof.
  split; [exact built_createRootRoute|].
  split; [exact Insert_built|]. split; [exact For_built|].
  split; [|exact Name_built].
  intros h p fn h' Hb [H|[H|[H|[H|[H|[H|[H|H]]]]]]];
    first [exact (For_built _ _ _ _ _ Hb H)
          | exact (connected_For_built _ _ _ _ _ Hb H)].
Qed.

Lemma registrations_keep_shape_witness :
  exists h1 n h2 h3,
    Insert createRootRoute root "/users/:id" [announce "a"] = Some (h1, n)
    /\ Post h1 n noop = Some h2 /\ Name h2 n "profile" = Some h3
    /\ built h3.
Proof.
  eexists _, _, _, _.
  match goal with
  | |- ?A /\ ?B /\ ?C /\ _ =>
      assert A as HA by (vm_compute; reflexivity);
      assert B as HB by (vm_compute; reflexivity);
      assert C as HC by (vm_compute; reflexivity)
  end.
  do 3 (split; [assumption|]).
  destruct registrations_keep_shape as (H0 & Hins & _ & Hreg & Hname).
  exact (Hname _ _ _ _
           (Hreg _ _ _ _ (Hins _ _ _ _ _ _ H0 HA) (or_intror (or_introl HB)))
           HC).
Defined.

Lemma path_patterns_step h n p rest :
  path_patterns h (n :: p :: rest)
  = path_patterns h (p :: rest) ++ [from_option pattern "" (h !! n)].
Proof. reflexivity. Qed.

Lemma path_patterns_length h up :
  length (path_patterns h up) = length (tail up).
Proof.
  induction up as [|n rest IH]; [reflexivity|].
  destruct rest as [|p rest']; [reflexivity|].
  rewrite path_patterns_step, length_app, IH. simpl. lia.
Qed.

Lemma path_patterns_cons h c n rest child :
  h !! c = Some child ->
  path_patterns h (c :: n :: rest)
  = path_patterns h (n :: rest) ++ [pattern child].
Proof. intros Hc. rewrite path_patterns_step, Hc. reflexivity. Qed.

(** The child found under a key has a pattern that fits the segment. *)
Lemma child_seg_ok h p node key c child seg :
  labelled h ->
  h !! p = Some node -> sub node !! key = Some c -> h !! c = Some child ->
  key = seg \/ key = dynamic_key ->
  seg_ok (pattern child) seg.
Proof.
  intros Hl Hp Hk Hc Hkey.
  destruct (labelled_key _ Hl _ _ _ _ _ Hp Hk Hc)
    as [Hpat | [[-> Hm] | [-> Hm]]].
  - destruct Hkey as [<- | ->]; [left; exact Hpat|].
    right. left. exists "". exact Hpat.
  - right. left. exact Hm.
  - destruct Hkey as [<- | Habs]; [|discriminate].
    right. right. split; [exact Hm|reflexivity].
Qed.

Lemma child_wildcard h p node c child :
  labelled h ->
  h !! p = Some node -> sub node !! wildcard_key = Some c ->
  h !! c = Some child ->
  marked wildcard (pattern child).
Proof.
  intros Hl Hp Hk Hc.
  destruct (labelled_key _ Hl _ _ _ _ _ Hp Hk Hc)
    as [Hpat | [[Habs _] | [_ Hm]]].
  - exists "". exact Hpat.
  - discriminate.
  - exact Hm.
Qed.

Lemma fits_parent h chunks n p rest :
  length rest < length chunks ->
  fits h chunks (n :: p :: rest) -> fits h chunks (p :: rest).
Proof.
  unfold fits. intros Hlt Hf. cbn [tail length] in *.
  destruct (lookup_lt_is_Some_2 chunks (length rest) Hlt) as [s Hs].
  rewrite (take_S_r _ _ _ Hs), path_patterns_step in Hf.
  apply Forall2_app_inv in Hf; [exact (proj1 Hf)|].
  rewrite path_patterns_length, length_take. simpl. lia.
Qed.

Lemma fits_child h chunks c n rest child seg :
  h !! c = Some child ->
  chunks !! length rest = Some seg ->
  seg_ok (pattern child) seg ->
  fits h chunks (n :: rest) -> fits h chunks (c :: n :: rest).
Proof.
  unfold fits. intros Hc Hs Hok Hf. cbn [tail length] in *.
  rewrite (take_S_r _ _ _ Hs), (path_patterns_cons _ _ _ _ _ Hc).
  apply Forall2_app; [exact Hf|]. constructor; [exact Hok|constructor].
Qed.

Lemma step_fits h chunks up f :
  trie h -> labelled h ->
  in_step h (length chunks) up f -> fits h chunks up ->
  match step h chunks f with
  | inl f' => exists up', in_step h (length chunks) up' f' /\ fits h chunks up'
  | inr (Found n, _) =>
      exists up',
        head up' = Some n /\ ancestry h up'
        /\ matched_by (path_patterns h up') chunks
  | inr _ => True
  end.
Proof.
  intros Ht Hl Hin Hf. pose proof (step_cases h chunks up f Ht Hin) as Hc.
  pose proof Hin as (Hanc & Hhd & Hidx & Hlen).
  destruct (step h chunks f) as [f'|[[n| |] v']]; [| |exact I|exact I].
  - destruct Hc as [(seg & key & cur & _ & Hseg & Hcur & Hk & Hkey & Hin')
                   | [(_ & _ & Hin')
                     | [(n & p & rest & par & -> & Hp & Hk & Hin')
                       | (n & p & rest & -> & Hin')]]].
    + exists (current f' :: up). split; [exact Hin'|].
      destruct up as [|n0 rest]; [contradiction|].
      destruct (trie_child _ Ht _ _ _ _ Hcur Hk) as (_ & child & Hch & _).
      apply (fits_child _ _ _ _ _ child seg); auto.
      exact (child_seg_ok _ _ _ _ _ _ _ Hl Hcur Hk Hch Hkey).
    + exists up. auto.
    + exists (current f' :: p :: rest). split; [exact Hin'|].
      cbn [tail length] in Hlen.
      destruct (lookup_lt_is_Some_2 chunks (length rest)) as [s Hs]; [lia|].
      destruct (trie_child _ Ht _ _ _ _ Hp Hk) as (_ & child & Hch & _).
      apply (fits_child _ _ _ _ _ child s); auto.
      * apply (child_seg_ok _ _ _ _ _ _ _ Hl Hp Hk Hch). auto.
      * apply (fits_parent _ _ n); [|exact Hf]. simpl in Hlen. lia.
    + exists (p :: rest). split; [exact Hin'|].
      apply (fits_parent _ _ n); [|exact Hf]. cbn [tail length] in Hlen. lia.
  - destruct Hc as [[-> Hfull]
                   | [(cur & Hlt & Hcur & Hk & Hanc')
                     | (c & p & rest & par & -> & Hp & Hk & Hanc')]].
    + exists up. split; [exact Hhd|]. split; [exact Hanc|]. left.
      unfold fits in Hf. rewrite Hfull, firstn_all in Hf. exact Hf.
    + exists (n :: up). split; [reflexivity|]. split; [exact Hanc'|].
      right. destruct up as [|n0 rest]; [contradiction|].
      destruct (trie_child _ Ht _ _ _ _ Hcur Hk) as (_ & child & Hch & _).
      exists (path_patterns h (n0 :: rest)), (pattern child).
      split; [exact (path_patterns_cons _ _ _ _ _ Hch)|].
      split; [exact (child_wildcard _ _ _ _ _ Hl Hcur Hk Hch)|].
      rewrite path_patterns_length. split; [exact Hlt|exact Hf].
    + exists (n :: p :: rest). split; [reflexivity|]. split; [exact Hanc'|].
      right. cbn [tail length] in Hlen.
      destruct (trie_child _ Ht _ _ _ _ Hp Hk) as (_ & child & Hch & _).
      exists (path_patterns h (p :: rest)), (pattern child).
      split; [exact (path_patterns_cons _ _ _ _ _ Hch)|].
      split; [exact (child_wildcard _ _ _ _ _ Hl Hp Hk Hch)|].
      rewrite path_patterns_length. cbn [tail]. split; [lia|].
      apply (fits_parent _ _ c); [lia|exact Hf].
Qed.

Lemma run_fits h chunks fuel :
  trie h -> labelled h ->
  forall up f n v',
    in_step h (length chunks) up f -> fits h chunks up ->
    run fuel h chunks f = Some (Found n, v') ->
    exists up',
      head up' = Some n /\ ancestry h up'
      /\ matched_by (path_patterns h up') chunks.
Proof.
  intros Ht Hl. induction fuel as [|fuel IH]; intros up f n v' Hin Hf Hrun;
    [discriminate|].
  simpl in Hrun. pose proof (step_fits h chunks up f Ht Hl Hin Hf) as Hs.
  destruct (step h chunks f) as [f'|r].
  - destruct Hs as (up' & Hin' & Hf'). exact (IH _ _ _ _ Hin' Hf' Hrun).
  - injection Hrun as ->. exact Hs.
Qed.

(** X7. On a heap built by the registrations, a node returned by [Search]
    from the root fits the path: the patterns from below the root down to
    the node match the segments of the cleaned path one by one (equal
    text, or a dynamic pattern, or a wildcard pattern passed on the
    segment ["*"]), either all of them or up to a last wildcard pattern
    that takes the one or more segments left. *)
Theorem Search_result_fits_path (h : heap) (route : string)
    (v v' : Values.t) (n : ptr) :
  trie h -> labelled h ->
  Search h root route v = Some (Found n, v') ->
  exists up,
    head up = Some n /\ ancestry h up
    /\ matched_by (path_patterns h up) (Split (Clean route)).
Proof.
  intros Ht Hl Hs. unfold Search, Search_chunks in Hs. cbv zeta in Hs.
  apply (run_fits _ _ _ Ht Hl [root] _ _ _) in Hs; [exact Hs| |].
  - destruct (trie_root _ Ht) as (r & Hr & Hp).
    split; [simpl; eauto|]. split; [reflexivity|]. simpl. split; [reflexivity|lia].
  - unfold fits. simpl. constructor.
Qed.

Lemma Search_result_fits_path_witness :
  exists up,
    head up = Some 4 /\ ancestry users_heap up
    /\ matched_by (path_patterns users_heap up) (Split (Clean "/users/42")).
Proof.
  apply (Search_result_fits_path users_heap "/users/42" ∅
           {["id" := ["42"]]} 4).
  - apply (register_trie (heap_of [("/users/me", [])]) "/users/:id"
             MethodGet noop [] _ 4); [|vm_compute; reflexivity].
    apply (register_trie createRootRoute "/users/me" MethodGet noop [] _ 3);
      [exact trie_createRootRoute|vm_compute; reflexivity].
  - assert (forall h route h' n,
              trie h -> labelled h ->
              register h route MethodGet noop [] = Some (h', n) ->
              labelled h') as Hreg.
    { intros h route h' n Ht Hl. unfold register.
      destruct (Insert h root route []) as [[h1 t]|] eqn:Hins; [|discriminate].
      simpl. destruct (For h1 t MethodGet noop) as [h2|] eqn:Hfor;
        [|discriminate].
      simpl. intros [= <- <-]. eapply For_labelled; [|exact Hfor].
      eapply Insert_labelled; eauto. }
    apply (Hreg (heap_of [("/users/me", [])]) "/users/:id" _ 4);
      [| |vm_compute; reflexivity].
    + apply (register_trie createRootRoute "/users/me" MethodGet noop [] _ 3);
        [exact trie_createRootRoute|vm_compute; reflexivity].
    + apply (Hreg createRootRoute "/users/me" _ 3);
        [exact trie_createRootRoute|exact labelled_createRootRoute
        |vm_compute; reflexivity].
  - vm_compute. reflexivity.
Defined.

(** ** What the search does to the capture set *)

Lemma grown_refl chunks v : grown chunks v v.
Proof.
  intros key. split; [auto|]. exists []. rewrite app_nil_r. auto.
Qed.

Lemma grown_trans chunks v1 v2 v3 :
  grown chunks v1 v2 -> grown chunks v2 v3 -> grown chunks v1 v3.
Proof.
  intros H12 H23 key.
  destruct (H12 key) as (Hk12 & m12 & He12 & Hf12).
  destruct (H23 key) as (Hk23 & m23 & He23 & Hf23).
  split; [auto|]. exists (m12 ++ m23).
  rewrite He23, He12, app_assoc. split; [reflexivity|].
  apply Forall_app; auto.
Qed.

Lemma grown_Add chunks key x v :
  of_path chunks x -> grown chunks v (Values.Add key x v).
Proof.
  intros Hx k. unfold Values.Add. destruct (decide (key = k)) as [->|Hne].
  - rewrite lookup_insert_eq. split; [eauto|]. exists [x]. simpl.
    split; [reflexivity|]. constructor; [exact Hx|constructor].
  - rewrite lookup_insert_ne by exact Hne. split; [auto|]. exists [].
    rewrite app_nil_r. auto.
Qed.

Lemma chunk_at_of_path chunks i seg :
  chunk_at chunks i = Some seg -> of_path chunks seg.
Proof.
  unfold chunk_at. destruct (i <? 0)%Z; [discriminate|].
  intros Hs. exists (Z.to_nat i). left. exact Hs.
Qed.

Lemma chunks_from_of_path chunks i tl :
  chunks_from chunks i = Some tl -> of_path chunks (Join tl).
Proof.
  unfold chunks_from.
  destruct ((i <? 0)%Z || (Z.of_nat (length chunks) <? i)%Z); [discriminate|].
  intros [= <-]. exists (Z.to_nat i). right. reflexivity.
Qed.

Lemma step_grown h chunks f :
  match step h chunks f with
  | inl f' => grown chunks (captured f) (captured f')
  | inr (_, v') => grown chunks (captured f) v'
  end.
Proof.
  unfold step, search_body, climb_body.
  repeat case_match; simplify_eq; cbn [captured];
    first [apply grown_refl
          | apply grown_Add; eapply chunk_at_of_path; eassumption
          | apply grown_Add; eapply chunks_from_of_path; eassumption].
Qed.

Lemma run_grown h chunks fuel :
  forall f o v',
    run fuel h chunks f = Some (o, v') -> grown chunks (captured f) v'.
Proof.
  induction fuel as [|fuel IH]; intros f o v' Hrun; [discriminate|].
  simpl in Hrun. pose proof (step_grown h chunks f) as Hs.
  destruct (step h chunks f) as [f'|[o' v'']].
  - eapply grown_trans; [exact Hs|]. exact (IH _ _ _ Hrun).
  - injection Hrun as <- <-. exact Hs.
Qed.

(** X8. Whatever [Search] returns (a node, [nil] or a panic), on any heap
    and from any node, it only appends to the capture set: no key is
    removed, the values already under a key stay first and in order, and
    every value appended is a segment of the cleaned path or the path's
    segments from some index on, joined by [/].  Nothing is taken back
    when a branch is left or when the search fails. *)
Theorem Search_only_appends_captures (h : heap) (p : ptr) (route : string)
    (v v' : Values.t) (o : outcome) :
  Search h p route v = Some (o, v') ->
  grown (Split (Clean route)) v v'.
Proof.
  unfold Search, Search_chunks. cbv zeta. intros Hrun.
  exact (run_grown _ _ _ _ _ _ Hrun).
Qed.

Lemma Search_only_appends_captures_witness :
  Search users_heap root "/users/42/posts" {["id" := ["7"]]}
  = Some (NoMatch, {["id" := ["7"; "42"]]})
  /\ grown (Split (Clean "/users/42/posts"))
       {["id" := ["7"]]} {["id" := ["7"; "42"]]}.
Proof.
  split; [vm_compute; reflexivity|].
  apply (Search_only_appends_captures users_heap root "/users/42/posts"
           {["id" := ["7"]]} {["id" := ["7"; "42"]]} NoMatch).
  vm_compute. reflexivity.
Defined.

(** ** Search called on a node below the root *)

(** X9. [Search] is a method of every node, but the walk over the
    ancestors assumes it started at the root.  Called on a node that has
    no child for the first segment, and whose parent has a dynamic child
    other than that node, it decrements the index to -1 and indexes the
    segments there: the call panics.  The same happens when the parent
    has no such dynamic child but a wildcard child other than the
    node. *)
Theorem Search_below_root_panics (h : heap) (p q : ptr) (node par : _route)
    (route : string) (v : Values.t) (other : ptr) :
  h !! p = Some node -> parent node = Some q -> h !! q = Some par ->
  (forall seg, head (Split (Clean route)) = Some seg ->
               sub node !! seg = None) ->
  hasDynamicChild node = false -> hasWildcardChild node = false ->
  other <> p ->
  (hasDynamicChild par = true /\ sub par !! dynamic_key = Some other)
  \/ (hasDynamicChild par = false /\ hasWildcardChild par = true
      /\ sub par !! wildcard_key = Some other /\ is_Some (h !! other)) ->
  Search h p route v = Some (Panic, v).
Proof.
  intros Hp Hpar Hq Hseg Hd Hw Hne Hsib.
  unfold Search, Search_chunks, search_rounds. cbv zeta.
  destruct (Split (Clean route)) as [|seg rest] eqn:Hsplit.
  - simpl. unfold step, search_body. simpl.
    (* no route splits into nothing *)
    exfalso. clear -Hsplit. destruct (Clean route); simpl in Hsplit;
      [discriminate|].
    destruct (Ascii.eqb a "/"); [discriminate|].
    destruct (Split s); discriminate.
  - specialize (Hseg seg eq_refl).
    cbn [length budget]. cbn [run].
    assert (step h (seg :: rest) (mkFrame AtSearch p 0 v)
            = inl (mkFrame AtClimb p 0 v)) as ->.
    { unfold step, search_body. cbn [at_point idx current captured].
      cbn [length]. rewrite Hp. cbn [chunk_at]. simpl.
      rewrite Hseg, Hd, Hw. reflexivity. }
    destruct (budget (length rest + 1)%nat (length rest + 1)%nat) eqn:Hb.
    { pose proof (budget_ge (length rest + 1) (length rest + 1)). lia. }
    replace (length rest + 1)%nat with (S (length rest)) in Hb by lia.
    cbn [Nat.add] in *.
    match goal with
    | |- run ?k _ _ _ = _ => destruct k eqn:Hk
    end.
    { pose proof (budget_ge (S (length rest)) (S (length rest))).
      simpl in Hk. lia. }
    cbn [run]. unfold step, climb_body.
    cbn [at_point idx current captured]. rewrite Hp, Hpar, Hq.
    destruct Hsib as [[Hpd Hk'] | (Hpd & Hpw & Hk' & [on Hon])].
    + rewrite Hpd, Hk'.
      rewrite bool_decide_eq_false_2 by congruence. simpl. reflexivity.
    + rewrite Hpd, Hpw, Hk'. cbn [andb].
      rewrite bool_decide_eq_false_2 by congruence. simpl.
      rewrite Hon. reflexivity.
Qed.

Lemma Search_below_root_panics_witness :
  Search users_heap 3 "zzz" ∅ = Some (Panic, ∅).
Proof.
  eapply (Search_below_root_panics users_heap 3 2 _ _ "zzz" ∅ 4).
  - vm_compute; reflexivity.
  - reflexivity.
  - vm_compute; reflexivity.
  - intros seg Hseg. vm_compute in Hseg. injection Hseg as <-.
    vm_compute. reflexivity.
  - reflexivity.
  - reflexivity.
  - discriminate.
  - left. split; vm_compute; reflexivity.
Defined.

(** ** A second dynamic pattern under the same node *)

Lemma new_dynamic_child_is_entered h current cur name h' next
    chunks i seg v :
  h !! current = Some cur ->
  sub cur !! String dynamic name = None ->
  Insert_seg h current (String dynamic name) = Some (h', next) ->
  chunk_at chunks i = Some seg ->
  (forall cur', h' !! current = Some cur' -> sub cur' !! seg = None) ->
  step h' chunks (mkFrame AtSearch current i v)
  = inl (mkFrame AtSearch next (i + 1) (Values.Add name seg v)).
Proof.
  intros Hcur Hnone Hins Hch Hseg.
  destruct (Insert_seg_cases _ _ _ _ _ Hins)
    as (cur0 & Hn & [[Hs _] | (_ & -> & cur' & node' & -> & _ & Hnode
                               & _ & _ & _ & _ & Hdyn & _)]).
  { congruence. }
  destruct Hdyn as [Hflag Hkey]; [eexists; reflexivity|].
  pose proof (lookup_lt_Some _ _ _ Hn) as Hlt.
  assert ((<[current := cur']> h ++ [node']) !! current = Some cur') as Hc'.
  { rewrite lookup_app_l by (rewrite length_insert; lia).
    apply list_lookup_insert_eq. exact Hlt. }
  assert ((<[current := cur']> h ++ [node']) !! length h = Some node') as Hn'.
  { rewrite lookup_app_r by (rewrite length_insert; lia).
    rewrite length_insert, Nat.sub_diag. reflexivity. }
  rewrite (step_dynamic _ chunks _ seg cur' (length h) node');
    try assumption; try reflexivity.
  - cbn [idx captured]. destruct Hnode as (_ & _ & Hph & _).
    rewrite Hph. reflexivity.
  - apply Hseg. exact Hc'.
Qed.

(** X3. A node has one reserved key for its dynamic child, and [Insert]
    of a new dynamic pattern under the node takes it: from then on the
    dynamic rule of [Search] at that node enters the new child, whatever
    dynamic child the node had.  So with [/:x/a] registered and then
    [/:y/b], a path [/s/a] no longer matches: the search enters the node
    of [:y], finds nothing for [a] and returns [nil], leaving [y -> s] in
    the capture set; before the second registration it returned the node
    of [/:x/a] with [x -> s]. *)
Theorem later_dynamic_pattern_shadows :
  (forall h current cur name h' next chunks i seg v,
      h !! current = Some cur ->
      sub cur !! String dynamic name = None ->
      Insert_seg h current (String dynamic name) = Some (h', next) ->
      chunk_at chunks i = Some seg ->
      (forall cur', h' !! current = Some cur' -> sub cur' !! seg = None) ->
      step h' chunks (mkFrame AtSearch current i v)
      = inl (mkFrame AtSearch next (i + 1) (Values.Add name seg v)))
  /\
  (forall fn1 fn2 : HandlerFunc,
      exists h1 n1 h2 n2,
        register createRootRoute "/:x/a" MethodGet fn1 [] = Some (h1, n1) /\
        register h1 "/:y/b" MethodGet fn2 [] = Some (h2, n2) /\
        Search h2 root "/:x/a" ∅ = Some (Found n1, ∅) /\
        forall route s : string,
          Split (Clean route) = [""; s; "a"] ->
          s <> ":x" -> s <> ":y" -> s <> ":" ->
          Search h1 root route ∅ = Some (Found n1, {["x" := [s]]})
          /\ Search h2 root route ∅ = Some (NoMatch, {["y" := [s]]})).
Proof.
  split; [exact new_dynamic_child_is_entered|].
  intros fn1 fn2. eexists _, _, _, _.
  do 3 (split; [vm_compute; reflexivity|]).
  intros route s Hsplit Hs1 Hs2 Hs3. unfold Search. rewrite Hsplit. cbv zeta.
  change (search_rounds [""; s; "a"]) with (7 + 48).
  split; apply Search_chunks_extra; unfold Search_chunks.
  - match goal with
    | |- run 7 ?h ?c ?f = _ =>
        transitivity (run 6 h c (mkFrame AtSearch 1 1 ∅));
          [apply (run_steps 1 6); vm_compute; reflexivity|]
    end.
    cbn [run].
    erewrite step_dynamic;
      [ | reflexivity | reflexivity | vm_compute; reflexivity | | reflexivity
        | vm_compute; reflexivity | vm_compute; reflexivity ].
    + vm_compute. reflexivity.
    + cbn [sub].
      match goal with
      | |- ?m !! s = None =>
          replace m with (<[":x" := 2]> (<[":" := 2]> (∅ : gmap string nat)))
            by (vm_compute; reflexivity)
      end.
      rewrite !lookup_insert_ne by congruence. apply lookup_empty.
  - match goal with
    | |- run 7 ?h ?c ?f = _ =>
        transitivity (run 6 h c (mkFrame AtSearch 1 1 ∅));
          [apply (run_steps 1 6); vm_compute; reflexivity|]
    end.
    cbn [run].
    erewrite step_dynamic;
      [ | reflexivity | reflexivity | vm_compute; reflexivity | | reflexivity
        | vm_compute; reflexivity | vm_compute; reflexivity ].
    + vm_compute. reflexivity.
    + cbn [sub].
      match goal with
      | |- ?m !! s = None =>
          replace m with (<[":y" := 4]> (<[":" := 4]>
                            (<[":x" := 2]> (∅ : gmap string nat))))
            by (vm_compute; reflexivity)
      end.
      rewrite !lookup_insert_ne by congruence. apply lookup_empty.
Qed.

Lemma later_dynamic_pattern_shadows_witness :
  exists h1 n1 h2 n2,
    register createRootRoute "/:x/a" MethodGet noop [] = Some (h1, n1) /\
    register h1 "/:y/b" MethodGet noop [] = Some (h2, n2) /\
    Search h1 root "/42/a" ∅ = Some (Found n1, {["x" := ["42"]]}) /\
    Search h2 root "/42/a" ∅ = Some (NoMatch, {["y" := ["42"]]}).
Proof.
  destruct (proj2 later_dynamic_pattern_shadows noop noop)
    as (h1 & n1 & h2 & n2 & H1 & H2 & _ & Hs).
  exists h1, n1, h2, n2. split; [exact H1|]. split; [exact H2|].
  apply Hs; [vm_compute; reflexivity|discriminate ..].
Defined.

(** ** From the registration to the handler that runs *)

Lemma Invoke_answer h p ctx fn :
  handler_at h p (Method ctx) = Some fn ->
  Invoke h p ctx = Some (answer fn ctx).
Proof.
  unfold handler_at, Invoke. destruct (h !! p) as [node|]; [|discriminate].
  simpl. destruct (hmap node) as [m|]; [|discriminate]. simpl.
  intros ->. unfold answer. destruct (fn ctx) as [ctx1 [[e|d]|]]; reflexivity.
Qed.

Lemma Invoke_answer_any h p ctx fn :
  is_Some (h !! p) ->
  handler_at h p (Method ctx) = None ->
  handler_at h p anyone = Some fn ->
  Invoke h p ctx = Some (answer fn ctx).
Proof.
  unfold handler_at, Invoke. intros [node ->]. simpl.
  destruct (hmap node) as [m|]; [|discriminate]. simpl.
  intros -> ->. unfold answer.
  destruct (fn ctx) as [ctx1 [[e|d]|]]; reflexivity.
Qed.

(** X10. The whole way of a registration: on a heap built by the
    registrations, after [Insert(route, mws...).For(method, fn)] the
    search of the pattern's text returns the node and [Invoke] on it,
    for a request of that method, runs the handler wrapped once by the
    node's chain and answers [true]; the chain is the one the node had
    followed by [mws]. *)
Theorem registered_handler_is_served (h h' : heap) (route method : string)
    (fn : HandlerFunc) (mws : list Middleware) (n : ptr) :
  trie h ->
  register h route method fn mws = Some (h', n) ->
  exists node,
    h' !! n = Some node
    /\ (forall v, Search h' root route v = Some (Found n, v))
    /\ forall ctx,
         Method ctx = method ->
         Invoke h' n ctx = Some (answer (Connect fn (cc node)) ctx).
Proof.
  intros Ht Hreg. pose proof (register_walk _ _ _ _ _ _ _ Ht Hreg) as Hw.
  unfold register in Hreg.
  destruct (Insert h root route mws) as [[h1 t]|] eqn:Hins; [|discriminate].
  simpl in Hreg. destruct (For h1 t method fn) as [h2|] eqn:Hfor;
    [|discriminate].
  simpl in Hreg. injection Hreg as <- <-.
  destruct (For_inv _ _ _ _ _ Hfor) as (node & m & Hn & Hm & ->).
  pose proof (lookup_lt_Some _ _ _ Hn) as Hlt.
  eexists. split; [apply list_lookup_insert_eq; exact Hlt|].
  split; [intros v; apply Search_walk; exact Hw|].
  intros ctx <-. apply Invoke_answer. unfold handler_at.
  rewrite list_lookup_insert_eq by exact Hlt.
  cbn [mbind option_bind hmap with_hmap cc]. apply lookup_insert_eq.
Qed.

Lemma registered_handler_is_served_witness :
  exists h' n,
    register createRootRoute "/users/:id" MethodGet noop [announce "mw"]
    = Some (h', n)
    /\ Search h' root "/users/:id" ∅ = Some (Found n, ∅)
    /\ Invoke h' n (mkContext "GET" 200 [])
       = Some (mkContext "GET" 200 [NewError 0 "mw"], true).
Proof.
  eexists _, _.
  match goal with
  | |- ?A /\ _ => assert A as HA by (vm_compute; reflexivity)
  end.
  split; [exact HA|].
  destruct (registered_handler_is_served _ _ _ _ _ _ _
              trie_createRootRoute HA) as (node & Hn & Hs & Hi).
  split; [apply Hs|]. rewrite (Hi (mkContext "GET" 200 []) eq_refl).
  vm_compute in Hn. injection Hn as <-. reflexivity.
Defined.

Lemma For_eq h p node m method fn :
  h !! p = Some node -> hmap node = Some m ->
  For h p method fn
  = Some (<[p := with_hmap (Some (<[method := Connect fn (cc node)]> m))
                   node]> h).
Proof.
  intros Hn Hm. unfold For. rewrite Hn. cbn [mbind option_bind].
  rewrite Hm. reflexivity.
Qed.

(** X11. A handler registered for a method and one registered by [Any]
    on the same node do not disturb each other, in either order of
    registration (the two orders give the same heap): a request of that
    method runs the method's handler, a request of any other method
    without a handler of its own runs the catch-all. *)
Theorem method_handler_beats_catch_all (h : heap) (p : ptr) (node : _route)
    (m0 : gmap string HandlerFunc) (method : string) (fm fa : HandlerFunc) :
  h !! p = Some node -> hmap node = Some m0 -> method <> anyone ->
  exists h1 h1' h2,
    Any h p fa = Some h1 /\ For h1 p method fm = Some h2
    /\ For h p method fm = Some h1' /\ Any h1' p fa = Some h2
    /\ (forall ctx,
          Method ctx = method ->
          Invoke h2 p ctx = Some (answer (Connect fm (cc node)) ctx))
    /\ (forall ctx,
          Method ctx <> method -> m0 !! Method ctx = None ->
          Invoke h2 p ctx
          = Some (answer (Connect (Connect fa (cc node)) (cc node)) ctx)).
Proof.
  intros Hn Hm Hne. pose proof (lookup_lt_Some _ _ _ Hn) as Hlt.
  assert (anyone <> method) as Hne' by congruence.
  set (ga := Connect (Connect fa (cc node)) (cc node)).
  set (gm := Connect fm (cc node)).
  set (n1 := with_hmap (Some (<[anyone := ga]> m0)) node).
  set (n1' := with_hmap (Some (<[method := gm]> m0)) node).
  set (n2 := with_hmap (Some (<[method := gm]> (<[anyone := ga]> m0))) node).
  exists (<[p := n1]> h), (<[p := n1']> h), (<[p := n2]> h).
  assert (Any h p fa = Some (<[p := n1]> h)) as HA.
  { unfold Any, connected. rewrite Hn. cbn [mbind option_bind].
    exact (For_eq _ _ _ _ _ _ Hn Hm). }
  assert (For h p method fm = Some (<[p := n1']> h)) as HF
    by exact (For_eq _ _ _ _ _ _ Hn Hm).
  split; [exact HA|]. split.
  { rewrite (For_eq (<[p := n1]> h) p n1 (<[anyone := ga]> m0));
      [|apply list_lookup_insert_eq; exact Hlt|reflexivity].
    rewrite list_insert_insert_eq. reflexivity. }
  split; [exact HF|]. split.
  { unfold Any, connected.
    rewrite (list_lookup_insert_eq h p n1' Hlt). cbn [mbind option_bind].
    rewrite (For_eq (<[p := n1']> h) p n1' (<[method := gm]> m0));
      [|apply list_lookup_insert_eq; exact Hlt|reflexivity].
    rewrite list_insert_insert_eq. unfold n2, n1'.
    cbn [with_hmap cc parent sub named pattern placeholder name
         hasDynamicChild hasWildcardChild].
    rewrite (insert_insert_ne m0 anyone method) by exact Hne'. reflexivity. }
  assert (forall k, handler_at (<[p := n2]> h) p k
                    = <[method := gm]> (<[anyone := ga]> m0) !! k) as Hat.
  { intros k. unfold handler_at. rewrite list_lookup_insert_eq by exact Hlt.
    reflexivity. }
  split.
  - intros ctx <-. apply Invoke_answer. rewrite Hat. apply lookup_insert_eq.
  - intros ctx Hother Hfree.
    destruct (decide (Method ctx = anyone)) as [Hany|Hnot].
    + apply Invoke_answer. rewrite Hat.
      rewrite lookup_insert_ne by congruence. rewrite Hany.
      apply lookup_insert_eq.
    + apply Invoke_answer_any.
      * apply lookup_lt_is_Some. rewrite length_insert. exact Hlt.
      * rewrite Hat. rewrite !lookup_insert_ne by congruence. exact Hfree.
      * rewrite Hat. rewrite lookup_insert_ne by congruence.
        apply lookup_insert_eq.
Qed.

Lemma method_handler_beats_catch_all_witness :
  exists h2,
    (h1 ← Any users_heap 3 (announce "any" noop); For h1 3 "GET" noop)
    = Some h2
    /\ Invoke h2 3 (mkContext "GET" 200 []) = Some (mkContext "GET" 200 [], true)
    /\ Invoke h2 3 (mkContext "PUT" 200 [])
       = Some (mkContext "PUT" 200 [NewError 0 "any"], true).
Proof.
  destruct (method_handler_beats_catch_all users_heap 3 _ _ "GET" noop
              (announce "any" noop)
              ltac:(vm_compute; reflexivity) ltac:(vm_compute; reflexivity)
              ltac:(discriminate))
    as (h1 & h1' & h2 & HA & HF & _ & _ & Hm & Ho).
  exists h2. split; [rewrite HA; exact HF|]. split.
  - rewrite (Hm (mkContext "GET" 200 []) eq_refl). reflexivity.
  - rewrite (Ho (mkContext "PUT" 200 [])); [reflexivity|discriminate|].
    vm_compute. reflexivity.
Defined.

(** ** Names and the paths rebuilt from them *)

Lemma append_empty_r (s : string) : s +:+ "" = s.
Proof.
  induction s as [|c s IH]; [reflexivity|].
  change (String c (s +:+ "") = String c s). rewrite IH. reflexivity.
Qed.

Lemma From_bytes_Join segs :
  segs <> [] -> From_bytes segs = "/" +:+ Join segs.
Proof.
  induction segs as [|s more IH]; intros Hne; [contradiction|].
  destruct more as [|s' more'].
  - simpl. rewrite append_empty_r. reflexivity.
  - change (From_bytes (s :: s' :: more'))
      with ("/" +:+ s +:+ From_bytes (s' :: more')).
    rewrite IH by discriminate. reflexivity.
Qed.

Lemma walk_lt h :
  trie h ->
  forall segs cur n, walk h cur segs = Some n -> cur + length segs <= n.
Proof.
  intros Ht. induction segs as [|s segs IH]; intros cur n Hw; simpl in *.
  - injection Hw as ->. lia.
  - destruct (h !! cur) as [c|] eqn:Hc; [|discriminate]. simpl in Hw.
    destruct (sub c !! s) as [next|] eqn:Hs; [|discriminate]. simpl in Hw.
    destruct (trie_child _ Ht _ _ _ _ Hc Hs) as [Hlt _].
    specialize (IH _ _ Hw). lia.
Qed.

Lemma walk_valid h :
  trie h ->
  forall segs cur n,
    is_Some (h !! cur) -> walk h cur segs = Some n -> is_Some (h !! n).
Proof.
  intros Ht. induction segs as [|s segs IH]; intros cur n Hcur Hw; simpl in *.
  - injection Hw as <-. exact Hcur.
  - destruct (h !! cur) as [c|] eqn:Hc; [|discriminate]. simpl in Hw.
    destruct (sub c !! s) as [next|] eqn:Hs; [|discriminate]. simpl in Hw.
    destruct (trie_child _ Ht _ _ _ _ Hc Hs) as (_ & child & Hch & _).
    apply (IH next); eauto.
Qed.

(** With no value supplied, the walk of [From] collects the patterns
    from the node up to a node of empty pattern. *)
Lemma From_walk_up h :
  trie h -> labelled h ->
  forall segs e enode n fuel acc,
    h !! e = Some enode -> pattern enode = "" ->
    walk h e segs = Some n ->
    Forall (fun s => s <> "" /\ plain s) segs ->
    length segs <= fuel ->
    From_walk fuel h (Some n) ∅ acc = Some (acc ++ reverse segs, ∅).
Proof.
  intros Ht Hl segs. induction segs as [|s segs IH] using rev_ind;
    intros e enode n fuel acc He Hpat Hw Hall Hfuel.
  - simpl in Hw. injection Hw as <-.
    destruct fuel; simpl; rewrite He; simpl;
      rewrite bool_decide_eq_true_2 by exact Hpat;
      rewrite app_nil_r; reflexivity.
  - rewrite walk_app in Hw.
    destruct (walk h e segs) as [m|] eqn:Hwm; [|discriminate].
    simpl in Hw. destruct (h !! m) as [mn|] eqn:Hm; [|discriminate].
    simpl in Hw. destruct (sub mn !! s) as [n'|] eqn:Hs; [|discriminate].
    simpl in Hw. injection Hw as ->.
    apply Forall_app in Hall. destruct Hall as [Hall Hlast].
    pose proof (proj1 (Forall_singleton _ _) Hlast) as [Hnonempty Hplain].
    destruct (trie_child _ Ht _ _ _ _ Hm Hs) as (_ & child & Hch & Hpar).
    assert (pattern child = s) as Hps.
    { destruct (labelled_key _ Hl _ _ _ _ _ Hm Hs Hch)
        as [H | [[H _] | [H _]]]; [exact H| |];
        destruct Hplain; congruence. }
    rewrite length_app in Hfuel. simpl in Hfuel.
    destruct fuel as [|fuel]; [lia|].
    cbn [From_walk]. rewrite Hch. cbn [mbind option_bind].
    rewrite bool_decide_eq_false_2 by congruence.
    assert (Values.Has (placeholder child) ∅ = false) as ->.
    { unfold Values.Has. apply bool_decide_eq_false_2.
      rewrite lookup_empty. intros [x Hx]. discriminate. }
    rewrite Hpar, Hps.
    rewrite (IH e enode m fuel (acc ++ [s]) He Hpat Hwm Hall) by lia.
    rewrite reverse_app, <- app_assoc. reflexivity.
Qed.

Lemma Name_eq h p node nm :
  built h -> h !! p = Some node ->
  exists rnode m,
    <[p := with_name nm node]> h !! root = Some rnode
    /\ named rnode = Some m
    /\ (forall k, lookup_name h k = m !! k)
    /\ Name h p nm
       = Some (<[root := with_named (Some (<[nm := p]> m)) rnode]>
                 (<[p := with_name nm node]> h)).
Proof.
  intros (Ht & _ & r & m & Hr & Hm) Hn.
  pose proof (lookup_lt_Some _ _ _ Hn) as Hlt.
  assert (trie (<[p := with_name nm node]> h)) as Ht'
    by (apply (trie_insert _ _ node); auto).
  assert (exists rnode,
            <[p := with_name nm node]> h !! root = Some rnode
            /\ named rnode = Some m) as (rnode & Hrn & Hrm).
  { destruct (decide (p = root)) as [->|Hne].
    - rewrite list_lookup_insert_eq by exact Hlt. eexists. split; [reflexivity|].
      simpl. congruence.
    - rewrite list_lookup_insert_ne by congruence. eauto. }
  exists rnode, m. split; [exact Hrn|]. split; [exact Hrm|]. split.
  - intros k. unfold lookup_name. rewrite Hr. simpl. rewrite Hm. reflexivity.
  - unfold Name. rewrite Hn. cbn [mbind option_bind].
    rewrite (root_of_trie _ p Ht')
      by (apply lookup_lt_is_Some; rewrite length_insert; exact Hlt).
    cbn [mbind option_bind]. rewrite Hrn. cbn [mbind option_bind].
    rewrite Hrm. reflexivity.
Qed.

(** X12. A path can be rebuilt from a name: on a heap built by the
    registrations, for a rooted pattern whose segments are non-empty and
    none of them exactly [":"] or ["*"], after [Insert] of the pattern
    and [Name] of the returned node, [From] of that name with no values,
    called on any node, gives the pattern's text back ([/] followed by
    the segments joined by [/]). *)
Theorem From_rebuilds_pattern (h h1 h2 : heap) (route nm : string)
    (mws : list Middleware) (n q : ptr) (segs : list string) :
  built h ->
  Insert h root route mws = Some (h1, n) ->
  Split (Clean route) = "" :: segs -> segs <> [] ->
  Forall (fun s => s <> "" /\ plain s) segs ->
  Name h1 n nm = Some h2 ->
  is_Some (h2 !! q) ->
  From h2 q nm ∅ = Some (Some ("/" +:+ Join segs), ∅).
Proof.
  intros Hb Hins Hsplit Hne Hall Hname Hq.
  pose proof (Insert_built _ _ _ _ _ _ Hb Hins) as Hb1.
  pose proof (Name_built _ _ _ _ Hb1 Hname) as (Ht2 & Hl2 & _).
  destruct Hb as (Ht & _). destruct Hb1 as (Ht1 & Hl1 & Hnr1).
  pose proof (Insert_walk _ _ _ _ _ Ht Hins) as Hw. rewrite Hsplit in Hw.
  assert (is_Some (h1 !! n)) as [node Hn].
  { apply (walk_valid h1 Ht1 ("" :: segs) root); [|exact Hw].
    destruct (trie_root _ Ht1) as (r & Hr & _). eauto. }
  destruct (Name_eq h1 n node nm (conj Ht1 (conj Hl1 Hnr1)) Hn)
    as (rnode & m & Hrn & Hrm & _ & Heq).
  rewrite Heq in Hname. injection Hname as <-.
  set (h1' := <[n := with_name nm node]> h1) in *.
  set (h2 := <[root := with_named (Some (<[nm := n]> m)) rnode]> h1') in *.
  assert (walk h2 root ("" :: segs) = Some n) as Hw2.
  { unfold h2. rewrite (walk_same_sub _ h1' _ root);
      [|apply (field_sub_insert _ _ rnode); [exact Hrn|reflexivity]].
    unfold h1'. rewrite (walk_same_sub _ h1 _ root);
      [exact Hw|apply (field_sub_insert _ _ node); [exact Hn|reflexivity]]. }
  pose proof (lookup_lt_Some _ _ _ Hrn) as Hlt.
  assert (h2 !! root = Some (with_named (Some (<[nm := n]> m)) rnode)) as Hr2
    by (apply list_lookup_insert_eq; exact Hlt).
  unfold From. rewrite (root_of_trie _ q Ht2 Hq). cbn [mbind option_bind].
  rewrite Hr2. cbn [mbind option_bind named with_named default from_option id].
  rewrite lookup_insert_eq.
  cbn [walk] in Hw2. rewrite Hr2 in Hw2. cbn [mbind option_bind] in Hw2.
  destruct (sub (with_named (Some (<[nm := n]> m)) rnode) !! "") as [e|] eqn:He;
    [|discriminate].
  cbn [mbind option_bind] in Hw2.
  destruct (trie_child _ Ht2 _ _ _ _ Hr2 He) as (_ & enode & Hen & _).
  assert (pattern enode = "") as Hpe.
  { destruct (labelled_key _ Hl2 _ _ _ _ _ Hr2 He Hen)
      as [H | [[H _] | [H _]]]; [exact H|discriminate|discriminate]. }
  pose proof (walk_lt h2 Ht2 _ _ _ Hw2) as Hlen.
  assert (n < length h2) as Hn2.
  { unfold h2, h1'. rewrite !length_insert. eapply lookup_lt_Some; eauto. }
  rewrite (From_walk_up h2 Ht2 Hl2 segs e enode n (length h2) []
             Hen Hpe Hw2 Hall) by lia.
  cbn [mbind option_bind app].
  destruct (reverse segs) as [|s0 rest] eqn:Hrev.
  { apply (f_equal reverse) in Hrev. rewrite reverse_involutive in Hrev.
    contradiction. }
  rewrite <- Hrev, reverse_involutive, (From_bytes_Join _ Hne). reflexivity.
Qed.

Lemma From_rebuilds_pattern_witness :
  exists h1 n h2,
    Insert users_heap root "/teams/:team/members/*who" [] = Some (h1, n)
    /\ Name h1 n "members" = Some h2
    /\ From h2 root "members" ∅
       = Some (Some "/teams/:team/members/*who", ∅).
Proof.
  eexists _, _, _.
  match goal with
  | |- ?A /\ ?B /\ _ =>
      assert A as HA by (vm_compute; reflexivity);
      assert B as HB by (vm_compute; reflexivity)
  end.
  do 2 (split; [assumption|]).
  apply (From_rebuilds_pattern _ _ _ _ _ _ _ root
           ["teams"; ":team"; "members"; "*who"]
           (heap_of_built _) HA);
    [vm_compute; reflexivity | discriminate | | exact HB | vm_compute; eauto].
  repeat constructor; discriminate.
Defined.

(** X13. [Name] never fails on a node of a heap built by the
    registrations, and the registry keeps the last node named: after
    [Name] of [p] and then of [q] with the same name, the name resolves to
    [q], every other name resolves as before, and [p] still carries the
    name in its own [name] field. *)
Theorem Name_last_write_wins (h : heap) (p q : ptr) (nm : string) :
  built h -> is_Some (h !! p) -> is_Some (h !! q) ->
  exists h1 h2,
    Name h p nm = Some h1 /\ Name h1 q nm = Some h2
    /\ lookup_name h1 nm = Some p
    /\ lookup_name h2 nm = Some q
    /\ (forall other, other <> nm -> lookup_name h2 other = lookup_name h other)
    /\ field name h2 q = Some nm
    /\ (p <> q -> field name h2 p = Some nm).
Proof.
  intros Hb [pn Hp] [qn Hq].
  destruct (Name_eq h p pn nm Hb Hp) as (r1 & m1 & Hr1 & Hm1 & Hl1 & Heq1).
  set (h1 := <[root := with_named (Some (<[nm := p]> m1)) r1]>
               (<[p := with_name nm pn]> h)) in *.
  pose proof (Name_built _ _ _ _ Hb Heq1) as Hb1.
  assert (length h1 = length h) as Hlen1
    by (unfold h1; rewrite !length_insert; reflexivity).
  assert (is_Some (h1 !! q)) as [qn1 Hq1].
  { apply lookup_lt_is_Some. rewrite Hlen1. eapply lookup_lt_Some; eauto. }
  destruct (Name_eq h1 q qn1 nm Hb1 Hq1) as (r2 & m2 & Hr2 & Hm2 & Hl2 & Heq2).
  exists h1, (<[root := with_named (Some (<[nm := q]> m2)) r2]>
                (<[q := with_name nm qn1]> h1)).
  split; [exact Heq1|]. split; [exact Heq2|].
  pose proof (lookup_lt_Some _ _ _ Hr1) as Hlt1.
  pose proof (lookup_lt_Some _ _ _ Hr2) as Hlt2.
  assert (forall k, lookup_name h1 k = <[nm := p]> m1 !! k) as Hn1.
  { intros k. unfold lookup_name, h1.
    rewrite list_lookup_insert_eq by exact Hlt1. reflexivity. }
  assert (forall k,
            lookup_name (<[root := with_named (Some (<[nm := q]> m2)) r2]>
                           (<[q := with_name nm qn1]> h1)) k
            = <[nm := q]> m2 !! k) as Hn2.
  { intros k. unfold lookup_name.
    rewrite list_lookup_insert_eq by exact Hlt2. reflexivity. }
  split; [rewrite Hn1; apply lookup_insert_eq|].
  split; [rewrite Hn2; apply lookup_insert_eq|].
  split.
  { intros other Hne. rewrite Hn2, lookup_insert_ne by congruence.
    rewrite <- Hl2, Hn1, lookup_insert_ne by congruence.
    symmetry. apply Hl1. }
  assert (forall x xn,
            h1 !! x = Some xn -> name xn = nm \/ x = q ->
            field name (<[root := with_named (Some (<[nm := q]> m2)) r2]>
                          (<[q := with_name nm qn1]> h1)) x = Some nm)
    as Hfield.
  { intros x xn Hx Hor. unfold field.
    assert (exists xn', <[q := with_name nm qn1]> h1 !! x = Some xn'
                        /\ name xn' = nm) as (xn' & Hx' & Hnm').
    { destruct (decide (x = q)) as [->|Hne].
      - rewrite list_lookup_insert_eq
          by (eapply lookup_lt_Some; eauto).
        eexists. split; [reflexivity|reflexivity].
      - rewrite list_lookup_insert_ne by congruence.
        exists xn. split; [exact Hx|]. destruct Hor; [assumption|contradiction]. }
    destruct (decide (x = root)) as [->|Hne].
    - rewrite list_lookup_insert_eq by exact Hlt2. simpl.
      assert (xn' = r2) as -> by congruence. congruence.
    - rewrite list_lookup_insert_ne by congruence. rewrite Hx'. simpl.
      congruence. }
  split; [apply (Hfield q qn1 Hq1); auto|].
  intros Hpq.
  assert (exists pn1, h1 !! p = Some pn1 /\ name pn1 = nm) as (pn1 & Hp1 & Hpn).
  { unfold h1. pose proof (lookup_lt_Some _ _ _ Hp) as Hltp.
    destruct (decide (p = root)) as [->|Hne].
    - rewrite list_lookup_insert_eq by exact Hlt1. eexists.
      split; [reflexivity|]. simpl.
      rewrite list_lookup_insert_eq in Hr1 by exact Hltp.
      injection Hr1 as <-. reflexivity.
    - rewrite list_lookup_insert_ne by congruence.
      rewrite list_lookup_insert_eq by exact Hltp. eexists.
      split; reflexivity. }
  apply (Hfield p pn1 Hp1). auto.
Qed.

Lemma Name_last_write_wins_witness :
  exists h1 h2,
    Name users_heap 3 "user" = Some h1 /\ Name h1 4 "user" = Some h2
    /\ lookup_name h2 "user" = Some 4
    /\ field name h2 3 = Some "user".
Proof.
  destruct (Name_last_write_wins users_heap 3 4 "user" (heap_of_built _)
              ltac:(vm_compute; eauto) ltac:(vm_compute; eauto))
    as (h1 & h2 & H1 & H2 & _ & H4 & _ & _ & H7).
  exists h1, h2. split; [exact H1|]. split; [exact H2|]. split; [exact H4|].
  apply H7. discriminate.
Defined.

(** ** The CORS middleware *)

Lemma exchange_Set_Set (k v v' : string) (e : exchange) :
  Header_Set k v (Header_Set k v' e) = Header_Set k v e.
Proof.
  destruct e as [m hd cs]. unfold Header_Set. simpl.
  rewrite insert_insert_eq. reflexivity.
Qed.

Lemma exchange_Set_comm (k k' v v' : string) (e : exchange) :
  k <> k' ->
  Header_Set k v (Header_Set k' v' e) = Header_Set k' v' (Header_Set k v e).
Proof.
  intros Hne. destruct e as [m hd cs]. unfold Header_Set. simpl.
  rewrite insert_insert_ne by exact Hne. reflexivity.
Qed.

(** X14. A preflight request never reaches the wrapped handler: when the
    context answers [Is("OPTIONS")] after the two headers are set, the
    result of [Cors next] is the same for every [next], its error is nil,
    and so the handler and every middleware below [Cors] in a chain are
    skipped. *)
Theorem Cors_preflight_skips_next (C : Type) (R : Responder C)
    (next next' : Handler C) (ctx : C) :
  Is MethodOptions
     (Header_Set "Access-Control-Allow-Credentials" "true"
        (Header_Set "Access-Control-Allow-Origin" "*" ctx)) = true ->
  Cors next ctx = Cors next' ctx
  /\ snd (Cors next ctx) = None
  /\ forall (mws : list (Handler C -> Handler C)),
       foldr (fun m nx => m nx) next (Cors :: mws) ctx = Cors next' ctx.
Proof.
  intros His.
  assert (forall nx : Handler C,
            Cors nx ctx
            = (WriteHeader StatusNoContent
                 (Header_Set "Access-Control-Max-Age" "86400"
                    (Header_Set "Access-Control-Allow-Headers" "*"
                       (Header_Set "Access-Control-Methods"
                          "POST, PUT, PATCH, DELETE"
                          (Header_Set "Access-Control-Allow-Credentials" "true"
                             (Header_Set "Access-Control-Allow-Origin" "*"
                                ctx))))), None)) as Hpre.
  { intros nx. unfold Cors. cbv zeta. rewrite His. reflexivity. }
  split; [rewrite !Hpre; reflexivity|].
  split; [rewrite Hpre; reflexivity|].
  intros mws. cbn [foldr]. rewrite !Hpre. reflexivity.
Qed.

Lemma Cors_preflight_skips_next_witness :
  Cors (fun c => (c, None)) (mkExchange "OPTIONS" ∅ [])
  = Cors (fun c => (WriteHeader 500 c, None)) (mkExchange "OPTIONS" ∅ [])
  /\ ex_codes (fst (Cors (fun c => (c, None)) (mkExchange "OPTIONS" ∅ [])))
     = [204%Z].
Proof.
  destruct (Cors_preflight_skips_next exchange exchange_Responder
              (fun c => (c, None)) (fun c => (WriteHeader 500 c, None))
              (mkExchange "OPTIONS" ∅ []) ltac:(reflexivity)) as (H1 & _ & _).
  split; [exact H1|reflexivity].
Defined.

(** X15. Wrapping twice is wrapping once: for a context whose
    [Header().Set] overwrites the value of its key and commutes on
    different keys, [Cors (Cors next)] acts as [Cors next]. *)
Theorem Cors_is_idempotent (C : Type) (R : Responder C)
    (next : Handler C) (ctx : C) :
  (forall k v v' c, Header_Set k v (Header_Set k v' c) = Header_Set k v c) ->
  (forall k k' v v' c,
     k <> k' ->
     Header_Set k v (Header_Set k' v' c) = Header_Set k' v' (Header_Set k v c)) ->
  Cors (Cors next) ctx = Cors next ctx.
Proof.
  intros Hset Hcomm. unfold Cors at 1. cbv zeta.
  destruct (Is MethodOptions
              (Header_Set "Access-Control-Allow-Credentials" "true"
                 (Header_Set "Access-Control-Allow-Origin" "*" ctx)))
    eqn:His.
  - unfold Cors. cbv zeta. rewrite His. reflexivity.
  - unfold Cors. cbv zeta.
    rewrite (Hcomm "Access-Control-Allow-Origin"
               "Access-Control-Allow-Credentials") by discriminate.
    rewrite !Hset, His. reflexivity.
Qed.

Lemma Cors_is_idempotent_witness :
  Cors (Cors (fun c => (WriteHeader 200 c, None))) (mkExchange "GET" ∅ [])
  = Cors (fun c => (WriteHeader 200 c, None)) (mkExchange "GET" ∅ []).
Proof.
  apply (Cors_is_idempotent exchange exchange_Responder
           (fun c => (WriteHeader 200 c, None)) (mkExchange "GET" ∅ [])).
  - intros k v v' c. apply exchange_Set_Set.
  - intros k k' v v' c. apply exchange_Set_comm.
Defined.

(** ** The groups of the server mux *)

Lemma append_assoc (a b c : string) : (a +:+ b) +:+ c = a +:+ (b +:+ c).
Proof.
  induction a as [|x a IH]; [reflexivity|].
  change (String x ((a +:+ b) +:+ c) = String x (a +:+ (b +:+ c))).
  rewrite IH. reflexivity.
Qed.

(** X16. Groups nest by concatenation: a group opened inside a group acts
    as one group of the two prefixes joined, whatever the function does to
    the mux, and the prefix of the mux is the same after as before. *)
Theorem Group_nests (R H : Type) (p q : string)
    (fn : Ezy.ServerMux R H -> option (Ezy.ServerMux R H))
    (sm : Ezy.ServerMux R H) :
  Ezy.Group p (Ezy.Group q fn) sm = Ezy.Group (p +:+ q) fn sm
  /\ forall sm', Ezy.Group p fn sm = Some sm' -> Ezy.prefix sm' = Ezy.prefix sm.
Proof.
  split.
  - unfold Ezy.Group. cbn [Ezy.prefix Ezy.with_prefix].
    rewrite append_assoc.
    destruct (fn _) as [sm1|]; reflexivity.
  - intros sm' Hg. unfold Ezy.Group in Hg.
    destruct (fn _) as [sm1|]; [|discriminate].
    simpl in Hg. injection Hg as <-. reflexivity.
Qed.

(** X17. A registration made in a group is the registration of the
    prefixed path: for each of the eight registration methods,
    [Group p] around the registration of [path] leaves the mux as the
    registration of [p] followed by [path] does. *)
Theorem Group_prefixes_registration (R H : Type) (RT : Ezy.Router R H) :
  Forall
    (fun reg : string -> H -> Ezy.ServerMux R H -> option (Ezy.ServerMux R H) =>
       forall (p path : string) (h : H) (sm : Ezy.ServerMux R H),
         Ezy.Group p (reg path h) sm = reg (p +:+ path) h sm)
    [Ezy.Get; Ezy.Post; Ezy.Put; Ezy.Delete; Ezy.Patch; Ezy.Options;
     Ezy.Head; Ezy.Any].
Proof.
  assert (forall method p path h (sm : Ezy.ServerMux R H),
            Ezy.Group p (Ezy.insert_as method path h) sm
            = Ezy.insert_as method (p +:+ path) h sm) as Hone.
  { intros method p path h sm. unfold Ezy.Group, Ezy.insert_as.
    cbn [Ezy.prefix Ezy.root Ezy.with_prefix].
    rewrite append_assoc.
    destruct (Ezy.Route_Insert _ _ _ _) as [r|]; reflexivity. }
  repeat constructor; intros; apply Hone.
Qed.

Lemma Group_nests_witness :
  Ezy.Group "/v1" (Ezy.Group "/users" (Ezy.Get "/:id" 7))
    (Ezy.mkServerMux 0 [] "/api")
  = Some (Ezy.mkServerMux 0 [("/api/v1/users/:id", "GET")] "/api").
Proof.
  rewrite (proj1 (Group_nests _ _ "/v1" "/users" (Ezy.Get "/:id" 7)
                    (Ezy.mkServerMux 0 [] "/api"))).
  reflexivity.
Defined.

Lemma Group_prefixes_registration_witness :
  Ezy.Group "/admin" (Ezy.Get "/stats" 3) (Ezy.mkServerMux 0 [] "/svc")
  = Some (Ezy.mkServerMux 0 [("/svc/admin/stats", "GET")] "/svc").
Proof.
  rewrite (Forall_inv
             (Group_prefixes_registration _ _ Ezy.log_Router)
             "/admin" "/stats" 3 (Ezy.mkServerMux 0 [] "/svc")).
  reflexivity.
Defined.
